(** * jquery.video-frame-animation: a scroll-driven frame animator

    Shallow embedding of [src/js/jquery.video-frame-animation.js].

    The plugin keeps its state in the variables of one closure and changes the
    children of one host element.  Here the closure variables are the fields of
    the record [state], the host's children are a list of [node]s, and every
    function of the plugin is a function on [state].  Calls that leave the
    plugin (user callbacks, timers, image fetches, the image-load detector) are
    appended to a trace of [event]s, in call order.

    Asynchrony.  What the browser runs later (a timer, an animation frame, the
    callback of the image-load detector) is a [call] of its own, so that a
    session is a list of [call]s in the order the browser runs them.  Elements
    carry an [id], which stands for the identity of the DOM element: [$frame]
    keeps the elements it selected, whatever their attributes become.  The
    host element starts without children.

    Numbers.  Pixel offsets, [numImages] and [buffer] are integers.  A
    JavaScript number is a binary64 value: the difference, the quotient and the
    product inside [calculateCurrent] are rounded to the nearest binary64
    number, ties to even, with gradual underflow and with overflow to an
    infinity; a division by zero gives [NaN] or an infinity.  An integer that
    is no binary64 value (the least positive one is [2 ^ 53 + 1]) is no
    JavaScript number; [calculateCurrent] on such an integer is computed
    without rounding, and [String] writes it in plain decimal.  The sign of
    zero is outside this model. *)

From Stdlib Require Import ZArith QArith Qround Qpower List Bool String Ascii.
From Stdlib Require Import Lia Lqa.
From Stdlib Require Qcanon.
Import ListNotations.

Local Open Scope Z_scope.

(** ** JavaScript numbers *)

Module JS.

(** A number as it occurs inside [calculateCurrent]. *)
Inductive real : Type :=
| RNaN
| RInf (neg : bool)
| Rat (q : Q).

(** A number with an integral value: what [Math.ceil] returns, and what the
    plugin uses as a frame. *)
Inductive num : Type :=
| NaN
| Inf (neg : bool)
| Int (z : Z).

Definition of_Z (z : Z) : real := Rat (inject_Z z).

Definition Qneg (q : Q) : bool := Qnum q <? 0.
Definition Qzero (q : Q) : bool := Qnum q =? 0.

(** *** Rounding to binary64 *)

Definition pow2 (k : Z) : Q := (2 ^ k)%Q.

(** The nearest integer, a tie going to the even one. *)
Definition rne (t : Q) : Z :=
  let f := Qfloor t in
  match (t - inject_Z f ?= 1 # 2)%Q with
  | Lt => f
  | Gt => f + 1
  | Eq => if Z.even f then f else f + 1
  end.

(** [floor (log2 q)] for a positive [q]. *)
Definition ilog2 (q : Q) : Z :=
  let e := Z.log2 (Qnum q) - Z.log2 (Zpos (Qden q)) in
  if Qle_bool (pow2 e) q then e else e - 1.

(** A positive number rounded to 53 significant bits; below [2 ^ -1022] the
    spacing stays [2 ^ -1074]. *)
Definition nearest (x : Q) : Q :=
  let u := Z.max (ilog2 x - 52) (-1074) in
  (inject_Z (rne (x / pow2 u)) * pow2 u)%Q.

(** What rounds to [2 ^ 1024] or more is an infinity. *)
Definition round_pos (x : Q) : real :=
  if Qle_bool (pow2 1024) (nearest x) then RInf false
  else Rat (Qred (nearest x)).

Definition opp (a : real) : real :=
  match a with
  | RNaN => RNaN
  | RInf s => RInf (negb s)
  | Rat q => Rat (- q)
  end.

(** The binary64 number nearest to [x], in lowest terms. *)
Definition fl (x : Q) : real :=
  let x := Qred x in
  match (x ?= 0)%Q with
  | Eq => Rat 0
  | Gt => round_pos x
  | Lt => opp (round_pos (- x))
  end.

(** The integer [z] is a binary64 value. *)
Definition is_double (z : Z) : bool :=
  match fl (inject_Z z) with
  | Rat q => Qeq_bool q (inject_Z z)
  | _ => false
  end.

(** *** Arithmetic

    [rnd] rounds the exact result of an operation on two finite numbers. *)

(** [a - b] *)
Definition subtract (rnd : Q -> real) (a b : real) : real :=
  match a, b with
  | RNaN, _ | _, RNaN => RNaN
  | RInf s, RInf t => if Bool.eqb s t then RNaN else RInf s
  | RInf s, Rat _ => RInf s
  | Rat _, RInf t => RInf (negb t)
  | Rat p, Rat q => rnd (p - q)%Q
  end.

(** [a / b] *)
Definition div (rnd : Q -> real) (a b : real) : real :=
  match a, b with
  | RNaN, _ | _, RNaN => RNaN
  | RInf _, RInf _ => RNaN
  | RInf s, Rat q => RInf (xorb s (Qneg q))
  | Rat _, RInf _ => Rat 0
  | Rat p, Rat q =>
      if Qzero q then (if Qzero p then RNaN else RInf (Qneg p))
      else rnd (p / q)%Q
  end.

(** [a * b] *)
Definition mul (rnd : Q -> real) (a b : real) : real :=
  match a, b with
  | RNaN, _ | _, RNaN => RNaN
  | RInf s, RInf t => RInf (xorb s t)
  | RInf s, Rat q | Rat q, RInf s =>
      if Qzero q then RNaN else RInf (xorb s (Qneg q))
  | Rat p, Rat q => rnd (p * q)%Q
  end.

(** [Math.ceil] *)
Definition ceil (a : real) : num :=
  match a with
  | RNaN => NaN
  | RInf s => Inf s
  | Rat q => Int (Qceiling q)
  end.

(** [a < b]; false as soon as one side is [NaN]. *)
Definition lt (a b : num) : bool :=
  match a, b with
  | NaN, _ | _, NaN => false
  | Inf true, Inf true => false
  | Inf true, _ => true
  | _, Inf true => false
  | Inf false, _ => false
  | Int _, Inf false => true
  | Int x, Int y => x <? y
  end.

Definition gt (a b : num) : bool := lt b a.

(** [a <= b] *)
Definition le (a b : num) : bool :=
  match a, b with
  | NaN, _ | _, NaN => false
  | Inf true, _ => true
  | _, Inf true => false
  | _, Inf false => true
  | Inf false, Int _ => false
  | Int x, Int y => x <=? y
  end.

(** [Math.max(a, b)] *)
Definition max (a b : num) : num :=
  match a, b with
  | NaN, _ | _, NaN => NaN
  | _, _ => if lt a b then b else a
  end.

(** [a + b] and [a - b] *)
Definition add (a b : num) : num :=
  match a, b with
  | NaN, _ | _, NaN => NaN
  | Inf s, Inf t => if Bool.eqb s t then Inf s else NaN
  | Inf s, Int _ | Int _, Inf s => Inf s
  | Int x, Int y => Int (x + y)
  end.

Definition neg (a : num) : num :=
  match a with
  | NaN => NaN
  | Inf s => Inf (negb s)
  | Int x => Int (- x)
  end.

Definition sub (a b : num) : num := add a (neg b).

(** [a === b] and [a == b] on numbers: [NaN] equals nothing. *)
Definition strict_eq (a b : num) : bool :=
  match a, b with
  | Inf s, Inf t => Bool.eqb s t
  | Int x, Int y => x =? y
  | _, _ => false
  end.

(** [a != b] *)
Definition neq (a b : num) : bool := negb (strict_eq a b).

(** Equality of the printed forms, as an attribute selector compares them:
    [NaN] matches [NaN]. *)
Definition same (a b : num) : bool :=
  match a, b with
  | NaN, NaN => true
  | _, _ => strict_eq a b
  end.

(** [Array.prototype.indexOf(x) !== -1] *)
Definition includes (l : list num) (x : num) : bool :=
  existsb (strict_eq x) l.

End JS.

Import JS.

(** ** Settings, display surface, closure state *)

(** The merged settings object.  [onPreloaded] and [onShowFrame] record
    whether the setting is a function. *)
Record settings : Type := {
  imgFormat : string;
  upgradeHighRes : bool;
  imgDirBig : string;
  buffer : Z;
  preload_flag : bool;
  requestAnimationFramePolyfill : bool;
  numImages : Z;
  imgDir : string;
  imgName : string;
  onPreloaded : bool;
  onShowFrame : bool
}.

(** What [$(document).scrollTop()], [$(document).height()] and
    [$(window).height()] answer. *)
Record viewport : Type := {
  scrollTop : Z;
  documentHeight : Z;
  windowHeight : Z
}.

Section CalculateCurrent.

Variable cfg : settings.

(** The numbers [calculateCurrent] reads are binary64 values. *)
Definition representable (vp : viewport) : bool :=
  is_double (numImages cfg) && is_double (scrollTop vp)
  && is_double (documentHeight vp) && is_double (windowHeight vp).

(** The result of each operation is rounded to binary64. *)
Definition rounding (vp : viewport) : Q -> real :=
  if representable vp then fl else Rat.

Definition currentPercent (vp : viewport) : real :=
  div (rounding vp) (of_Z (scrollTop vp))
      (subtract (rounding vp) (of_Z (documentHeight vp))
                (of_Z (windowHeight vp))).

Definition calculateCurrent (vp : viewport) : num :=
  max (Int 1)
      (ceil (mul (rounding vp) (of_Z (numImages cfg)) (currentPercent vp))).

End CalculateCurrent.

(** ** Printing numbers *)

Definition digit (d : Z) : ascii :=
  ascii_of_nat (48 + Z.to_nat d).

(** Decimal digits of a non-negative integer, most significant first,
    prepended to [acc].  [fuel] bounds the number of digits. *)
Fixpoint digits (fuel : nat) (n : Z) (acc : string) : string :=
  match fuel with
  | O => acc
  | S k =>
      let acc' := String (digit (n mod 10)) acc in
      if n <? 10 then acc' else digits k (n / 10) acc'
  end.

(** A number below [2 ^ k] has at most [k] decimal digits, and at least one. *)
Definition decimal (n : Z) : string :=
  digits (S (Z.to_nat (Z.log2 n))) n EmptyString.

(** *** [String(x)]

    For a finite number JavaScript prints the decimal with the fewest
    significant digits that reads back as that number; of two such decimals
    the one nearer to the number, and at equal distance the one whose last
    digit is even.  A decimal of up to 21 digits before the point is written
    in full, a longer one in exponent form. *)

(** The decimal [v], read as a number, is [x]. *)
Definition reads_as (v x : Z) : bool :=
  match fl (inject_Z v) with
  | Rat q => Qeq_bool q (inject_Z x)
  | _ => false
  end.

(** The search for the shortest decimal of [x], a number of [p] digits: with
    [k] significant digits there are [x] cut after [k] digits, and the next
    decimal of [k] digits above.  [fuel] counts the lengths still to try. *)
Fixpoint shortest (fuel k : nat) (x : Z) (p : nat) : Z :=
  match fuel with
  | O => x
  | S fuel' =>
      let u := 10 ^ Z.of_nat (p - k) in
      let lo := x / u * u in
      let hi := lo + u in
      match reads_as lo x, reads_as hi x with
      | true, true =>
          if x - lo <? hi - x then lo
          else if hi - x <? x - lo then hi
          else if Z.even (x / u) then lo else hi
      | true, false => lo
      | false, true => hi
      | false, false => shortest fuel' (S k) x p
      end
  end.

(** [v] without the zeros at its end. *)
Fixpoint significand (fuel : nat) (v : Z) : Z :=
  match fuel with
  | O => v
  | S k => if v mod 10 =? 0 then significand k (v / 10) else v
  end.

(** The exponent form of the decimal [v] of [n] digits: its significant
    digits, a point after the first when there are more, and the exponent
    [n - 1]. *)
Definition exponent_form (v : Z) (n : nat) : string :=
  let e := ("e+" ++ decimal (Z.of_nat n - 1))%string in
  match decimal (significand n v) with
  | EmptyString => e
  | String c EmptyString => String c e
  | String c r => String c ("." ++ r ++ e)
  end.

(** [String(z)] for a non-negative integer.  An integer that is no binary64
    value is no JavaScript number; it is written in plain decimal. *)
Definition toString (z : Z) : string :=
  if is_double z then
    let p := String.length (decimal z) in
    let v := shortest p 1 z p in
    let n := String.length (decimal v) in
    if (n <=? 21)%nat then decimal v else exponent_form v n
  else decimal z.

(** [String(x)] for an integral number, an infinity or [NaN]. *)
Definition String_ (x : num) : string :=
  match x with
  | NaN => "NaN"
  | Inf false => "Infinity"
  | Inf true => "-Infinity"
  | Int z => if z <? 0 then String "-" (toString (- z)) else toString z
  end.

(** The [while] loop of [zerofill]: one ["0"] in front per missing
    character. *)
Fixpoint pad (missing : nat) (numStr : string) : string :=
  match missing with
  | O => numStr
  | S k => pad k (String "0" numStr)
  end.

(** [zerofill(num, len)]; [len = None] is the call with one argument, which
    takes the width from [imgStrLen]. *)
Definition zerofill (imgStrLen : nat) (x : num) (len : option nat) : string :=
  let numStr := String_ x in
  let len := match len with None => imgStrLen | Some l => l end in
  pad (len - String.length numStr) numStr.

(** ** The display surface and the closure variables *)

(** An [img] element, as [generateImg] writes it: [src], [data-frame],
    [data-upgraded] and the [display] style.  [id] tells elements apart: the
    markup [generateImg] returns has [id = 0], and every element made from
    markup gets an [id] of its own. *)
Record img : Type := {
  id : nat;
  src : string;
  frame : num;
  upgraded : bool;
  visible : bool
}.

(** A child of the host element: an image, or the staging [span] that [init]
    adds (with whether it is shown). *)
Inductive node : Type :=
| Img (el : img)
| Span (shown : bool).

(** Resolution tier: the [type] argument [1] (low) or [2] (high). *)
Inductive tier : Type := Low | High.

(** Calls that leave the plugin. *)
Inductive event : Type :=
| ConsoleLog
| InjectPolyfill
| OnShowFrame (f : num)
| OnPreloaded
| SetTimeoutPreload
| Fetch (t : tier) (i : Z) (url : string)
| ImagesLoaded (f : num)
| UpgradeImagesLoaded (f : num)
| RequestAnimationFrame
| ClearTimeout
| SetTimeoutCheckForScroll
| OnScroll.

(** The closure variables ([frame_] is the global [$frame], as the [id]s of
    the selected elements; [upgradeWrapper] is the content of the staging
    [span], [None] while [$upgradeWrapper] is still [{}]), the children of
    the host element in document order, the next unused element [id], and
    the trace. *)
Record state : Type := {
  this_ : nat;
  currentImg : num;
  imgStrLen : nat;
  animating : bool;
  buffering : bool;
  preloaded : list num;
  allPreloaded : bool;
  preloadedBig : list num;
  lastCurrentImg : num;
  upgradeWrapper : option (list img);
  frame_ : list nat;
  children : list node;
  nextId : nat;
  trace : list event
}.

Definition set_this (v : nat) (s : state) : state :=
  {| this_ := v; currentImg := currentImg s; imgStrLen := imgStrLen s;
     animating := animating s; buffering := buffering s;
     preloaded := preloaded s; allPreloaded := allPreloaded s;
     preloadedBig := preloadedBig s; lastCurrentImg := lastCurrentImg s;
     upgradeWrapper := upgradeWrapper s; frame_ := frame_ s;
     children := children s; nextId := nextId s; trace := trace s |}.

Definition set_currentImg (v : num) (s : state) : state :=
  {| this_ := this_ s; currentImg := v; imgStrLen := imgStrLen s;
     animating := animating s; buffering := buffering s;
     preloaded := preloaded s; allPreloaded := allPreloaded s;
     preloadedBig := preloadedBig s; lastCurrentImg := lastCurrentImg s;
     upgradeWrapper := upgradeWrapper s; frame_ := frame_ s;
     children := children s; nextId := nextId s; trace := trace s |}.

Definition set_imgStrLen (v : nat) (s : state) : state :=
  {| this_ := this_ s; currentImg := currentImg s; imgStrLen := v;
     animating := animating s; buffering := buffering s;
     preloaded := preloaded s; allPreloaded := allPreloaded s;
     preloadedBig := preloadedBig s; lastCurrentImg := lastCurrentImg s;
     upgradeWrapper := upgradeWrapper s; frame_ := frame_ s;
     children := children s; nextId := nextId s; trace := trace s |}.

Definition set_animating (v : bool) (s : state) : state :=
  {| this_ := this_ s; currentImg := currentImg s;
     imgStrLen := imgStrLen s; animating := v; buffering := buffering s;
     preloaded := preloaded s; allPreloaded := allPreloaded s;
     preloadedBig := preloadedBig s; lastCurrentImg := lastCurrentImg s;
     upgradeWrapper := upgradeWrapper s; frame_ := frame_ s;
     children := children s; nextId := nextId s; trace := trace s |}.

Definition set_buffering (v : bool) (s : state) : state :=
  {| this_ := this_ s; currentImg := currentImg s;
     imgStrLen := imgStrLen s; animating := animating s; buffering := v;
     preloaded := preloaded s; allPreloaded := allPreloaded s;
     preloadedBig := preloadedBig s; lastCurrentImg := lastCurrentImg s;
     upgradeWrapper := upgradeWrapper s; frame_ := frame_ s;
     children := children s; nextId := nextId s; trace := trace s |}.

Definition set_preloaded (v : list num) (s : state) : state :=
  {| this_ := this_ s; currentImg := currentImg s;
     imgStrLen := imgStrLen s; animating := animating s;
     buffering := buffering s; preloaded := v;
     allPreloaded := allPreloaded s; preloadedBig := preloadedBig s;
     lastCurrentImg := lastCurrentImg s;
     upgradeWrapper := upgradeWrapper s; frame_ := frame_ s;
     children := children s; nextId := nextId s; trace := trace s |}.

Definition set_allPreloaded (v : bool) (s : state) : state :=
  {| this_ := this_ s; currentImg := currentImg s;
     imgStrLen := imgStrLen s; animating := animating s;
     buffering := buffering s; preloaded := preloaded s; allPreloaded := v;
     preloadedBig := preloadedBig s; lastCurrentImg := lastCurrentImg s;
     upgradeWrapper := upgradeWrapper s; frame_ := frame_ s;
     children := children s; nextId := nextId s; trace := trace s |}.

Definition set_preloadedBig (v : list num) (s : state) : state :=
  {| this_ := this_ s; currentImg := currentImg s;
     imgStrLen := imgStrLen s; animating := animating s;
     buffering := buffering s; preloaded := preloaded s;
     allPreloaded := allPreloaded s; preloadedBig := v;
     lastCurrentImg := lastCurrentImg s;
     upgradeWrapper := upgradeWrapper s; frame_ := frame_ s;
     children := children s; nextId := nextId s; trace := trace s |}.

Definition set_lastCurrentImg (v : num) (s : state) : state :=
  {| this_ := this_ s; currentImg := currentImg s;
     imgStrLen := imgStrLen s; animating := animating s;
     buffering := buffering s; preloaded := preloaded s;
     allPreloaded := allPreloaded s; preloadedBig := preloadedBig s;
     lastCurrentImg := v; upgradeWrapper := upgradeWrapper s;
     frame_ := frame_ s; children := children s; nextId := nextId s;
     trace := trace s |}.

Definition set_upgradeWrapper (v : option (list img)) (s : state) : state :=
  {| this_ := this_ s; currentImg := currentImg s;
     imgStrLen := imgStrLen s; animating := animating s;
     buffering := buffering s; preloaded := preloaded s;
     allPreloaded := allPreloaded s; preloadedBig := preloadedBig s;
     lastCurrentImg := lastCurrentImg s; upgradeWrapper := v;
     frame_ := frame_ s; children := children s; nextId := nextId s;
     trace := trace s |}.

Definition set_frame (v : list nat) (s : state) : state :=
  {| this_ := this_ s; currentImg := currentImg s;
     imgStrLen := imgStrLen s; animating := animating s;
     buffering := buffering s; preloaded := preloaded s;
     allPreloaded := allPreloaded s; preloadedBig := preloadedBig s;
     lastCurrentImg := lastCurrentImg s;
     upgradeWrapper := upgradeWrapper s; frame_ := v;
     children := children s; nextId := nextId s; trace := trace s |}.

Definition set_children (v : list node) (s : state) : state :=
  {| this_ := this_ s; currentImg := currentImg s;
     imgStrLen := imgStrLen s; animating := animating s;
     buffering := buffering s; preloaded := preloaded s;
     allPreloaded := allPreloaded s; preloadedBig := preloadedBig s;
     lastCurrentImg := lastCurrentImg s;
     upgradeWrapper := upgradeWrapper s; frame_ := frame_ s; children := v;
     nextId := nextId s; trace := trace s |}.

Definition set_nextId (v : nat) (s : state) : state :=
  {| this_ := this_ s; currentImg := currentImg s;
     imgStrLen := imgStrLen s; animating := animating s;
     buffering := buffering s; preloaded := preloaded s;
     allPreloaded := allPreloaded s; preloadedBig := preloadedBig s;
     lastCurrentImg := lastCurrentImg s;
     upgradeWrapper := upgradeWrapper s; frame_ := frame_ s;
     children := children s; nextId := v; trace := trace s |}.

(** Append one call to the trace. *)
Definition emit (v : event) (s : state) : state :=
  {| this_ := this_ s; currentImg := currentImg s;
     imgStrLen := imgStrLen s; animating := animating s;
     buffering := buffering s; preloaded := preloaded s;
     allPreloaded := allPreloaded s; preloadedBig := preloadedBig s;
     lastCurrentImg := lastCurrentImg s;
     upgradeWrapper := upgradeWrapper s; frame_ := frame_ s;
     children := children s; nextId := nextId s;
     trace := trace s ++ [v] |}.

(** The closure variables as the script leaves them when it is loaded. *)
Definition initial : state :=
  {| this_ := 0%nat; currentImg := Int 1; imgStrLen := 1%nat;
     animating := false; buffering := false;
     preloaded := []; allPreloaded := false; preloadedBig := [];
     lastCurrentImg := Int 1; upgradeWrapper := None; frame_ := [];
     children := []; nextId := 1%nat; trace := [] |}.

(** ** The plugin's functions *)

(** The images among the children, in document order:
    [$this.children('img')]. *)
Fixpoint imgs (l : list node) : list img :=
  match l with
  | [] => []
  | Img el :: r => el :: imgs r
  | Span _ :: r => imgs r
  end.

(** [$this.children('img[data-frame="' + f + '"]')] *)
Definition with_frame (f : num) (l : list node) : list img :=
  filter (fun el => same (frame el) f) (imgs l).

Definition hide (el : img) : img :=
  {| id := id el; src := src el; frame := frame el; upgraded := upgraded el;
     visible := false |}.

Definition show (el : img) : img :=
  {| id := id el; src := src el; frame := frame el; upgraded := upgraded el;
     visible := true |}.

(** [.hide()] and [.show()] on a child. *)
Definition hide_node (n : node) : node :=
  match n with
  | Img el => Img (hide el)
  | Span _ => Span false
  end.

Definition show_img (n : node) : node :=
  match n with
  | Img el => Img (show el)
  | Span b => Span b
  end.

(** The element made from markup [el], with identity [n]. *)
Definition stamp (n : nat) (el : img) : img :=
  {| id := n; src := src el; frame := frame el; upgraded := upgraded el;
     visible := visible el |}.

Definition element (n : nat) (el : img) : node := Img (stamp n el).

(** [el] is one of the elements with the [id]s [ids]. *)
Definition among (ids : list nat) (n : node) : bool :=
  match n with
  | Img el => existsb (Nat.eqb (id el)) ids
  | Span _ => false
  end.

Section Plugin.

Variable cfg : settings.

Definition markAsPreloaded (f : num) (s : state) : state :=
  if includes (preloaded s) f then s
  else set_preloaded (preloaded s ++ [f]) s.

Definition markBigAsPreloaded (f : num) (s : state) : state :=
  if includes (preloadedBig s) f then s
  else set_preloadedBig (preloadedBig s ++ [f]) s.

Definition onImagePreloaded (id : num) (t : tier) (s : state) : state :=
  emit SetTimeoutPreload
    (match t with
     | Low => markAsPreloaded id s
     | High => markBigAsPreloaded id s
     end).

(** The array that [preloadNext(type)] consults. *)
Definition marked (t : tier) (s : state) : list num :=
  match t with Low => preloaded s | High => preloadedBig s end.

(** The [for] loop of [preloadNext]: the first [i], counting from [i] for
    [count] rounds, that the array does not hold. *)
Fixpoint scan (count : nat) (i : Z) (l : list num) : option Z :=
  match count with
  | O => None
  | S k => if includes l (Int i) then scan k (i + 1) l else Some i
  end.

(** [preloadNext(type)].  The assignment to [image.onLoad] calls
    [onImagePreloaded] on the spot, before [image.src] starts the fetch. *)
Definition preloadNext (t : tier) (s : state) : state :=
  if negb (animating s) && negb (buffering s) then
    match scan (Z.to_nat (numImages cfg)) 1 (marked t s) with
    | Some i =>
        let s1 := onImagePreloaded (Int i) t s in
        emit (Fetch t i
                ((match t with Low => imgDir cfg | High => imgDirBig cfg end)
                 ++ imgName cfg ++ zerofill (imgStrLen s1) (Int i) None
                 ++ imgFormat cfg)%string) s1
    | None => s
    end
  else s.

(** One pass through the body of [preload]; [again] is the call of [preload]
    in the second branch. *)
Definition preload_body (again : state -> state) (s : state) : state :=
  if preload_flag cfg then
    if Z.of_nat (List.length (preloaded s)) <? numImages cfg then
      preloadNext Low s
    else if (numImages cfg <=? Z.of_nat (List.length (preloaded s)))
            && negb (allPreloaded s) then
      let s1 := set_allPreloaded true s in
      again (if onPreloaded cfg then emit OnPreloaded s1 else s1)
    else if allPreloaded s
            && (Z.of_nat (List.length (preloadedBig s)) <? numImages cfg) then
      preloadNext High s
    else s
  else s.

(** [preload].  The inner call finds [allPreloaded] set and cannot reach the
    second branch again ([preload_unfold] below), so two passes are all there
    are. *)
Definition preload : state -> state :=
  preload_body (preload_body (fun s => s)).

(** [generateImg(id, highres)], as the element the markup describes. *)
Definition generateImg (fr : num) (highres : bool) (s : state) : img :=
  if highres || includes (preloadedBig s) fr then
    {| id := 0;
       src := (imgDirBig cfg ++ imgName cfg ++ zerofill (imgStrLen s) fr None
               ++ imgFormat cfg)%string;
       frame := fr; upgraded := true; visible := false |}
  else
    {| id := 0;
       src := (imgDir cfg ++ imgName cfg ++ zerofill (imgStrLen s) fr None
               ++ imgFormat cfg)%string;
       frame := fr; upgraded := false; visible := false |}.

(** [$this.append(markup)]: a new last child. *)
Definition append (el : img) (s : state) : state :=
  set_nextId (S (nextId s))
    (set_children (children s ++ [element (nextId s) el]) s).

(** The removal test of [bufferFromFrame]. *)
Definition outside (fr : num) (el : img) : bool :=
  lt (frame el) (sub fr (Int (buffer cfg)))
  || gt (frame el) (add fr (Int (buffer cfg))).

(** The children [bufferFromFrame] keeps: it looks at images only. *)
Definition keep (fr : num) (n : node) : bool :=
  match n with
  | Img el => negb (outside fr el)
  | Span _ => true
  end.

(** The [for] loop of [bufferFromFrame], [count] rounds from [i]. *)
Fixpoint bufferLoop (count : nat) (i : Z) (fr : num) (s : state) : state :=
  match count with
  | O => s
  | S k =>
      let frameToBuffer := add fr (Int i) in
      bufferLoop k (i + 1) fr
        (if (List.length (with_frame frameToBuffer (children s)) =? 0)%nat
            && gt frameToBuffer (Int 0)
            && le frameToBuffer (Int (numImages cfg))
         then markAsPreloaded frameToBuffer
                (append (generateImg frameToBuffer false s) s)
         else s)
  end.

Definition bufferFromFrame (fr : num) (s : state) : state :=
  let s1 := set_children (filter (keep fr) (children s)) s in
  let s2 :=
    if Z.of_nat (List.length (imgs (children s1))) <? buffer cfg * 2 then
      bufferLoop (Z.to_nat (buffer cfg - - buffer cfg)) (- buffer cfg) fr s1
    else s1 in
  preload (set_buffering false s2).

(** [.show()] on the images of frame [fr]. *)
Definition show_frame (fr : num) (n : node) : node :=
  match n with
  | Img el => if same (frame el) fr then Img (show el) else n
  | Span b => Span b
  end.

Definition showFrame (fr : num) (s : state) : state :=
  let s1 := if onShowFrame cfg then emit (OnShowFrame fr) s else s in
  let s2 := set_children (map hide_node (children s1)) s1 in
  let s3 := set_children (map (show_frame fr) (children s2)) s2 in
  bufferFromFrame fr (markAsPreloaded fr s3).

(** [showFrameWhenReady(frame)].  When the frame is absent the call ends with
    the registration at the image-load detector; its callback is a later
    [showFrame fr]. *)
Definition showFrameWhenReady (fr : num) (s : state) : state :=
  if (List.length (with_frame fr (children s)) =? 0)%nat then
    let s1 := set_buffering true s in
    emit (ImagesLoaded fr) (append (generateImg fr false s1) s1)
  else showFrame fr s.

Definition animate (vp : viewport) (s : state) : state :=
  if animating s then
    let cur := calculateCurrent cfg vp in
    emit RequestAnimationFrame
      (if neq cur (currentImg s) then
         showFrameWhenReady cur (set_currentImg cur s)
       else set_animating false s)
  else s.

Definition scroll (vp : viewport) (s : state) : state :=
  let s1 := if negb (animating s) then animate vp (set_animating true s)
            else s in
  emit SetTimeoutCheckForScroll
    (emit ClearTimeout (set_lastCurrentImg (currentImg s1) s1)).

End Plugin.

(** ** Functions that can throw: [upgradeFrame], [checkForScroll], [init] *)

(** How a call ends; a [throw] keeps the assignments made before it. *)
Inductive outcome (A : Type) : Type :=
| Returns (a : A) (s : state)
| Throws (msg : string) (s : state).

Arguments Returns {A} a s.
Arguments Throws {A} msg s.

Definition final {A : Type} (o : outcome A) : state :=
  match o with Returns _ s => s | Throws _ s => s end.

Definition thrown {A : Type} (o : outcome A) : bool :=
  match o with Returns _ _ => false | Throws _ _ => true end.

Section Upgrade.

Variable cfg : settings.

(** [$frame.data('upgraded') != '1'] on the first selected element; an empty
    selection answers [undefined]. *)
Definition not_upgraded (sel : list img) : bool :=
  match sel with
  | [] => true
  | el :: _ => negb (upgraded el)
  end.

(** [upgradeFrame(frame)] up to the registration at the image-load detector;
    the callback registered there is [upgradeLoaded] below.  With
    [$upgradeWrapper] still [{}] the call of [empty] is a [TypeError]. *)
Definition upgradeFrame (fr : num) (s : state) : outcome unit :=
  let sel := with_frame fr (children s) in
  let s1 := set_frame (map id sel) s in
  if not_upgraded sel then
    let highResFrame := generateImg cfg fr true s1 in
    match upgradeWrapper s1 with
    | None => Throws "TypeError: $upgradeWrapper.empty is not a function" s1
    | Some _ =>
        Returns tt
          (emit (UpgradeImagesLoaded fr)
             (set_upgradeWrapper (Some [highResFrame]) s1))
    end
  else Returns tt s1.

(** [$frame.after(html)]: after every child among [$frame], new elements made
    from the markup [html], numbered from [n].  The result comes with the
    next unused number. *)
Fixpoint elements (n : nat) (html : list img) : list node :=
  match html with
  | [] => []
  | el :: r => element n el :: elements (S n) r
  end.

Fixpoint after (targets : list nat) (html : list img) (n : nat)
    (l : list node) : list node * nat :=
  match l with
  | [] => ([], n)
  | c :: r =>
      if among targets c then
        let (r', n') := after targets html (n + List.length html) r in
        (c :: elements n html ++ r', n')
      else
        let (r', n') := after targets html n r in
        (c :: r', n')
  end.

(** [$frame.next('img').show()]: the child that directly follows a child
    among [$frame] is shown when it is an image.  [follows] tells whether the
    child before the head of [l] is among [$frame]. *)
Fixpoint show_next (targets : list nat) (follows : bool) (l : list node)
  : list node :=
  match l with
  | [] => []
  | c :: r =>
      (if follows then show_img c else c)
      :: show_next targets (among targets c) r
  end.

(** The callback [upgradeFrame(frame)] hands to the image-load detector.
    [$frame] and [$upgradeWrapper] are read when the callback runs; [frame]
    is the argument of the call that registered it. *)
Definition upgradeLoaded (fr : num) (s : state) : state :=
  match upgradeWrapper s with
  | None => s
  | Some html =>
      let (l1, n) := after (frame_ s) html (nextId s) (children s) in
      let l2 := show_next (frame_ s) false l1 in
      let l3 := filter (fun c => negb (among (frame_ s) c)) l2 in
      markBigAsPreloaded fr
        (set_upgradeWrapper (Some [])
           (set_nextId n (set_children l3 s)))
  end.

Definition checkForScroll (s : state) : outcome unit :=
  if strict_eq (lastCurrentImg s) (currentImg s) then
    let s1 := set_animating false s in
    if upgradeHighRes cfg then
      match upgradeFrame (currentImg s1) s1 with
      | Returns _ s2 => Returns tt (preload cfg s2)
      | Throws m s2 => Throws m s2
      end
    else Returns tt (preload cfg s1)
  else Returns tt s.

End Upgrade.

(** The object handed to [init]; [None] is a key that is not there.  For the
    two callbacks the value tells whether the key holds a function. *)
Record options : Type := {
  o_numImages : option Z;
  o_imgDir : option string;
  o_imgName : option string;
  o_imgFormat : option string;
  o_upgradeHighRes : option bool;
  o_imgDirBig : option string;
  o_buffer : option Z;
  o_preload : option bool;
  o_requestAnimationFramePolyfill : option bool;
  o_onPreloaded : option bool;
  o_onShowFrame : option bool
}.

(** The [defaults] object. *)
Record defaults_t : Type := {
  d_imgFormat : string;
  d_upgradeHighRes : bool;
  d_imgDirBig : string;
  d_buffer : Z;
  d_preload : bool;
  d_requestAnimationFramePolyfill : bool;
  d_onPreloaded : bool;
  d_onShowFrame : bool
}.

Definition defaults : defaults_t :=
  {| d_imgFormat := ".jpg"; d_upgradeHighRes := false; d_imgDirBig := EmptyString;
     d_buffer := 10; d_preload := false;
     d_requestAnimationFramePolyfill := true;
     d_onPreloaded := false; d_onShowFrame := false |}.

(** [!x] on the values a key can hold. *)
Definition falsyZ (x : option Z) : bool :=
  match x with None => true | Some z => z =? 0 end.

Definition falsyS (x : option string) : bool :=
  match x with
  | None => true
  | Some EmptyString => true
  | Some (String _ _) => false
  end.

Definition falsyB (x : option bool) : bool :=
  match x with None => true | Some b => negb b end.

Definition or_default {A : Type} (x : option A) (d : A) : A :=
  match x with Some v => v | None => d end.

(** [$.extend(defaults, options)], after the required keys were checked. *)
Definition extend (d : defaults_t) (o : options) : settings :=
  {| imgFormat := or_default (o_imgFormat o) (d_imgFormat d);
     upgradeHighRes := or_default (o_upgradeHighRes o) (d_upgradeHighRes d);
     imgDirBig := or_default (o_imgDirBig o) (d_imgDirBig d);
     buffer := or_default (o_buffer o) (d_buffer d);
     preload_flag := or_default (o_preload o) (d_preload d);
     requestAnimationFramePolyfill :=
       or_default (o_requestAnimationFramePolyfill o)
                  (d_requestAnimationFramePolyfill d);
     numImages := or_default (o_numImages o) 0;
     imgDir := or_default (o_imgDir o) EmptyString;
     imgName := or_default (o_imgName o) EmptyString;
     onPreloaded := or_default (o_onPreloaded o) (d_onPreloaded d);
     onShowFrame := or_default (o_onShowFrame o) (d_onShowFrame d) |}.

(** [$.extend] writes into its first argument: after [init] the [defaults]
    object holds the merged values, and a later [init] starts from them. *)
Definition as_defaults (cfg : settings) : defaults_t :=
  {| d_imgFormat := imgFormat cfg; d_upgradeHighRes := upgradeHighRes cfg;
     d_imgDirBig := imgDirBig cfg; d_buffer := buffer cfg;
     d_preload := preload_flag cfg;
     d_requestAnimationFramePolyfill := requestAnimationFramePolyfill cfg;
     d_onPreloaded := onPreloaded cfg; d_onShowFrame := onShowFrame cfg |}.

(** [.hide()] on [$('#upgradeWrapper')]: the first element with that id. *)
Fixpoint hide_span (l : list node) : list node :=
  match l with
  | [] => []
  | Span _ :: r => Span false :: r
  | c :: r => c :: hide_span r
  end.

(** The three statements of [init] that add the staging [span], bind
    [$upgradeWrapper] to the first element with its id, and hide that. *)
Definition addUpgradeWrapper (s : state) : state :=
  set_children (hide_span (children s ++ [Span true]))
    (set_upgradeWrapper (Some (or_default (upgradeWrapper s) [])) s).

(** [init.apply(this, [options])].  [this] names the host element, [opts] is
    [None] when the argument is not an object, [imagesLoaded] tells whether
    [$.fn.imagesLoaded] is there, [vp] is what the document answers while
    [init] runs, [d] is the [defaults] object. *)
Definition init (this : nat) (opts : option options) (imagesLoaded : bool)
    (vp : viewport) (d : defaults_t) (s : state) : outcome settings :=
  let s := set_this this (emit ConsoleLog s) in
  match opts with
  | None => Throws "frameAnimation: Required settings not supplied" s
  | Some o =>
      if falsyZ (o_numImages o) then
        Throws "frameAnimation: Required setting numImages not supplied" s
      else if falsyS (o_imgDir o) then
        Throws "frameAnimation: Required setting imgDir not supplied" s
      else if falsyS (o_imgName o) then
        Throws "frameAnimation: Required setting imgName not supplied" s
      else if negb (falsyB (o_upgradeHighRes o)) && falsyS (o_imgDirBig o) then
        Throws "frameAnimation: Setting upgradeHighRes set to true, but no imgDirBig supplied" s
      else if negb imagesLoaded then
        Throws "frameAnimation: Required plugin jquery.imagesloaded not found" s
      else
        let cfg := extend d o in
        let s := if requestAnimationFramePolyfill cfg
                 then emit InjectPolyfill s else s in
        let s := set_imgStrLen
                   (String.length (String_ (Int (numImages cfg)))) s in
        let s := set_currentImg (calculateCurrent cfg vp) s in
        let s := showFrameWhenReady cfg (currentImg s) s in
        let after_upgrade :=
          if negb (falsyB (o_upgradeHighRes o)) then
            upgradeFrame cfg (currentImg s) (addUpgradeWrapper s)
          else Returns tt s in
        match after_upgrade with
        | Throws m s => Throws m s
        | Returns _ s =>
            let s := if preload_flag cfg then preload cfg s else s in
            Returns cfg (emit OnScroll s)
        end
  end.

(** *** The [defaults] object

    [defaults] is a variable of the closure like the others, and
    [$.extend(defaults, options)] writes the merged settings into it. *)

(** The closure: the [defaults] object beside the other variables. *)
Record page : Type := {
  defaults_obj : defaults_t;
  vars : state
}.

(** The checks of [init] that come before [$.extend]. *)
Definition accepted (opts : option options) (imagesLoaded : bool) : bool :=
  match opts with
  | None => false
  | Some o =>
      negb (falsyZ (o_numImages o)) && negb (falsyS (o_imgDir o))
      && negb (falsyS (o_imgName o))
      && negb (negb (falsyB (o_upgradeHighRes o)) && falsyS (o_imgDirBig o))
      && imagesLoaded
  end.

(** [$(host).videoFrameAnimation(options)] on a page: [init] reads the
    [defaults] object of the closure, and once past its checks [$.extend] has
    overwritten that object with the merged settings, whether or not [init]
    throws later. *)
Definition init_on_page (this : nat) (opts : option options)
    (imagesLoaded : bool) (vp : viewport) (p : page)
  : outcome settings * page :=
  let r := init this opts imagesLoaded vp (defaults_obj p) (vars p) in
  (r,
   {| defaults_obj :=
        match opts with
        | Some o =>
            if accepted opts imagesLoaded
            then as_defaults (extend (defaults_obj p) o)
            else defaults_obj p
        | None => defaults_obj p
        end;
      vars := final r |}).

(** ** Runs *)

(** One invocation of a function of the plugin after [init]: by an event
    (scroll, animation frame, timer, load completion), through the public
    methods, or from another function of the plugin.  [CShowFrame f] is also
    the callback of [showFrameWhenReady], [CUpgradeLoaded f] that of
    [upgradeFrame]. *)
Inductive call : Type :=
| CPreload
| CPreloadNext (t : tier)
| COnImagePreloaded (i : Z) (t : tier)
| CScroll (vp : viewport)
| CAnimate (vp : viewport)
| CCheckForScroll
| CShowFrameWhenReady (f : num)
| CShowFrame (f : num)
| CBufferFromFrame (f : num)
| CUpgradeFrame (f : num)
| CUpgradeLoaded (f : num).

Definition exec (cfg : settings) (c : call) (s : state) : state :=
  match c with
  | CPreload => preload cfg s
  | CPreloadNext t => preloadNext cfg t s
  | COnImagePreloaded i t => onImagePreloaded (Int i) t s
  | CScroll vp => scroll cfg vp s
  | CAnimate vp => animate cfg vp s
  | CCheckForScroll => final (checkForScroll cfg s)
  | CShowFrameWhenReady f => showFrameWhenReady cfg f s
  | CShowFrame f => showFrame cfg f s
  | CBufferFromFrame f => bufferFromFrame cfg f s
  | CUpgradeFrame f => final (upgradeFrame cfg f s)
  | CUpgradeLoaded f => upgradeLoaded f s
  end.

Definition run (cfg : settings) (l : list call) (s : state) : state :=
  fold_left (fun st c => exec cfg c st) l s.

(** ** The array functions the script adds to [Array.prototype]

    An array is the list of its slots; a slot that reads [undefined] (a hole,
    or the value [undefined]) is [None].  Indices are integers. *)

Module ArrayPolyfill.

Section Remove.

Context {A : Type}.

(** [this.slice(start)] *)
Definition slice (start : Z) (l : list (option A)) : list (option A) :=
  let len := Z.of_nat (List.length l) in
  let k := if start <? 0 then Z.max (len + start) 0 else Z.min start len in
  skipn (Z.to_nat k) l.

(** [this.length = n] for [0 <= n < 2 ^ 32]: cut, or fill up with empty
    slots.  Any other [n] is a [RangeError], which [remove] tests for. *)
Definition set_length (n : nat) (l : list (option A)) : list (option A) :=
  firstn n l ++ repeat None (n - List.length l).

(** [to || from]: an absent [to] and [to = 0] give [from]. *)
Definition or_from (to : option Z) (from : Z) : Z :=
  match to with
  | None => from
  | Some t => if t =? 0 then from else t
  end.

(** [Array.prototype.remove(from, to)]: the array afterwards and the length
    [push] returns.  [None] is a [RangeError]: the length of an array is
    neither negative nor [2 ^ 32] or more, be it the length the function
    assigns or the one [push] arrives at.  A JavaScript array has fewer than
    [2 ^ 32] slots, so that such a length is always one that lengthens the
    array. *)
Definition remove (from : Z) (to : option Z) (l : list (option A))
  : option (list (option A) * Z) :=
  let len := Z.of_nat (List.length l) in
  let start := if or_from to from + 1 =? 0 then len else or_from to from + 1 in
  let rest := slice start l in
  let n := if from <? 0 then len + from else from in
  if (n <? 0) || ((len <=? n) && (2 ^ 32 <=? n)) then None
  else
    let l' := set_length (Z.to_nat n) l ++ rest in
    let len' := Z.of_nat (List.length l') in
    if (len <? len') && (2 ^ 32 <=? len') then None
    else Some (l', len').

End Remove.

(** The position an index names: a negative index counts from the end. *)
Definition position {A : Type} (l : list A) (i : Z) : Z :=
  if i <? 0 then Z.of_nat (List.length l) + i else i.

End ArrayPolyfill.

Import ArrayPolyfill.

(** The [indexOf] the script installs where arrays have none, on arrays of
    numbers.  The start index is a number of [num] or absent; [fuel] bounds
    the rounds of its loop. *)

Module IndexOf.

(** [from in this && this[from] === elt] for a number [elt]: an index that is
    not a position of the array names no slot. *)
Definition found (l : list (option num)) (elt : num) (from : num) : bool :=
  match from with
  | Int z =>
      if z <? 0 then false
      else match nth_error l (Z.to_nat z) with
           | Some (Some v) => strict_eq v elt
           | _ => false
           end
  | _ => false
  end.

(** The [for] loop of the replacement [indexOf], for at most [fuel] rounds;
    [None] when the loop is still running after them. *)
Fixpoint search (fuel : nat) (l : list (option num)) (len : Z) (elt : num)
    (from : num) : option num :=
  match fuel with
  | O => None
  | S k =>
      if lt from (Int len) then
        if found l elt from then Some from
        else search k l len elt (add from (Int 1))
      else Some (Int (-1))
  end.

(** [Number(arguments[1]) || 0] for an absent, integral, infinite or [NaN]
    second argument. *)
Definition from_argument (arg : option num) : num :=
  match arg with
  | None | Some NaN => Int 0
  | Some x => x
  end.

(** The [indexOf] the script installs where arrays have none.  [Math.ceil]
    and [Math.floor] leave the numbers of [num] as they are. *)
Definition indexOf (fuel : nat) (l : list (option num)) (elt : num)
    (arg : option num) : option num :=
  let len := Z.of_nat (List.length l) in
  let from := from_argument arg in
  let from := if lt from (Int 0) then add from (Int len) else from in
  search fuel l len elt from.

End IndexOf.

Import IndexOf.

(** ** The [requestAnimationFrame] replacement

    [window] as the properties the replacement reads and writes: a property
    holds a function or is falsy ([None]). *)

Module Polyfill.

Inductive fn : Type :=
| Host (name : string)
| TimerRequest
| TimerCancel.

Definition window : Type := string -> option fn.

(** [window[k] = v] *)
Definition assign (k : string) (v : option fn) (w : window) : window :=
  fun x => if String.eqb x k then v else w x.

(** [a || b] *)
Definition or_else (a b : option fn) : option fn :=
  match a with Some _ => a | None => b end.

Definition vendors : list string := ["ms"; "moz"; "webkit"; "o"]%string.

(** The [for] loop over the vendor prefixes [vs]. *)
Fixpoint vendor_loop (vs : list string) (w : window) : window :=
  match vs with
  | [] => w
  | v :: r =>
      match w "requestAnimationFrame"%string with
      | Some _ => w
      | None =>
          let w1 := assign "requestAnimationFrame"
                      (w (v ++ "RequestAnimationFrame")%string) w in
          let w2 := assign "cancelAnimationFrame"
                      (or_else
                         (w1 (v ++ "CancelAnimationFrame")%string)
                         (w1 (v ++ "CancelRequestAnimationFrame")%string))
                      w1 in
          vendor_loop r w2
      end
  end.

Definition injectRequestAnimationFolyfill (w : window) : window :=
  let w1 := vendor_loop vendors w in
  let w2 := match w1 "requestAnimationFrame"%string with
            | None => assign "requestAnimationFrame" (Some TimerRequest) w1
            | Some _ => w1
            end in
  match w2 "cancelAnimationFrame"%string with
  | None => assign "cancelAnimationFrame" (Some TimerCancel) w2
  | Some _ => w2
  end.

(** The timer-based [requestAnimationFrame], called at time [currTime] with
    [lastTime] as the closure holds it: the delay handed to [setTimeout], and
    the new [lastTime], which is also the time the callback is told. *)
Definition timerRequest (currTime lastTime : Z) : Z * Z :=
  let timeToCall := Z.max 0 (16 - (currTime - lastTime)) in
  (timeToCall, currTime + timeToCall).

(** The times at which the callbacks of successive calls are due. *)
Fixpoint due (lastTime : Z) (calls : list Z) : list Z :=
  match calls with
  | [] => []
  | currTime :: r =>
      let (timeToCall, lastTime') := timerRequest currTime lastTime in
      (currTime + timeToCall) :: due lastTime' r
  end.

(** Each time of [l] is at least 16 after the one before, [prev] first. *)
Fixpoint spaced (prev : Z) (l : list Z) : Prop :=
  match l with
  | [] => True
  | t :: r => prev + 16 <= t /\ spaced t r
  end.

(** The first of the prefixes [vs] under which [w] has a
    [RequestAnimationFrame]. *)
Fixpoint first_vendor (vs : list string) (w : window) : option fn :=
  match vs with
  | [] => None
  | v :: r => or_else (w (v ++ "RequestAnimationFrame")%string)
                      (first_vendor r w)
  end.

(** The vendor names under [v] are not the two names the loop assigns. *)
Definition prefixed (v : string) : Prop :=
  String.eqb (v ++ "RequestAnimationFrame") "requestAnimationFrame" = false /\
  String.eqb (v ++ "RequestAnimationFrame") "cancelAnimationFrame" = false.

End Polyfill.

Import Polyfill.

(** ** Vocabulary of the properties *)

(** [x] is a frame of the clip: an integer in [1, numImages]. *)
Definition in_range (cfg : settings) (x : num) : Prop :=
  exists z, x = Int z /\ 1 <= z <= numImages cfg.

(** The scroll offset lies within the bounds of a document that is taller
    than the window. *)
Definition scrollable (vp : viewport) : Prop :=
  windowHeight vp < documentHeight vp /\
  0 <= scrollTop vp <= documentHeight vp - windowHeight vp.

(** The scroll offset lies within the bounds of the document. *)
Definition within_bounds (vp : viewport) : Prop :=
  0 <= scrollTop vp <= documentHeight vp - windowHeight vp.

(** [x] is an integer. *)
Definition integral (x : num) : Prop := exists z, x = Int z.

(** An integer that takes at most 53 bits, which JavaScript holds exactly. *)
Definition safe (z : Z) : Prop := 0 <= z < 2 ^ 53.

(** The order of the extended real line; [NaN] compares with nothing. *)
Definition rle (a b : real) : Prop :=
  match a, b with
  | RNaN, _ | _, RNaN => False
  | RInf true, _ => True
  | _, RInf false => True
  | Rat p, Rat q => (p <= q)%Q
  | _, _ => False
  end.

(** The documents a call looks at satisfy [okV], the frames it is given
    satisfy [okF]; [okU] tells whether the callback of [upgradeFrame] may
    run. *)
Definition call_ok (okV : viewport -> Prop) (okF : num -> Prop)
    (okU : Prop) (c : call) : Prop :=
  match c with
  | CScroll vp | CAnimate vp => okV vp
  | CShowFrameWhenReady f | CShowFrame f | CBufferFromFrame f
  | CUpgradeFrame f => okF f
  | CUpgradeLoaded _ => okU
  | _ => True
  end.

(** An event that starts a fetch from [preloadNext]. *)
Definition is_Fetch (e : event) : bool :=
  match e with Fetch _ _ _ => true | _ => false end.

(** Frames of the attached images, in document order. *)
Definition attached (s : state) : list num :=
  map frame (imgs (children s)).

(** Identity and frame of a child, if it is an image. *)
Definition node_key (c : node) : option (nat * num) :=
  match c with
  | Img el => Some (id el, frame el)
  | Span _ => None
  end.

(** [count] consecutive integers from [lo]. *)
Fixpoint zrange (lo : Z) (count : nat) : list Z :=
  match count with
  | O => []
  | S k => lo :: zrange (lo + 1) k
  end.

(** Number of fetches of frame [i] at tier [t] in a trace. *)
Definition is_fetch (t : tier) (i : Z) (e : event) : bool :=
  match e, t with
  | Fetch Low j _, Low | Fetch High j _, High => j =? i
  | _, _ => false
  end.

Definition fetches (t : tier) (i : Z) (tr : list event) : nat :=
  List.length (filter (is_fetch t i) tr).

(** Number of visible images. *)
Definition visible_count (s : state) : nat :=
  List.length (filter visible (imgs (children s))).

(** Number of times the high-resolution image of frame [f] was staged. *)
Definition is_staging (f : num) (e : event) : bool :=
  match e with UpgradeImagesLoaded g => same f g | _ => false end.

Definition stagings (f : num) (tr : list event) : nat :=
  List.length (filter (is_staging f) tr).

(** Number of attached images of frame [f] that are tagged upgraded. *)
Definition upgraded_count (f : num) (s : state) : nat :=
  List.length (filter upgraded (with_frame f (children s))).


(** The window the loop of [bufferFromFrame] walks. *)
Definition loop_window (cfg : settings) (f g : Z) : Prop :=
  f - buffer cfg <= g < f + buffer cfg /\ 1 <= g <= numImages cfg.

(** [k] is the number of decimal digits of [n]. *)
Definition has_digits (n : Z) (k : nat) : Prop :=
  10 ^ (Z.of_nat k - 1) <= n < 10 ^ Z.of_nat k.

(** What a relation must satisfy to hold across every function: it is
    reflexive and transitive and holds for each elementary change.  Outside
    [upgradeLoaded] a change of the display surface is always a removal or a
    change of visibility, which [okC] relates, or the addition of a hidden
    image for a frame that has none.  [okV] and [okF] restrict the documents
    and frames the changes are asked for; [okU] tells whether the relation
    holds across the replacement [upgradeLoaded] makes. *)
Record closed (cfg : settings) (P : state -> state -> Prop)
    (okC : list node -> list node -> Prop)
    (okV : viewport -> Prop) (okF : num -> Prop) (okU : Prop) : Prop := {
  c_refl :
    forall s, P s s;
  c_trans :
    forall s1 s2 s3, P s1 s2 -> P s2 s3 -> P s1 s3;
  c_children :
    forall v s, okC (children s) v -> P s (set_children v s);
  c_filter :
    forall p l, okC l (filter p l);
  c_relabel :
    forall g l,
      (forall c, node_key (g c) = node_key c) -> okC l (map g l);
  c_append :
    forall el s,
      with_frame (frame el) (children s) = [] -> visible el = false ->
      P s (append el s);
  c_replaced :
    forall v n s, okU -> P s (set_nextId n (set_children v s));
  c_markBig :
    forall f s, P s (markBigAsPreloaded f s);
  c_buffering :
    forall v s, P s (set_buffering v s);
  c_animating :
    forall v s, P s (set_animating v s);
  c_lastCurrentImg :
    forall v s, P s (set_lastCurrentImg v s);
  c_frame :
    forall v s, P s (set_frame v s);
  c_upgradeWrapper :
    forall v s, v <> None -> P s (set_upgradeWrapper v s);
  c_allPreloaded :
    forall s, P s (set_allPreloaded true s);
  c_currentImg :
    forall vp s, okV vp -> P s (set_currentImg (calculateCurrent cfg vp) s);
  c_emit :
    forall e s, is_Fetch e = false -> P s (emit e s);
  c_mark :
    forall f s, okF f -> P s (markAsPreloaded f s);
  c_fetch :
    forall t i url s,
      includes (marked t s) (Int i) = false ->
      P s (emit (Fetch t i url) (onImagePreloaded (Int i) t s));
  c_loaded :
    forall i t s, P s (onImagePreloaded (Int i) t s);
  c_okF_add :
    forall f i, okF f -> okF (add f (Int i));
  c_okF_current :
    forall vp, okV vp -> okF (calculateCurrent cfg vp)
}.

(** Relations between the state before and after a function. *)

Definition keeps_currentImg (s s' : state) : Prop :=
  currentImg s' = currentImg s.

Definition keeps_range (cfg : settings) (s s' : state) : Prop :=
  in_range cfg (currentImg s) -> in_range cfg (currentImg s').

Definition no_document (vp : viewport) : Prop := False.

Definition any_frame (f : num) : Prop := True.

Definition any_change (l l' : list node) : Prop := True.

(** Everything but the preload bookkeeping and the trace is as before. *)
Definition quiet (s s' : state) : Prop :=
  this_ s' = this_ s /\ currentImg s' = currentImg s /\
  imgStrLen s' = imgStrLen s /\ animating s' = animating s /\
  buffering s' = buffering s /\ lastCurrentImg s' = lastCurrentImg s /\
  upgradeWrapper s' = upgradeWrapper s /\ frame_ s' = frame_ s /\
  children s' = children s.

(** The images [bufferFromFrame] keeps. *)
Definition kept (cfg : settings) (fr : num) (l : list node) : list node :=
  filter (keep cfg fr) l.

(** The test of the loop of [bufferFromFrame] for frame [g], against the
    images [l]. *)
Definition wanted (cfg : settings) (l : list node) (g : Z) : bool :=
  (List.length (with_frame (Int g) l) =? 0)%nat
  && gt (Int g) (Int 0) && le (Int g) (Int (numImages cfg)).

(** The frames the loop of [bufferFromFrame] adds around [f] to the images
    [l], in order. *)
Definition fresh (cfg : settings) (f : Z) (l : list node) : list Z :=
  filter (wanted cfg l)
         (zrange (f - buffer cfg) (Z.to_nat (buffer cfg - - buffer cfg))).

(** The loop runs: fewer than [2 * buffer] images are left. *)
Definition room (cfg : settings) (l : list node) : bool :=
  Z.of_nat (List.length (imgs l)) <? buffer cfg * 2.

Definition any_document (vp : viewport) : Prop := True.

(** How the fetches of frame [i] at tier [t] and its mark evolve: a marked
    frame stays marked and is not fetched; an unmarked frame is fetched at
    most once, and is marked by then. *)
Definition fetch_rel (t : tier) (i : Z) (s s' : state) : Prop :=
  (includes (marked t s) (Int i) = true ->
   includes (marked t s') (Int i) = true /\
   fetches t i (trace s') = fetches t i (trace s)) /\
  (includes (marked t s) (Int i) = false ->
   fetches t i (trace s') = fetches t i (trace s) \/
   (fetches t i (trace s') = S (fetches t i (trace s)) /\
    includes (marked t s') (Int i) = true)).

(** Number of times frame index [z] occurs in an array. *)
Definition occurrences (z : Z) (l : list num) : nat :=
  List.length (filter (strict_eq (Int z)) l).

(** No frame index occurs twice. *)
Definition duplicate_free (l : list num) : Prop :=
  forall z, (occurrences z l <= 1)%nat.

Definition keeps_duplicate_free (s s' : state) : Prop :=
  duplicate_free (preloaded s) /\ duplicate_free (preloadedBig s) ->
  duplicate_free (preloaded s') /\ duplicate_free (preloadedBig s').

(** No two attached images show the same frame. *)
Definition distinct_frames (l : list node) : Prop :=
  NoDup (map frame (imgs l)).

Definition keeps_distinct (l l' : list node) : Prop :=
  distinct_frames l -> distinct_frames l'.

Definition keeps_distinct_frames (s s' : state) : Prop :=
  keeps_distinct (children s) (children s').

(** The trace only grows. *)
Definition extends (s s' : state) : Prop :=
  exists ev, trace s' = trace s ++ ev.

(** What [showFrame] makes of the images before it turns to the buffer:
    the image of frame [fr] shown, every other image hidden. *)
Definition display (fr : num) (l : list node) : list node :=
  map (fun c => show_frame fr (hide_node c)) l.

(** A key is missing or holds a falsy value: [0] or the empty string. *)
Definition falsy_number (x : option Z) : Prop := x = None \/ x = Some 0.

Definition falsy_string (x : option string) : Prop :=
  x = None \/ x = Some EmptyString.

(** The calls [init] rejects. *)
Definition rejected (opts : option options) (imagesLoaded : bool) : Prop :=
  match opts with
  | None => True
  | Some o =>
      falsy_number (o_numImages o) \/ falsy_string (o_imgDir o) \/
      falsy_string (o_imgName o) \/
      (o_upgradeHighRes o = Some true /\ falsy_string (o_imgDirBig o)) \/
      imagesLoaded = false
  end.

(** The calls the specification has [init] reject: a required key is absent,
    [upgradeHighRes] is set without [imgDirBig], or the image-load detector is
    missing. *)
Definition rejected_as_specified (opts : option options)
    (imagesLoaded : bool) : Prop :=
  match opts with
  | None => True
  | Some o =>
      o_numImages o = None \/ o_imgDir o = None \/ o_imgName o = None \/
      (o_upgradeHighRes o = Some true /\ o_imgDirBig o = None) \/
      imagesLoaded = false
  end.

(** The staging [span] stays. *)
Definition keeps_wrapper (s s' : state) : Prop :=
  upgradeWrapper s <> None -> upgradeWrapper s' <> None.

(** [k] characters ["0"]. *)
Fixpoint zeros (k : nat) : string :=
  match k with
  | O => EmptyString
  | S j => String "0" (zeros j)
  end.

Definition keeps_imgStrLen (s s' : state) : Prop :=
  imgStrLen s' = imgStrLen s.

(** The images have distinct [id]s, all below [bound]. *)
Definition ids_ok_list (bound : nat) (l : list node) : Prop :=
  NoDup (map id (imgs l)) /\
  Forall (fun i => (i < bound)%nat) (map id (imgs l)).

Definition ids_ok (s : state) : Prop := ids_ok_list (nextId s) (children s).

Definition keeps_ids_list (l l' : list node) : Prop :=
  forall bound, ids_ok_list bound l -> ids_ok_list bound l'.

Definition keeps_ids (s s' : state) : Prop := ids_ok s -> ids_ok s'.


(** The number a string of decimal digits writes, read from the left on top
    of [acc]. *)
Fixpoint read (acc : Z) (str : string) : Z :=
  match str with
  | EmptyString => acc
  | String c r => read (10 * acc + (Z.of_nat (nat_of_ascii c) - 48)) r
  end.

(** What showing and buffering a frame leave alone: the scroll bookkeeping,
    the current frame and the upgrade variables. *)
Definition backstage (s s' : state) : Prop :=
  this_ s' = this_ s /\ currentImg s' = currentImg s /\
  imgStrLen s' = imgStrLen s /\ animating s' = animating s /\
  lastCurrentImg s' = lastCurrentImg s /\
  upgradeWrapper s' = upgradeWrapper s /\ frame_ s' = frame_ s.

(** Number of calls of [settings.onPreloaded] so far. *)
Definition is_OnPreloaded (e : event) : bool :=
  match e with OnPreloaded => true | _ => false end.

Definition onPreloaded_calls (s : state) : nat :=
  List.length (filter is_OnPreloaded (trace s)).

(** [onPreloaded] was called at most once, and not at all while
    [allPreloaded] is unset. *)
Definition once (s : state) : Prop :=
  (onPreloaded_calls s <= if allPreloaded s then 1 else 0)%nat.

(** Neither [allPreloaded] nor the number of calls of [onPreloaded] has
    changed. *)
Definition unheard (s s' : state) : Prop :=
  allPreloaded s' = allPreloaded s /\
  onPreloaded_calls s' = onPreloaded_calls s.

(** The image [init] attaches for the frame under the offset. *)
Definition first_image (cfg : settings) (vp : viewport) : img :=
  {| id := 1;
     src := (imgDir cfg ++ imgName cfg
             ++ zerofill (String.length (String_ (Int (numImages cfg))))
                  (calculateCurrent cfg vp) None
             ++ imgFormat cfg)%string;
     frame := calculateCurrent cfg vp; upgraded := false; visible := false |}.

(** Everything but [allPreloaded] and the trace is the same. *)
Definition same_surface (s s' : state) : Prop :=
  children s' = children s /\ buffering s' = buffering s /\
  preloaded s' = preloaded s /\ preloadedBig s' = preloadedBig s /\
  upgradeWrapper s' = upgradeWrapper s /\ frame_ s' = frame_ s /\
  filter is_Fetch (trace s') = filter is_Fetch (trace s).

(** The low-resolution marks are frames of the clip, none twice, and
    [allPreloaded] is set only when there are at least [numImages] of them. *)
Definition truthful (cfg : settings) (s : state) : Prop :=
  NoDup (preloaded s) /\ Forall (in_range cfg) (preloaded s) /\
  (allPreloaded s = true ->
   numImages cfg <= Z.of_nat (List.length (preloaded s))).

(** The low-resolution marks and [allPreloaded] are as before. *)
Definition same_marks (s s' : state) : Prop :=
  preloaded s' = preloaded s /\ allPreloaded s' = allPreloaded s.

(** A call that hands the plugin documents taller than the window with
    offsets within bounds, and frames of the clip. *)
Definition in_clip (cfg : settings) (c : call) : Prop :=
  match c with
  | COnImagePreloaded i _ => 1 <= i <= numImages cfg
  | _ => call_ok scrollable (in_range cfg) True c
  end.

(** A sample configuration: a clip of [n] frames with buffer radius [b]. *)
Definition sample (n b : Z) (up : bool) : settings :=
  {| imgFormat := ".jpg"; upgradeHighRes := up; imgDirBig := "big/";
     buffer := b; preload_flag := true;
     requestAnimationFramePolyfill := true; numImages := n;
     imgDir := "img/"; imgName := "clip-";
     onPreloaded := true; onShowFrame := true |}.

Definition sample_options (n : Z) (dir : string) : options :=
  {| o_numImages := Some n; o_imgDir := Some dir;
     o_imgName := Some "clip-"%string;
     o_imgFormat := None; o_upgradeHighRes := None; o_imgDirBig := None;
     o_buffer := None; o_preload := None;
     o_requestAnimationFramePolyfill := None;
     o_onPreloaded := None; o_onShowFrame := None |}.

Definition at_offset (top doc win : Z) : viewport :=
  {| scrollTop := top; documentHeight := doc; windowHeight := win |}.

(** Options that ask for the high-resolution upgrade, and two scroll offsets
    of a document 1000 pixels taller than the window: at 100 frames they give
    frames 5 and 7. *)
Definition upgrade_options : options :=
  {| o_numImages := Some 100; o_imgDir := Some "img/"%string;
     o_imgName := Some "clip-"%string;
     o_imgFormat := None; o_upgradeHighRes := Some true;
     o_imgDirBig := Some "big/"%string;
     o_buffer := None; o_preload := None;
     o_requestAnimationFramePolyfill := None;
     o_onPreloaded := None; o_onShowFrame := None |}.

Definition at_frame_5 : viewport := at_offset 50 1600 600.

Definition at_frame_7 : viewport := at_offset 65 1600 600.

(** A session: the page opens at frame 5, whose image loads and is upgraded;
    the user scrolls to frame 7 and rests, so that the upgrade of frame 7 is
    staged; scrolls back to frame 5 and rests again before that load has
    finished; then the staged load finishes. *)
Definition session : list call :=
  [CShowFrame (Int 5); CUpgradeLoaded (Int 5);
   CScroll at_frame_7; CAnimate at_frame_7; CCheckForScroll;
   CScroll at_frame_5; CAnimate at_frame_5; CCheckForScroll;
   CUpgradeLoaded (Int 7)].

Definition at_frame_3 : viewport := at_offset 30 1600 600.

(** The user scrolls to an offset and rests: the scroll event, the animation
    frame after it, and the debounce timer. *)
Definition settle (vp : viewport) : list call :=
  [CScroll vp; CAnimate vp; CCheckForScroll].

(** A session on a page that opens at frame 3: the first image loads; the
    user rests at frame 7, and the staged image of frame 7 loads; the user
    rests at frame 5, so that the upgrade of frame 5 is staged, and rests at
    frame 7 again before that load has finished; then the staged load
    finishes. *)
Definition session_back_and_forth : list call :=
  [CShowFrame (Int 3)] ++ settle at_frame_7 ++ [CUpgradeLoaded (Int 7)]
  ++ settle at_frame_5 ++ settle at_frame_7 ++ [CUpgradeLoaded (Int 5)].


(** Options that ask for preloading, for a clip of [n] frames. *)
Definition preloading_options (n : Z) : options :=
  {| o_numImages := Some n; o_imgDir := Some "img/"%string;
     o_imgName := Some "clip-"%string;
     o_imgFormat := None; o_upgradeHighRes := None; o_imgDirBig := None;
     o_buffer := None; o_preload := Some true;
     o_requestAnimationFramePolyfill := None;
     o_onPreloaded := Some true; o_onShowFrame := None |}.

(** * Properties *)

(** ** Rounding to binary64 *)

Section Binary64.

Local Open Scope Q_scope.

Lemma pow2_pos (k : Z) : 0 < pow2 k.
Proof. apply Qpower_0_lt. reflexivity. Qed.

Lemma pow2_le (a b : Z) : (a <= b)%Z -> pow2 a <= pow2 b.
Proof. intros H. apply Qpower_le_compat_l; [exact H|discriminate]. Qed.

Lemma pow2_lt_inv (a b : Z) : pow2 a < pow2 b -> (a < b)%Z.
Proof. intros H. apply (Qpower_lt_compat_l_inv 2); [exact H|reflexivity]. Qed.

Lemma pow2_add (a b : Z) : pow2 (a + b) == pow2 a * pow2 b.
Proof. apply Qpower_plus. discriminate. Qed.

Lemma pow2_int (k : Z) : (0 <= k)%Z -> pow2 k == inject_Z (2 ^ k).
Proof. intros H. symmetry. apply (Zpower_Qpower 2 k H). Qed.

Lemma rne_bounds (t : Q) :
  t - (1 # 2) <= inject_Z (rne t) <= t + (1 # 2).
Proof.
  unfold rne. pose proof (Qfloor_le t) as Hlo.
  pose proof (Qlt_floor t) as Hhi. rewrite inject_Z_plus in Hhi.
  change (inject_Z 1) with 1 in Hhi.
  destruct (Qcompare_spec (t - inject_Z (Qfloor t)) (1 # 2)) as [H|H|H].
  - destruct (Z.even (Qfloor t)); [|rewrite inject_Z_plus;
      change (inject_Z 1) with 1]; lra.
  - lra.
  - rewrite inject_Z_plus. change (inject_Z 1) with 1. lra.
Qed.

Lemma rne_comp (t t' : Q) : t == t' -> rne t = rne t'.
Proof.
  intros H. unfold rne. rewrite (Qfloor_comp t t' H).
  assert (E : (t - inject_Z (Qfloor t') ?= 1 # 2)
              = (t' - inject_Z (Qfloor t') ?= 1 # 2)).
  { apply Qcompare_comp; [rewrite H|]; reflexivity. }
  rewrite E. reflexivity.
Qed.

Lemma rne_int (z : Z) : rne (inject_Z z) = z.
Proof.
  unfold rne. rewrite Qfloor_Z.
  assert (E : (inject_Z z - inject_Z z ?= 1 # 2) = Lt).
  { apply (proj1 (Qlt_alt _ _)). lra. }
  rewrite E. reflexivity.
Qed.

Lemma rne_mono (t t' : Q) : t <= t' -> (rne t <= rne t')%Z.
Proof.
  intros H. apply Qle_lteq in H. destruct H as [H|H].
  - pose proof (rne_bounds t) as [_ H1].
    pose proof (rne_bounds t') as [H2 _].
    assert (H3 : inject_Z (rne t) < inject_Z (rne t' + 1)).
    { rewrite inject_Z_plus. change (inject_Z 1) with 1. lra. }
    rewrite <- Zlt_Qlt in H3. lia.
  - rewrite (rne_comp t t' H). lia.
Qed.

Lemma ilog2_spec (x : Q) :
  0 < x -> pow2 (ilog2 x) <= x /\ x < pow2 (ilog2 x + 1).
Proof.
  intros Hx. destruct x as [a b]. unfold ilog2. cbn [Qnum Qden].
  assert (Ha : (0 < a)%Z) by (unfold Qlt in Hx; simpl in Hx; lia).
  set (la := Z.log2 a). set (lb := Z.log2 (Z.pos b)).
  destruct (Z.log2_spec a Ha) as [Ha1 Ha2]. fold la in Ha1, Ha2.
  destruct (Z.log2_spec (Z.pos b) eq_refl) as [Hb1 Hb2].
  fold lb in Hb1, Hb2.
  assert (Hla : (0 <= la)%Z) by apply Z.log2_nonneg.
  assert (Hlb : (0 <= lb)%Z) by apply Z.log2_nonneg.
  assert (Hx' : a # b == inject_Z a / inject_Z (Z.pos b))
    by apply Qmake_Qdiv.
  assert (Hbpos : 0 < inject_Z (Z.pos b)) by reflexivity.
  assert (Hab : (a # b) * inject_Z (Z.pos b) == inject_Z a).
  { rewrite Hx'. field. discriminate. }
  assert (Hup : a # b < pow2 (la - lb + 1)).
  { assert (E : pow2 (la - lb + 1) * pow2 lb == pow2 (la + 1)).
    { rewrite <- pow2_add. apply Qpower_comp; [reflexivity|lia]. }
    rewrite (pow2_int lb Hlb) in E.
    rewrite (pow2_int (la + 1)) in E by lia.
    pose proof (pow2_pos (la - lb + 1)) as Hp.
    rewrite Zlt_Qlt in Ha2. rewrite Zle_Qle in Hb1.
    change (Z.succ la) with (la + 1)%Z in Ha2.
    set (P := pow2 (la - lb + 1)) in *.
    set (A := inject_Z (2 ^ (la + 1))) in *.
    set (B := inject_Z (2 ^ lb)) in *.
    set (X := a # b) in *. set (b' := inject_Z (Z.pos b)) in *.
    set (a' := inject_Z a) in *.
    assert (HB : 0 < B) by (unfold B; change 0 with (inject_Z 0); rewrite <- Zlt_Qlt; lia).
    nra. }
  assert (Hlow : pow2 (la - lb - 1) < a # b).
  { assert (E : pow2 (la - lb - 1) * pow2 (lb + 1) == pow2 la).
    { rewrite <- pow2_add. apply Qpower_comp; [reflexivity|lia]. }
    rewrite (pow2_int la Hla) in E.
    rewrite (pow2_int (lb + 1)) in E by lia.
    pose proof (pow2_pos (la - lb - 1)) as Hp.
    rewrite Zle_Qle in Ha1. rewrite Zlt_Qlt in Hb2.
    change (Z.succ lb) with (lb + 1)%Z in Hb2.
    set (P := pow2 (la - lb - 1)) in *.
    set (A := inject_Z (2 ^ la)) in *.
    set (B := inject_Z (2 ^ (lb + 1))) in *.
    set (X := a # b) in *. set (b' := inject_Z (Z.pos b)) in *.
    set (a' := inject_Z a) in *.
    nra. }
  destruct (Qle_bool (pow2 (la - lb)) (a # b)) eqn:E.
  - apply Qle_bool_iff in E. split; [exact E|exact Hup].
  - split; [apply Qlt_le_weak; exact Hlow|].
    replace (la - lb - 1 + 1)%Z with (la - lb)%Z by lia.
    apply Qnot_le_lt. intros H. apply Qle_bool_iff in H. congruence.
Qed.

Lemma ilog2_unique (x : Q) (e : Z) :
  pow2 e <= x -> x < pow2 (e + 1) -> ilog2 x = e.
Proof.
  intros H1 H2.
  assert (Hx : 0 < x) by (pose proof (pow2_pos e); lra).
  destruct (ilog2_spec x Hx) as [H3 H4].
  assert (ilog2 x < e + 1)%Z by (apply pow2_lt_inv; lra).
  assert (e < ilog2 x + 1)%Z by (apply pow2_lt_inv; lra).
  lia.
Qed.

Lemma ilog2_mono (x y : Q) : 0 < x -> x <= y -> (ilog2 x <= ilog2 y)%Z.
Proof.
  intros Hx Hxy.
  destruct (ilog2_spec x Hx) as [H1 _].
  destruct (ilog2_spec y ltac:(lra)) as [_ H2].
  assert (ilog2 x < ilog2 y + 1)%Z by (apply pow2_lt_inv; lra).
  lia.
Qed.

Lemma pow2_split (k u : Z) : pow2 k == pow2 (k - u) * pow2 u.
Proof. rewrite <- pow2_add. apply Qpower_comp; [reflexivity|lia]. Qed.

(** A power of two that is a multiple of the spacing is a fixed point. *)
Lemma rne_pow2 (k u : Z) :
  (u <= k)%Z -> inject_Z (rne (pow2 k / pow2 u)) * pow2 u == pow2 k.
Proof.
  intros H.
  assert (E : pow2 k / pow2 u == inject_Z (2 ^ (k - u))).
  { rewrite <- pow2_int by lia. rewrite (pow2_split k u). field.
    pose proof (pow2_pos u). lra. }
  rewrite (rne_comp _ _ E), rne_int, <- pow2_int by lia.
  symmetry. apply pow2_split.
Qed.

Lemma scaled_mono (x y : Q) (u : Z) :
  x <= y ->
  inject_Z (rne (x / pow2 u)) * pow2 u
  <= inject_Z (rne (y / pow2 u)) * pow2 u.
Proof.
  intros H. pose proof (pow2_pos u) as Hu.
  apply Qmult_le_compat_r; [|lra].
  rewrite <- Zle_Qle. apply rne_mono.
  apply Qle_shift_div_l; [exact Hu|].
  assert (E : x / pow2 u * pow2 u == x) by (field; lra).
  rewrite E. exact H.
Qed.

Lemma grid_le (x : Q) (k u : Z) :
  (u <= k)%Z -> x <= pow2 k ->
  inject_Z (rne (x / pow2 u)) * pow2 u <= pow2 k.
Proof.
  intros Hu Hx. rewrite <- (rne_pow2 k u Hu). apply scaled_mono. exact Hx.
Qed.

Lemma grid_ge (x : Q) (k u : Z) :
  (u <= k)%Z -> pow2 k <= x ->
  pow2 k <= inject_Z (rne (x / pow2 u)) * pow2 u.
Proof.
  intros Hu Hx. rewrite <- (rne_pow2 k u Hu) at 1. apply scaled_mono.
  exact Hx.
Qed.

Lemma nearest_mono (x y : Q) : 0 < x -> x <= y -> nearest x <= nearest y.
Proof.
  intros Hx Hxy. unfold nearest.
  pose proof (ilog2_mono x y Hx Hxy) as He.
  set (ux := Z.max (ilog2 x - 52) (-1074)).
  set (uy := Z.max (ilog2 y - 52) (-1074)).
  destruct (Z.eq_dec ux uy) as [E|E].
  - rewrite E. apply scaled_mono. exact Hxy.
  - assert (Hlt : (ux < ilog2 y - 52)%Z) by lia.
    assert (Huy : uy = (ilog2 y - 52)%Z) by lia.
    destruct (ilog2_spec x Hx) as [_ H1].
    destruct (ilog2_spec y ltac:(lra)) as [H2 _].
    apply Qle_trans with (pow2 (ilog2 y)).
    + apply grid_le; [lia|].
      apply Qle_trans with (pow2 (ilog2 x + 1)); [lra|].
      apply pow2_le. lia.
    + apply grid_ge; [lia|exact H2].
Qed.

Lemma nearest_nonneg (x : Q) : 0 <= x -> 0 <= nearest x.
Proof.
  intros Hx. unfold nearest.
  set (u := Z.max (ilog2 x - 52) (-1074)).
  pose proof (pow2_pos u) as Hu.
  apply Qmult_le_0_compat; [|lra].
  change 0 with (inject_Z 0). rewrite <- Zle_Qle.
  rewrite <- (rne_int 0). apply rne_mono.
  apply Qle_shift_div_l; [exact Hu|]. change (inject_Z 0) with 0. lra.
Qed.

Lemma round_pos_mono (x y : Q) :
  0 < x -> x <= y -> rle (round_pos x) (round_pos y).
Proof.
  intros Hx Hxy. pose proof (nearest_mono x y Hx Hxy) as H.
  unfold round_pos.
  destruct (Qle_bool (pow2 1024) (nearest y)) eqn:Ey.
  - destruct (Qle_bool (pow2 1024) (nearest x)); exact I.
  - destruct (Qle_bool (pow2 1024) (nearest x)) eqn:Ex.
    + apply Qle_bool_iff in Ex.
      assert (Hy : Qle_bool (pow2 1024) (nearest y) = true)
        by (apply Qle_bool_iff; lra).
      congruence.
    + cbn [rle]. rewrite !Qred_correct. exact H.
Qed.

Lemma round_pos_nonneg (x : Q) : 0 <= x -> rle (Rat 0) (round_pos x).
Proof.
  intros Hx. unfold round_pos.
  destruct (Qle_bool _ _); [exact I|].
  cbn [rle]. rewrite Qred_correct. apply nearest_nonneg. exact Hx.
Qed.

Lemma rle_opp (a b : real) : rle a b -> rle (opp b) (opp a).
Proof.
  destruct a as [|[|]|p], b as [|[|]|q]; cbn; try tauto. intros H. lra.
Qed.

Lemma rle_trans (a b c : real) : rle a b -> rle b c -> rle a c.
Proof.
  destruct a as [|[|]|p], b as [|[|]|q], c as [|[|]|r]; cbn; try tauto.
  intros H1 H2. lra.
Qed.

Lemma fl_comp (x y : Q) : x == y -> fl x = fl y.
Proof. intros H. unfold fl. rewrite (Qred_complete x y H). reflexivity. Qed.

Lemma fl_pos (x : Q) : 0 < x -> fl x = round_pos (Qred x).
Proof.
  intros H. unfold fl. cbv zeta.
  assert (E : (Qred x ?= 0) = Gt).
  { apply Qgt_alt. rewrite Qred_correct. exact H. }
  rewrite E. reflexivity.
Qed.

Lemma fl_neg (x : Q) : x < 0 -> fl x = opp (round_pos (- Qred x)).
Proof.
  intros H. unfold fl. cbv zeta.
  assert (E : (Qred x ?= 0) = Lt).
  { apply Qlt_alt. rewrite Qred_correct. exact H. }
  rewrite E. reflexivity.
Qed.

Lemma fl_zero (x : Q) : x == 0 -> fl x = Rat 0.
Proof. intros H. rewrite (fl_comp x 0 H). reflexivity. Qed.

Lemma fl_mono (x y : Q) : x <= y -> rle (fl x) (fl y).
Proof.
  intros H.
  destruct (Qlt_le_dec 0 x) as [Hx|Hx].
  - rewrite (fl_pos x Hx), (fl_pos y) by lra.
    apply round_pos_mono; rewrite !Qred_correct; assumption.
  - destruct (Qlt_le_dec x 0) as [Hx'|Hx'].
    + rewrite (fl_neg x Hx').
      destruct (Qlt_le_dec y 0) as [Hy|Hy].
      * rewrite (fl_neg y Hy). apply rle_opp.
        apply round_pos_mono; rewrite !Qred_correct; lra.
      * apply rle_trans with (Rat 0).
        -- change (Rat 0) with (opp (Rat 0)). apply rle_opp.
           apply round_pos_nonneg. rewrite Qred_correct. lra.
        -- destruct (Qlt_le_dec 0 y) as [Hy'|Hy'].
           ++ rewrite (fl_pos y Hy'). apply round_pos_nonneg.
              rewrite Qred_correct. lra.
           ++ rewrite (fl_zero y) by lra. cbn. lra.
    + rewrite (fl_zero x) by lra.
      destruct (Qlt_le_dec 0 y) as [Hy'|Hy'].
      * rewrite (fl_pos y Hy'). apply round_pos_nonneg.
        rewrite Qred_correct. lra.
      * rewrite (fl_zero y) by lra. cbn. lra.
Qed.

Lemma Qred_inject_Z (z : Z) : Qred (inject_Z z) = inject_Z z.
Proof.
  unfold Qred, inject_Z.
  pose proof (Z.ggcd_gcd z 1) as Hg.
  pose proof (Z.ggcd_correct_divisors z 1) as Hd.
  destruct (Z.ggcd z 1) as [g [aa bb]]. cbn [fst snd] in *.
  rewrite Z.gcd_1_r in Hg. subst g. destruct Hd as [Ha Hb].
  replace aa with z by lia. replace bb with 1%Z by lia. reflexivity.
Qed.

(** What [fl] returns is in lowest terms. *)
Lemma fl_reduced (x q : Q) : fl x = Rat q -> Qred q = q.
Proof.
  unfold fl, round_pos. cbv zeta.
  destruct (Qred x ?= 0).
  - intros H. injection H as <-. reflexivity.
  - destruct (Qle_bool _ _); [discriminate|].
    set (n := nearest _). cbn [opp]. intros H.
    assert (E : q = - Qred n) by congruence.
    rewrite E, Qred_opp, Qcanon.Qred_involutive. reflexivity.
  - destruct (Qle_bool _ _); [discriminate|].
    set (n := nearest _). intros H.
    assert (E : q = Qred n) by congruence.
    rewrite E. apply Qcanon.Qred_involutive.
Qed.

Lemma fl_eq (x : Q) (q : Q) (z : Z) :
  fl x = Rat q -> q == inject_Z z -> fl x = Rat (inject_Z z).
Proof.
  intros H E. rewrite H. f_equal.
  rewrite <- (fl_reduced x q H), <- (Qred_inject_Z z).
  apply Qred_complete. exact E.
Qed.

Lemma is_double_fl (z : Z) :
  is_double z = true -> fl (inject_Z z) = Rat (inject_Z z).
Proof.
  unfold is_double. intros H.
  destruct (fl (inject_Z z)) as [| |q] eqn:E; try discriminate.
  apply Qeq_bool_iff in H. rewrite <- E. apply (fl_eq _ q z E H).
Qed.

Lemma fl_one : fl 1 = Rat 1.
Proof. vm_compute. reflexivity. Qed.

(** Rounding a number of the normal range moves it by at most half a unit in
    the last of its 53 bits. *)
Lemma nearest_error (x : Q) :
  pow2 (-1022) <= x ->
  x * (1 - pow2 (-53)) <= nearest x <= x * (1 + pow2 (-53)).
Proof.
  intros Hn. assert (Hx : 0 < x) by (pose proof (pow2_pos (-1022)); lra).
  destruct (ilog2_spec x Hx) as [He _].
  assert (Hm : (-1022 <= ilog2 x)%Z).
  { destruct (ilog2_spec x Hx) as [_ H].
    assert (-1022 < ilog2 x + 1)%Z by (apply pow2_lt_inv; lra). lia. }
  unfold nearest. rewrite Z.max_l by lia.
  set (u := (ilog2 x - 52)%Z).
  pose proof (pow2_pos u) as Hu.
  pose proof (rne_bounds (x / pow2 u)) as [B1 B2].
  set (m := inject_Z (rne (x / pow2 u))) in *.
  assert (E : x / pow2 u * pow2 u == x) by (field; lra).
  assert (P : pow2 (ilog2 x) * pow2 (-53) == pow2 u * (1 # 2)).
  { rewrite <- pow2_add. unfold u.
    replace (ilog2 x + -53)%Z with (ilog2 x - 52 + -1)%Z by lia.
    rewrite pow2_add. reflexivity. }
  pose proof (pow2_pos (-53)) as H53.
  set (t := x / pow2 u) in *. set (c := pow2 (ilog2 x)) in *.
  set (eps := pow2 (-53)) in *. set (w := pow2 u) in *.
  split; nra.
Qed.

(** No overflow up to [2 ^ 1023]. *)
Lemma nearest_finite (x : Q) :
  0 < x -> x <= pow2 1023 -> Qle_bool (pow2 1024) (nearest x) = false.
Proof.
  intros Hx Hk.
  assert (H : nearest x <= pow2 1023).
  { unfold nearest. apply grid_le; [|exact Hk].
    destruct (ilog2_spec x Hx) as [He _].
    assert (ilog2 x < 1023 + 1)%Z.
    { apply pow2_lt_inv. apply Qle_lt_trans with x; [exact He|].
      apply Qle_lt_trans with (pow2 1023); [exact Hk|].
      apply Qpower_lt_compat_l; [lia|reflexivity]. }
    lia. }
  destruct (Qle_bool (pow2 1024) (nearest x)) eqn:E; [|reflexivity].
  apply Qle_bool_iff in E.
  assert (pow2 1023 < pow2 1024)
    by (apply Qpower_lt_compat_l; [lia|reflexivity]).
  lra.
Qed.

(** The relative error of one rounding in the normal range. *)
Lemma fl_error (x : Q) :
  pow2 (-1022) <= x -> x <= pow2 1023 ->
  exists q, fl x = Rat q /\
            x * (1 - pow2 (-53)) <= q <= x * (1 + pow2 (-53)).
Proof.
  intros Hlo Hhi.
  assert (Hx : 0 < x) by (pose proof (pow2_pos (-1022)); lra).
  rewrite (fl_pos x Hx). unfold round_pos.
  pose proof (Qred_correct x) as Ex.
  rewrite nearest_finite by (rewrite Ex; assumption).
  eexists. split; [reflexivity|]. rewrite Qred_correct.
  destruct (nearest_error (Qred x)) as [H1 H2]; [rewrite Ex; exact Hlo|].
  pose proof (pow2_pos (-53)) as H53.
  set (y := Qred x) in *. set (eps := pow2 (-53)) in *.
  set (m := nearest y) in *.
  assert (E1 : y * (1 - eps) == x * (1 - eps)) by (rewrite Ex; reflexivity).
  assert (E2 : y * (1 + eps) == x * (1 + eps)) by (rewrite Ex; reflexivity).
  split; lra.
Qed.

(** An integer of at most 53 bits is a binary64 value. *)
Lemma nearest_safe (z : Z) :
  (0 < z < 2 ^ 53)%Z -> nearest (inject_Z z) == inject_Z z.
Proof.
  intros [H0 H1]. unfold nearest. set (x := inject_Z z).
  assert (Hx : 0 < x).
  { unfold x. change 0 with (inject_Z 0). rewrite <- Zlt_Qlt. exact H0. }
  destruct (ilog2_spec x Hx) as [He _].
  assert (H53 : x < pow2 53).
  { unfold x. rewrite (pow2_int 53) by lia. rewrite <- Zlt_Qlt. exact H1. }
  assert (Hu : (ilog2 x < 53)%Z) by (apply pow2_lt_inv; lra).
  set (u := Z.max (ilog2 x - 52) (-1074)).
  assert (Hu0 : (u <= 0)%Z) by (unfold u; lia).
  pose proof (pow2_pos u) as Hp.
  assert (V : pow2 (- u) == / pow2 u) by apply Qpower_opp.
  assert (Ht : x / pow2 u == inject_Z (z * 2 ^ (- u))).
  { rewrite inject_Z_mult, <- pow2_int by lia. rewrite V. reflexivity. }
  rewrite (rne_comp _ _ Ht), rne_int, inject_Z_mult.
  rewrite <- pow2_int by lia. rewrite V. fold x. field. lra.
Qed.

Lemma fl_safe (z : Z) :
  (0 <= z < 2 ^ 53)%Z -> fl (inject_Z z) = Rat (inject_Z z).
Proof.
  intros [H0 H1]. destruct (Z.eq_dec z 0) as [->|Hz]; [reflexivity|].
  pose proof (nearest_safe z ltac:(lia)) as Hn.
  assert (Hx : 0 < inject_Z z).
  { change 0 with (inject_Z 0). rewrite <- Zlt_Qlt. lia. }
  rewrite (fl_pos _ Hx), Qred_inject_Z. unfold round_pos.
  rewrite nearest_finite.
  - f_equal. rewrite <- (Qred_inject_Z z) at 2.
    apply Qred_complete. exact Hn.
  - exact Hx.
  - rewrite (pow2_int 1023) by lia. rewrite <- Zle_Qle.
    apply Z.le_trans with (2 ^ 53)%Z; [lia|].
    apply Z.pow_le_mono_r; lia.
Qed.

Lemma is_double_safe (z : Z) : (0 <= z < 2 ^ 53)%Z -> is_double z = true.
Proof.
  intros H. unfold is_double. rewrite (fl_safe z H).
  apply Qeq_bool_iff. reflexivity.
Qed.

End Binary64.

(** ** The frame under a scroll offset *)

Lemma Qzero_inject_Z (z : Z) : Qzero (inject_Z z) = (z =? 0).
Proof. reflexivity. Qed.

Lemma Qzero_iff (q : Q) : Qzero q = true <-> (q == 0)%Q.
Proof. unfold Qzero, Qeq. simpl. rewrite Z.eqb_eq. lia. Qed.

Lemma Qzero_false (q : Q) : ~ (q == 0)%Q -> Qzero q = false.
Proof.
  intros H. destruct (Qzero q) eqn:E; [|reflexivity].
  apply Qzero_iff in E. contradiction.
Qed.

Lemma max_Int (x y : Z) : max (Int x) (Int y) = Int (Z.max x y).
Proof.
  unfold max, lt. destruct (x <? y) eqn:E.
  - apply Z.ltb_lt in E. f_equal. lia.
  - apply Z.ltb_ge in E. f_equal. lia.
Qed.

(** The ceiling of [n * (s / d)] is the ceiling of [(n * s) / d]. *)
Lemma Qceiling_scaled (n s d : Z) :
  d <> 0 ->
  Qceiling (inject_Z n * (inject_Z s / inject_Z d)) = - (- (n * s) / d).
Proof.
  intros Hd. unfold Qceiling. f_equal. rewrite Zdiv_Qdiv.
  apply Qfloor_comp.
  rewrite inject_Z_opp, inject_Z_mult.
  assert (Hq : ~ inject_Z d == 0).
  { intros H. apply Hd. unfold Qeq in H. simpl in H. lia. }
  field. exact Hq.
Qed.

Lemma inject_Z_sub (a b : Z) :
  (inject_Z a - inject_Z b == inject_Z (a - b))%Q.
Proof.
  unfold Z.sub. rewrite inject_Z_plus, inject_Z_opp. reflexivity.
Qed.

Lemma rounding_fl (cfg : settings) (vp : viewport) :
  representable cfg vp = true -> rounding cfg vp = fl.
Proof. intros H. unfold rounding. rewrite H. reflexivity. Qed.

Lemma rounding_exact (cfg : settings) (vp : viewport) :
  representable cfg vp = false -> rounding cfg vp = Rat.
Proof. intros H. unfold rounding. rewrite H. reflexivity. Qed.

Lemma representable_inv (cfg : settings) (vp : viewport) :
  representable cfg vp = true ->
  is_double (numImages cfg) = true /\ is_double (scrollTop vp) = true /\
  is_double (documentHeight vp) = true /\ is_double (windowHeight vp) = true.
Proof.
  unfold representable. rewrite !andb_true_iff. tauto.
Qed.

(** Where an input is no binary64 value the frame is the clamped ceiling of
    the exact product. *)
Lemma calculateCurrent_exact (cfg : settings) (vp : viewport) :
  representable cfg vp = false ->
  documentHeight vp - windowHeight vp <> 0 ->
  calculateCurrent cfg vp =
  Int (Z.max 1 (- (- (numImages cfg * scrollTop vp)
                   / (documentHeight vp - windowHeight vp)))).
Proof.
  intros Hr Hd. unfold calculateCurrent, currentPercent.
  rewrite (rounding_exact cfg vp Hr). unfold of_Z, subtract, div.
  rewrite Qzero_false.
  - cbn [mul ceil]. rewrite max_Int. do 2 f_equal.
    rewrite <- Qceiling_scaled by exact Hd.
    apply Qceiling_comp. rewrite inject_Z_sub. reflexivity.
  - rewrite inject_Z_sub. intros H. apply Hd.
    unfold Qeq in H. simpl in H. lia.
Qed.

(** Where every input is a binary64 value each operation rounds. *)
Lemma calculateCurrent_rounded (cfg : settings) (vp : viewport) :
  representable cfg vp = true ->
  calculateCurrent cfg vp =
  max (Int 1)
      (ceil (mul fl (of_Z (numImages cfg))
               (div fl (of_Z (scrollTop vp))
                  (fl (inject_Z (documentHeight vp - windowHeight vp)))))).
Proof.
  intros Hr. unfold calculateCurrent, currentPercent.
  rewrite (rounding_fl cfg vp Hr).
  unfold of_Z. cbn [subtract].
  rewrite (fl_comp _ _ (inject_Z_sub (documentHeight vp) (windowHeight vp))).
  reflexivity.
Qed.

Section Rounded.

Local Open Scope Q_scope.

Lemma rle_Rat_inv (p r : Q) (b : real) :
  rle (Rat p) b -> rle b (Rat r) -> exists q, b = Rat q /\ p <= q <= r.
Proof.
  destruct b as [|[|]|q]; cbn; try tauto.
  intros H1 H2. exists q. split; [reflexivity|lra].
Qed.

Lemma rle_lower (p : Q) (b : real) :
  rle (Rat p) b -> b = RInf false \/ exists q, b = Rat q /\ p <= q.
Proof.
  destruct b as [|[|]|q]; cbn; try tauto.
  intros H. right. exists q. split; [reflexivity|exact H].
Qed.

Lemma one_le_inject_Z (r : Z) : (1 <= r)%Z -> 1 <= inject_Z r.
Proof. intros H. change 1 with (inject_Z 1). rewrite <- Zle_Qle. exact H. Qed.

Lemma zero_le_inject_Z (r : Z) : (0 <= r)%Z -> 0 <= inject_Z r.
Proof. intros H. change 0 with (inject_Z 0). rewrite <- Zle_Qle. exact H. Qed.

(** The rounded height of the scrollable part is at least 1. *)
Lemma range_rounded (r : Z) :
  (1 <= r)%Z ->
  fl (inject_Z r) = RInf false \/
  exists d, fl (inject_Z r) = Rat d /\ 1 <= d.
Proof.
  intros H. apply rle_lower. rewrite <- fl_one. apply fl_mono.
  apply one_le_inject_Z. exact H.
Qed.

(** The scroll fraction is finite. *)
Lemma percent_finite (r s : Z) :
  (1 <= r)%Z -> fl (inject_Z s) = Rat (inject_Z s) ->
  exists a, div fl (of_Z s) (fl (inject_Z r)) = Rat a /\
            ((0 <= s)%Z -> 0 <= a <= inject_Z s) /\
            ((0 <= s <= r)%Z -> a <= 1).
Proof.
  intros Hr Hs. unfold of_Z.
  destruct (range_rounded r Hr) as [E|[d [E Hd]]]; rewrite E.
  - exists 0. split; [reflexivity|]. split; intros H; [|lra].
    pose proof (zero_le_inject_Z s H). lra.
  - cbn [div]. rewrite Qzero_false by lra.
    assert (Hd' : ~ d == 0) by lra.
    assert (Ha : exists a, fl (inject_Z s / d) = Rat a).
    { destruct (Z_le_gt_dec 0 s) as [H|H].
      - pose proof (zero_le_inject_Z s H) as H0.
        destruct (rle_Rat_inv 0 (inject_Z s) (fl (inject_Z s / d)))
          as [a [Ea _]].
        + change (Rat 0) with (fl 0). apply fl_mono.
          apply Qle_shift_div_l; lra.
        + rewrite <- Hs. apply fl_mono. apply Qle_shift_div_r; nra.
        + exists a. exact Ea.
      - assert (H0 : inject_Z s <= 0).
        { change 0 with (inject_Z 0). rewrite <- Zle_Qle. lia. }
        destruct (rle_Rat_inv (inject_Z s) 0 (fl (inject_Z s / d)))
          as [a [Ea _]].
        + rewrite <- Hs. apply fl_mono. apply Qle_shift_div_l; nra.
        + change (Rat 0) with (fl 0). apply fl_mono.
          apply Qle_shift_div_r; lra.
        + exists a. exact Ea. }
    destruct Ha as [a Ea]. exists a. split; [exact Ea|]. split.
    + intros H. pose proof (zero_le_inject_Z s H) as H0.
      assert (L : rle (fl 0) (fl (inject_Z s / d))).
      { apply fl_mono. apply Qle_shift_div_l; lra. }
      assert (U : rle (fl (inject_Z s / d)) (fl (inject_Z s))).
      { apply fl_mono. apply Qle_shift_div_r; nra. }
      rewrite Ea in L, U. rewrite Hs in U. cbn in L, U. lra.
    + intros [H H']. pose proof (zero_le_inject_Z s H) as H0.
      assert (L : rle (fl (inject_Z s)) (fl (inject_Z r))).
      { apply fl_mono. rewrite <- Zle_Qle. exact H'. }
      rewrite Hs, E in L. cbn in L.
      assert (U : rle (fl (inject_Z s / d)) (fl 1)).
      { apply fl_mono. apply Qle_shift_div_r; lra. }
      rewrite Ea, fl_one in U. exact U.
Qed.

(** The scroll fraction grows with the offset. *)
Lemma percent_mono (r s s' : Z) :
  (1 <= r)%Z -> (s <= s')%Z ->
  rle (div fl (of_Z s) (fl (inject_Z r)))
      (div fl (of_Z s') (fl (inject_Z r))).
Proof.
  intros Hr Hs. unfold of_Z.
  destruct (range_rounded r Hr) as [E|[d [E Hd]]]; rewrite E.
  - cbn. lra.
  - cbn [div]. rewrite Qzero_false by lra. apply fl_mono.
    rewrite Zle_Qle in Hs.
    apply Qle_shift_div_l; [lra|].
    assert (X : inject_Z s / d * d == inject_Z s) by (field; lra).
    rewrite X. exact Hs.
Qed.

Lemma ceil_mono (a b : real) : rle a b -> le (ceil a) (ceil b) = true.
Proof.
  destruct a as [|[|]|p], b as [|[|]|q]; cbn; try tauto.
  intros H. apply Z.leb_le. apply Qceiling_resp_le. exact H.
Qed.

End Rounded.

Lemma max_mono (a b : num) :
  le a b = true -> le (max (Int 1) a) (max (Int 1) b) = true.
Proof.
  destruct a as [|[|]|x], b as [|[|]|y]; cbn; try discriminate;
    try reflexivity; intros H; try apply Z.leb_le in H;
    repeat match goal with
           | |- context [?u <? ?v] => destruct (Z.ltb_spec u v)
           end; cbn; try reflexivity; apply Z.leb_le; lia.
Qed.

Lemma Qceiling_between (p : Q) (n : Z) :
  (0 <= p <= inject_Z n)%Q -> 0 <= Qceiling p <= n.
Proof.
  intros [H0 H1]. split.
  - change 0 with (Qceiling 0). apply Qceiling_resp_le. exact H0.
  - rewrite <- (Qceiling_Z n). apply Qceiling_resp_le. exact H1.
Qed.

Lemma calculateCurrent_bounds (cfg : settings) (vp : viewport) :
  1 <= numImages cfg -> scrollable vp ->
  in_range cfg (calculateCurrent cfg vp).
Proof.
  intros Hn [Hd [Hs0 Hs1]].
  destruct (representable cfg vp) eqn:Hr.
  - rewrite (calculateCurrent_rounded cfg vp Hr).
    destruct (representable_inv cfg vp Hr) as (Dn & Ds & _ & _).
    apply is_double_fl in Dn, Ds.
    destruct (percent_finite (documentHeight vp - windowHeight vp)
                (scrollTop vp) ltac:(lia) Ds) as [a [Ea [Ha0 Ha1]]].
    rewrite Ea. unfold of_Z. cbn [mul].
    specialize (Ha0 Hs0). specialize (Ha1 (conj Hs0 Hs1)).
    pose proof (zero_le_inject_Z (numImages cfg) ltac:(lia)) as Hn0.
    destruct (rle_Rat_inv 0 (inject_Z (numImages cfg))
                (fl (inject_Z (numImages cfg) * a))) as [p [Ep Hp]].
    + change (Rat 0) with (fl 0). apply fl_mono. nra.
    + rewrite <- Dn. apply fl_mono. nra.
    + rewrite Ep. cbn [ceil]. rewrite max_Int.
      apply Qceiling_between in Hp.
      eexists. split; [reflexivity|lia].
  - rewrite calculateCurrent_exact by (assumption || lia).
    eexists. split; [reflexivity|].
    set (d := documentHeight vp - windowHeight vp) in *.
    assert (Hc : - (- (numImages cfg * scrollTop vp) / d) <= numImages cfg).
    { assert (- numImages cfg <= - (numImages cfg * scrollTop vp) / d);
        [|lia].
      apply Z.div_le_lower_bound; nia. }
    lia.
Qed.

(** Rounding shows: [70 / 1000] is rounded up, and its product with 100 lies
    above 7; [1100 / 1000] likewise. *)
Lemma calculateCurrent_rounds_up :
  calculateCurrent (sample 100 10 false) (at_offset 70 1600 600) = Int 8 /\
  calculateCurrent (sample 100 10 false) (at_offset 1100 1600 600) = Int 111.
Proof. vm_compute. split; reflexivity. Qed.

(** With no scrolling to do and the offset at the top, the quotient is
    [0 / 0]. *)
Lemma calculateCurrent_NaN (cfg : settings) (vp : viewport) :
  scrollTop vp = 0 -> documentHeight vp = windowHeight vp ->
  calculateCurrent cfg vp = NaN.
Proof.
  intros Hs Hd. unfold calculateCurrent, currentPercent, of_Z.
  rewrite Hs, Hd.
  assert (E : subtract (rounding cfg vp) (Rat (inject_Z (windowHeight vp)))
                (Rat (inject_Z (windowHeight vp)))
              = Rat (if representable cfg vp then 0%Q
                     else (inject_Z (windowHeight vp)
                           - inject_Z (windowHeight vp))%Q)).
  { unfold rounding, subtract. destruct (representable cfg vp).
    - apply fl_zero. ring.
    - reflexivity. }
  rewrite E. cbn [div].
  assert (Z0 : Qzero (if representable cfg vp then 0%Q
                      else (inject_Z (windowHeight vp)
                            - inject_Z (windowHeight vp))%Q) = true).
  { apply Qzero_iff. destruct (representable cfg vp); ring. }
  rewrite Z0. reflexivity.
Qed.

(** On a document taller than the window [scrollTop = 0] gives frame 1. *)
Lemma calculateCurrent_top (cfg : settings) (vp : viewport) :
  windowHeight vp < documentHeight vp -> scrollTop vp = 0 ->
  calculateCurrent cfg vp = Int 1.
Proof.
  intros Hd Hs. destruct (representable cfg vp) eqn:Hr.
  - rewrite (calculateCurrent_rounded cfg vp Hr), Hs.
    destruct (percent_finite (documentHeight vp - windowHeight vp) 0
                ltac:(lia) eq_refl) as [a [Ea [Ha _]]].
    specialize (Ha ltac:(lia)). rewrite Ea. unfold of_Z. cbn [mul].
    rewrite fl_zero; [reflexivity|].
    change (inject_Z 0) with 0%Q in Ha.
    assert (a == 0)%Q by lra. rewrite H. ring.
  - rewrite calculateCurrent_exact by (assumption || lia).
    rewrite Hs, Z.mul_0_r. change (- 0) with 0.
    rewrite Z.div_0_l by lia. reflexivity.
Qed.

(** At the largest offset the frame is the last one. *)
Lemma calculateCurrent_bottom (cfg : settings) (vp : viewport) :
  windowHeight vp < documentHeight vp ->
  scrollTop vp = documentHeight vp - windowHeight vp ->
  calculateCurrent cfg vp = Int (Z.max 1 (numImages cfg)).
Proof.
  intros Hd Hs. destruct (representable cfg vp) eqn:Hr.
  - rewrite (calculateCurrent_rounded cfg vp Hr), <- Hs.
    destruct (representable_inv cfg vp Hr) as (Dn & Ds & _ & _).
    apply is_double_fl in Dn, Ds.
    rewrite Ds. unfold of_Z. cbn [div].
    rewrite Qzero_inject_Z.
    destruct (scrollTop vp =? 0) eqn:E; [apply Z.eqb_eq in E; lia|].
    apply Z.eqb_neq in E.
    assert (E1 : (inject_Z (scrollTop vp) / inject_Z (scrollTop vp) == 1)%Q).
    { field. intros H. apply E. unfold Qeq in H. simpl in H. lia. }
    rewrite (fl_comp _ _ E1), fl_one. cbn [mul].
    assert (E2 : (inject_Z (numImages cfg) * 1 == inject_Z (numImages cfg))%Q)
      by ring.
    rewrite (fl_comp _ _ E2), Dn. cbn [ceil].
    rewrite Qceiling_Z. apply max_Int.
  - rewrite calculateCurrent_exact by (assumption || lia). rewrite Hs.
    set (d := documentHeight vp - windowHeight vp).
    rewrite <- Z.mul_opp_l, Z.div_mul by (unfold d; lia).
    rewrite Z.opp_involutive. reflexivity.
Qed.

(** ** Every function is a composition of a few state changes

    A relation between the state before and after that is reflexive,
    transitive and holds for each elementary change holds for every function of
    the plugin.  The invariants below are instances. *)

Lemma scan_unmarked (l : list num) (count : nat) :
  forall i j, scan count i l = Some j -> includes l (Int j) = false.
Proof.
  induction count as [|k IH]; intros i j; simpl; [discriminate|].
  destruct (includes l (Int i)) eqn:E.
  - apply IH.
  - intros H. injection H as <-. exact E.
Qed.

Lemma generateImg_frame (cfg : settings) (id : num) (hr : bool) (s : state) :
  frame (generateImg cfg id hr s) = id /\
  visible (generateImg cfg id hr s) = false.
Proof. unfold generateImg. destruct (_ || _); split; reflexivity. Qed.

Lemma length_zero {A : Type} (l : list A) :
  (List.length l =? 0)%nat = true <-> l = [].
Proof.
  destruct l; simpl; split; try reflexivity; discriminate.
Qed.

Section Compositional.

Variable cfg : settings.
Variable P : state -> state -> Prop.
Variable okC : list node -> list node -> Prop.
Variable okV : viewport -> Prop.
Variable okF : num -> Prop.
Variable okU : Prop.

Hypothesis HP : closed cfg P okC okV okF okU.

Let P_refl := c_refl cfg P okC okV okF okU HP.
Let P_trans := c_trans cfg P okC okV okF okU HP.
Let P_children := c_children cfg P okC okV okF okU HP.
Let okC_filter := c_filter cfg P okC okV okF okU HP.
Let okC_relabel := c_relabel cfg P okC okV okF okU HP.
Let P_append := c_append cfg P okC okV okF okU HP.
Let P_replaced := c_replaced cfg P okC okV okF okU HP.
Let P_markBig := c_markBig cfg P okC okV okF okU HP.
Let P_buffering := c_buffering cfg P okC okV okF okU HP.
Let P_animating := c_animating cfg P okC okV okF okU HP.
Let P_lastCurrentImg := c_lastCurrentImg cfg P okC okV okF okU HP.
Let P_frame := c_frame cfg P okC okV okF okU HP.
Let P_upgradeWrapper := c_upgradeWrapper cfg P okC okV okF okU HP.
Let P_allPreloaded := c_allPreloaded cfg P okC okV okF okU HP.
Let P_currentImg := c_currentImg cfg P okC okV okF okU HP.
Let P_emit := c_emit cfg P okC okV okF okU HP.
Let P_mark := c_mark cfg P okC okV okF okU HP.
Let P_fetch := c_fetch cfg P okC okV okF okU HP.
Let P_loaded := c_loaded cfg P okC okV okF okU HP.
Let okF_add := c_okF_add cfg P okC okV okF okU HP.
Let okF_current := c_okF_current cfg P okC okV okF okU HP.

Lemma P_preloadNext (t : tier) (s : state) : P s (preloadNext cfg t s).
Proof.
  unfold preloadNext.
  destruct (negb (animating s) && negb (buffering s)); [|apply P_refl].
  destruct (scan _ 1 (marked t s)) as [i|] eqn:E; [|apply P_refl].
  apply P_fetch. eapply scan_unmarked, E.
Qed.

Lemma P_preload_body (again : state -> state) :
  (forall s, P s (again s)) -> forall s, P s (preload_body cfg again s).
Proof.
  intros Hagain s. unfold preload_body.
  destruct (preload_flag cfg); [|apply P_refl].
  destruct (_ <? _); [apply P_preloadNext|].
  destruct (_ && _).
  - eapply P_trans; [apply P_allPreloaded|].
    destruct (onPreloaded cfg).
    + eapply P_trans; [|apply Hagain]. apply P_emit. reflexivity.
    + apply Hagain.
  - destruct (_ && _); [apply P_preloadNext|apply P_refl].
Qed.

Lemma P_preload (s : state) : P s (preload cfg s).
Proof.
  unfold preload. apply P_preload_body. intros s'.
  apply P_preload_body. apply P_refl.
Qed.

Lemma P_bufferLoop (fr : num) (count : nat) :
  okF fr -> forall i s, P s (bufferLoop cfg count i fr s).
Proof.
  intros Hfr. induction count as [|k IH]; intros i s; simpl.
  - apply P_refl.
  - eapply P_trans; [|apply IH].
    destruct (_ =? _)%nat eqn:E; cbn [andb]; [|apply P_refl].
    destruct (_ && _); [|apply P_refl].
    eapply P_trans; [|apply P_mark, okF_add, Hfr].
    apply P_append.
    + rewrite (proj1 (generateImg_frame _ _ _ _)). apply length_zero, E.
    + apply generateImg_frame.
Qed.

Lemma P_bufferFromFrame (fr : num) (s : state) :
  okF fr -> P s (bufferFromFrame cfg fr s).
Proof.
  intros Hfr. unfold bufferFromFrame.
  eapply P_trans; [|apply P_preload].
  eapply P_trans; [|apply P_buffering].
  destruct (_ <? _).
  - eapply P_trans; [apply P_children, okC_filter|].
    apply P_bufferLoop, Hfr.
  - apply P_children, okC_filter.
Qed.

Lemma P_showFrame (fr : num) (s : state) :
  okF fr -> P s (showFrame cfg fr s).
Proof.
  intros Hfr. unfold showFrame.
  eapply P_trans; [|apply P_bufferFromFrame, Hfr].
  eapply P_trans; [|apply P_mark, Hfr].
  eapply P_trans; [|apply P_children, okC_relabel].
  - eapply P_trans; [|apply P_children, okC_relabel].
    + destruct (onShowFrame cfg); [apply P_emit; reflexivity|apply P_refl].
    + intros [el|b]; reflexivity.
  - intros [el|b]; [|reflexivity]. simpl.
    destruct (same (frame el) fr); reflexivity.
Qed.

Lemma P_showFrameWhenReady (fr : num) (s : state) :
  okF fr -> P s (showFrameWhenReady cfg fr s).
Proof.
  intros Hfr. unfold showFrameWhenReady.
  destruct (_ =? _)%nat eqn:E; [|apply P_showFrame, Hfr].
  eapply P_trans; [|apply P_emit; reflexivity].
  eapply P_trans; [apply P_buffering|].
  apply P_append.
  - rewrite (proj1 (generateImg_frame _ _ _ _)). apply length_zero, E.
  - apply generateImg_frame.
Qed.

Lemma P_animate (vp : viewport) (s : state) :
  okV vp -> P s (animate cfg vp s).
Proof.
  intros Hvp. unfold animate.
  destruct (animating s); [|apply P_refl].
  eapply P_trans; [|apply P_emit; reflexivity].
  destruct (neq _ _); [|apply P_animating].
  eapply P_trans; [apply P_currentImg, Hvp|].
  apply P_showFrameWhenReady, okF_current, Hvp.
Qed.

Lemma P_scroll (vp : viewport) (s : state) :
  okV vp -> P s (scroll cfg vp s).
Proof.
  intros Hvp. unfold scroll.
  eapply P_trans; [|apply P_emit; reflexivity].
  eapply P_trans; [|apply P_emit; reflexivity].
  eapply P_trans; [|apply P_lastCurrentImg].
  destruct (negb (animating s)); [|apply P_refl].
  eapply P_trans; [apply P_animating|apply P_animate, Hvp].
Qed.

Lemma P_upgradeFrame (fr : num) (s : state) :
  P s (final (upgradeFrame cfg fr s)).
Proof.
  unfold upgradeFrame.
  destruct (not_upgraded _); [|apply P_frame].
  cbn [upgradeWrapper set_frame].
  destruct (upgradeWrapper s); cbn [final]; [|apply P_frame].
  eapply P_trans; [|apply P_emit; reflexivity].
  eapply P_trans; [apply P_frame|apply P_upgradeWrapper; discriminate].
Qed.

Lemma P_checkForScroll (s : state) : P s (final (checkForScroll cfg s)).
Proof.
  unfold checkForScroll.
  destruct (strict_eq _ _); [|apply P_refl].
  destruct (upgradeHighRes cfg).
  - pose proof (P_upgradeFrame (currentImg (set_animating false s))
                  (set_animating false s)) as H.
    destruct (upgradeFrame _ _ _) as [u s2|m s2]; cbn [final] in *.
    + eapply P_trans; [apply P_animating|].
      eapply P_trans; [exact H|apply P_preload].
    + eapply P_trans; [apply P_animating|exact H].
  - cbn [final]. eapply P_trans; [apply P_animating|apply P_preload].
Qed.

Lemma P_upgradeLoaded (fr : num) (s : state) :
  okU -> P s (upgradeLoaded fr s).
Proof.
  intros HU. unfold upgradeLoaded.
  destruct (upgradeWrapper s) as [html|]; [|apply P_refl].
  destruct (after _ _ _ _) as [l1 n].
  eapply P_trans; [|apply P_markBig].
  eapply P_trans; [|apply P_upgradeWrapper; discriminate].
  apply P_replaced, HU.
Qed.

Lemma P_exec (c : call) (s : state) :
  call_ok okV okF okU c -> P s (exec cfg c s).
Proof.
  destruct c; simpl; intros H.
  - apply P_preload.
  - apply P_preloadNext.
  - apply P_loaded.
  - apply P_scroll, H.
  - apply P_animate, H.
  - apply P_checkForScroll.
  - apply P_showFrameWhenReady, H.
  - apply P_showFrame, H.
  - apply P_bufferFromFrame, H.
  - apply P_upgradeFrame.
  - apply P_upgradeLoaded, H.
Qed.

Lemma P_run (l : list call) :
  Forall (call_ok okV okF okU) l -> forall s, P s (run cfg l s).
Proof.
  induction 1 as [|c l Hc _ IH]; intros s; simpl.
  - apply P_refl.
  - eapply P_trans; [apply P_exec, Hc|apply IH].
Qed.

End Compositional.

(** ** The current frame stays within the clip *)

Ltac unfold_marks :=
  unfold onImagePreloaded, markAsPreloaded, markBigAsPreloaded;
  repeat match goal with
         | |- context [if includes ?l ?x then _ else _] =>
             destruct (includes l x) eqn:?
         | t : tier |- _ => destruct t
         end.

Lemma closed_keeps_currentImg (cfg : settings) :
  closed cfg keeps_currentImg any_change no_document any_frame True.
Proof.
  constructor;
    unfold keeps_currentImg, any_change, no_document, any_frame; intros;
    try reflexivity; try congruence; try tauto;
    unfold_marks; reflexivity.
Qed.

Lemma closed_keeps_range (cfg : settings) :
  1 <= numImages cfg -> closed cfg (keeps_range cfg) any_change scrollable any_frame True.
Proof.
  intros Hn.
  constructor; unfold keeps_range, any_change, any_frame; intros; auto;
    try (unfold_marks; assumption).
  apply calculateCurrent_bounds; assumption.
Qed.

(** What a successful [init] leaves behind. *)
Lemma init_returns (this : nat) (opts : option options) (il : bool)
    (vp : viewport) (d : defaults_t) (s0 : state) (cfg : settings)
    (s : state) :
  init this opts il vp d s0 = Returns cfg s ->
  (exists o, opts = Some o /\ cfg = extend d o) /\
  currentImg s = calculateCurrent cfg vp.
Proof.
  unfold init. destruct opts as [o|]; [|discriminate].
  destruct (falsyZ _); [discriminate|].
  destruct (falsyS (o_imgDir o)); [discriminate|].
  destruct (falsyS (o_imgName o)); [discriminate|].
  destruct (_ && _); [discriminate|].
  destruct (negb il); [discriminate|].
  set (cfg0 := extend d o).
  set (s1 := set_currentImg _ _).
  set (s2 := showFrameWhenReady cfg0 (currentImg s1) s1).
  assert (H2 : currentImg s2 = calculateCurrent cfg0 vp).
  { unfold s2.
    rewrite (P_showFrameWhenReady cfg0 _ _ _ _ _ (closed_keeps_currentImg cfg0));
      [reflexivity|exact I]. }
  destruct (negb (falsyB (o_upgradeHighRes o))).
  - set (s3 := addUpgradeWrapper s2).
    pose proof (P_upgradeFrame cfg0 _ _ _ _ _ (closed_keeps_currentImg cfg0)
                  (currentImg s2) s3) as H3.
    destruct (upgradeFrame cfg0 (currentImg s2) s3) as [u s4|m s4];
      [|discriminate].
    cbn [final] in H3. intros H. injection H as <- <-.
    split; [eauto|].
    assert (H5 : currentImg
                   (if preload_flag cfg0 then preload cfg0 s4 else s4)
                 = currentImg s4).
    { destruct (preload_flag cfg0); [|reflexivity].
      apply (P_preload cfg0 _ _ _ _ _ (closed_keeps_currentImg cfg0)). }
    transitivity (currentImg s4); [exact H5|].
    transitivity (currentImg s3); [exact H3|exact H2].
  - intros H. injection H as <- <-.
    split; [eauto|].
    assert (H5 : currentImg
                   (if preload_flag cfg0 then preload cfg0 s2 else s2)
                 = currentImg s2).
    { destruct (preload_flag cfg0); [|reflexivity].
      apply (P_preload cfg0 _ _ _ _ _ (closed_keeps_currentImg cfg0)). }
    transitivity (currentImg s2); [exact H5|exact H2].
Qed.

Lemma strict_eq_eq (a b : num) : strict_eq a b = true -> a = b.
Proof.
  destruct a as [|s|x], b as [|t|y]; simpl; try discriminate.
  - intros H. apply Bool.eqb_prop in H. congruence.
  - intros H. apply Z.eqb_eq in H. congruence.
Qed.

Lemma strict_eq_Int (x y : Z) : strict_eq (Int x) (Int y) = (x =? y).
Proof. reflexivity. Qed.

(** [animate] commits the frame it computed. *)
Lemma animate_commits (cfg : settings) (vp : viewport) (s : state) :
  animating s = true -> integral (calculateCurrent cfg vp) ->
  currentImg (animate cfg vp s) = calculateCurrent cfg vp.
Proof.
  intros Ha [z Hz]. unfold animate. rewrite Ha.
  change (currentImg (emit RequestAnimationFrame ?x)) with (currentImg x).
  unfold neq. destruct (strict_eq _ _) eqn:E; cbn [negb].
  - apply strict_eq_eq in E. symmetry. exact E.
  - rewrite (P_showFrameWhenReady cfg _ _ _ _ _ (closed_keeps_currentImg cfg));
      [reflexivity|exact I].
Qed.

(** C1, as amended: on a document taller than the window and for scroll
    offsets within its bounds, the frame [calculateCurrent] computes lies in
    [1, numImages]; [init] and [animate] commit that frame as [currentImg];
    and [currentImg] stays in [1, numImages] at every point after [init] as
    long as every offset the plugin observes is of that kind. *)
Theorem C1_current_frame_within_clip
    (this : nat) (opts : option options) (il : bool) (vp : viewport)
    (d : defaults_t) (s0 : state) (cfg : settings) (s : state)
    (calls : list call) :
  init this opts il vp d s0 = Returns cfg s ->
  1 <= numImages cfg ->
  scrollable vp ->
  Forall (call_ok scrollable any_frame True) calls ->
  in_range cfg (calculateCurrent cfg vp) /\
  currentImg s = calculateCurrent cfg vp /\
  in_range cfg (currentImg (run cfg calls s)) /\
  (forall vp' s',
      scrollable vp' -> animating s' = true ->
      currentImg (animate cfg vp' s') = calculateCurrent cfg vp' /\
      in_range cfg (currentImg (animate cfg vp' s'))).
Proof.
  intros Hinit Hn Hvp Hcalls.
  apply init_returns in Hinit. destruct Hinit as [_ Hcur].
  pose proof (calculateCurrent_bounds cfg vp Hn Hvp) as Hin.
  repeat split; try assumption.
  - apply (P_run cfg _ _ _ _ _ (closed_keeps_range cfg Hn) calls Hcalls s).
    rewrite Hcur. exact Hin.
  - apply animate_commits; [assumption|].
    destruct (calculateCurrent_bounds cfg vp' Hn H) as [z [Hz _]].
    exists z. exact Hz.
  - rewrite animate_commits; [|assumption|].
    + apply calculateCurrent_bounds; assumption.
    + destruct (calculateCurrent_bounds cfg vp' Hn H) as [z [Hz _]].
      exists z. exact Hz.
Qed.

Lemma C1_current_frame_within_clip_witness :
  let cfg := extend defaults (sample_options 100 "img/") in
  let s := final (init 1 (Some (sample_options 100 "img/")) true
                    (at_offset 300 1600 600) defaults initial) in
  in_range cfg
    (currentImg
       (run cfg [CScroll (at_offset 310 1600 600);
                 CAnimate (at_offset 1000 1600 600); CCheckForScroll] s)).
Proof.
  intros cfg s.
  refine (proj1 (proj2 (proj2
            (C1_current_frame_within_clip 1
               (Some (sample_options 100 "img/")) true
               (at_offset 300 1600 600) defaults initial cfg s
               [CScroll (at_offset 310 1600 600);
                CAnimate (at_offset 1000 1600 600); CCheckForScroll]
               _ _ _ _)))).
  - vm_compute. reflexivity.
  - vm_compute. discriminate.
  - unfold scrollable. simpl. lia.
  - repeat constructor; simpl; lia.
Defined.

(** C1 as stated fails.  An offset within the bounds of a document as tall as
    the window gives [NaN]; and without an upper clamp an offset beyond the
    bounds makes [init] commit a frame beyond [numImages]. *)
Lemma C1_counterexample :
  ~ (forall cfg vp,
        1 <= numImages cfg -> within_bounds vp ->
        in_range cfg (calculateCurrent cfg vp)) /\
  ~ (forall this opts il vp d s0 cfg s,
        init this opts il vp d s0 = Returns cfg s ->
        1 <= numImages cfg -> in_range cfg (currentImg s)).
Proof.
  split.
  - intros H.
    destruct (H (sample 100 10 false) (at_offset 0 600 600)) as [z [Hz _]].
    + simpl. lia.
    + unfold within_bounds. simpl. lia.
    + rewrite calculateCurrent_NaN in Hz by reflexivity. discriminate.
  - intros H.
    destruct (H 1%nat (Some (sample_options 100 "img/")) true
                (at_offset 1100 1600 600) defaults initial
                (extend defaults (sample_options 100 "img/"))
                (final (init 1 (Some (sample_options 100 "img/")) true
                          (at_offset 1100 1600 600) defaults initial)))
      as [z [Hz Hr]].
    + vm_compute. reflexivity.
    + vm_compute. discriminate.
    + vm_compute in Hz. injection Hz as <-. simpl in Hr. lia.
Qed.

(** C3: on a page that cannot scroll the quotient is [0 / 0] and the frame at
    [scrollTop = 0] is [NaN], where the claim states [1]. *)
Theorem C3_top_of_unscrollable_page :
  calculateCurrent (sample 100 10 false) (at_offset 0 600 600) = NaN.
Proof. apply calculateCurrent_NaN; reflexivity. Qed.

(** ** Arithmetic on integral frames *)

Lemma same_refl (x : num) : same x x = true.
Proof.
  destruct x as [|s|z]; simpl; [reflexivity|destruct s; reflexivity|].
  apply Z.eqb_refl.
Qed.

Lemma same_eq (x y : num) : same x y = true <-> x = y.
Proof.
  split; [|intros ->; apply same_refl].
  destruct x as [|s|z], y as [|t|w]; simpl; try discriminate; try reflexivity.
  - intros H. apply Bool.eqb_prop in H. congruence.
  - intros H. apply Z.eqb_eq in H. congruence.
Qed.

Lemma outside_Int (cfg : settings) (f : Z) (el : img) (g : Z) :
  frame el = Int g ->
  outside cfg (Int f) el = (g <? f - buffer cfg) || (f + buffer cfg <? g).
Proof.
  intros H. unfold outside, gt, sub, add, neg, lt. rewrite H.
  reflexivity.
Qed.

Lemma in_zrange (count : nat) :
  forall lo g, In g (zrange lo count) <-> lo <= g < lo + Z.of_nat count.
Proof.
  induction count as [|k IH]; intros lo g; simpl.
  - lia.
  - rewrite IH. lia.
Qed.

Lemma includes_Int (l : list num) (g : Z) :
  includes l (Int g) = true <-> In (Int g) l.
Proof.
  unfold includes. rewrite existsb_exists. split.
  - intros [x [Hx E]]. apply strict_eq_eq in E. subst. exact Hx.
  - intros H. exists (Int g). split; [exact H|apply Z.eqb_refl].
Qed.

(** ** [preload] and the marking functions leave the display alone *)

Lemma quiet_refl (s : state) : quiet s s.
Proof. repeat split. Qed.

Lemma quiet_trans (s1 s2 s3 : state) :
  quiet s1 s2 -> quiet s2 s3 -> quiet s1 s3.
Proof.
  unfold quiet. intros H1 H2.
  repeat match goal with H : _ /\ _ |- _ => destruct H end.
  repeat split; congruence.
Qed.

Lemma markAsPreloaded_quiet (f : num) (s : state) :
  quiet s (markAsPreloaded f s).
Proof. unfold_marks; repeat split. Qed.

Lemma onImagePreloaded_quiet (f : num) (t : tier) (s : state) :
  quiet s (onImagePreloaded f t s).
Proof. unfold_marks; repeat split. Qed.

Lemma preloadNext_quiet (cfg : settings) (t : tier) (s : state) :
  quiet s (preloadNext cfg t s).
Proof.
  unfold preloadNext.
  destruct (_ && _); [|apply quiet_refl].
  destruct (scan _ _ _); [|apply quiet_refl].
  eapply quiet_trans; [apply (onImagePreloaded_quiet (Int z) t)|].
  repeat split.
Qed.

Lemma preload_body_quiet (cfg : settings) (again : state -> state) :
  (forall s, quiet s (again s)) ->
  forall s, quiet s (preload_body cfg again s).
Proof.
  intros Hagain s. unfold preload_body.
  destruct (preload_flag cfg); [|apply quiet_refl].
  destruct (_ <? _); [apply preloadNext_quiet|].
  destruct (_ && _).
  - eapply quiet_trans; [|apply Hagain].
    destruct (onPreloaded cfg); repeat split.
  - destruct (_ && _); [apply preloadNext_quiet|apply quiet_refl].
Qed.

Lemma preload_quiet (cfg : settings) (s : state) : quiet s (preload cfg s).
Proof.
  unfold preload. apply preload_body_quiet. intros s'.
  apply preload_body_quiet. apply quiet_refl.
Qed.

(** The second pass of [preload] is [preload] itself: the definition
    satisfies the recursive equation of the source. *)
Lemma preload_unfold (cfg : settings) (s : state) :
  preload cfg s = preload_body cfg (preload cfg) s.
Proof.
  unfold preload at 1. unfold preload_body at 1 3.
  destruct (preload_flag cfg) eqn:Hp; [|reflexivity].
  destruct (_ <? _) eqn:E1; [reflexivity|].
  destruct (_ && _) eqn:E2; [|reflexivity].
  set (s1 := if onPreloaded cfg then _ else _).
  assert (Hlen : preloaded s1 = preloaded s)
    by (unfold s1; destruct (onPreloaded cfg); reflexivity).
  assert (Hall : allPreloaded s1 = true)
    by (unfold s1; destruct (onPreloaded cfg); reflexivity).
  unfold preload, preload_body. rewrite Hp, Hlen, E1, Hall.
  rewrite andb_false_r.
  destruct (_ && _); reflexivity.
Qed.

(** ** The loop of [bufferFromFrame] *)

Lemma generateImg_ext (cfg : settings) (fr : num) (hr : bool) (s s' : state) :
  preloadedBig s' = preloadedBig s -> imgStrLen s' = imgStrLen s ->
  generateImg cfg fr hr s' = generateImg cfg fr hr s.
Proof. intros H1 H2. unfold generateImg. rewrite H1, H2. reflexivity. Qed.

Lemma imgs_app (l1 l2 : list node) : imgs (l1 ++ l2) = imgs l1 ++ imgs l2.
Proof.
  induction l1 as [|[el|b] l1 IH]; simpl; [reflexivity| |exact IH].
  f_equal. exact IH.
Qed.

Lemma imgs_elements (html : list img) :
  forall n, map frame (imgs (elements n html)) = map frame html /\
            map visible (imgs (elements n html)) = map visible html.
Proof.
  induction html as [|el r IH]; intros n; simpl; [split; reflexivity|].
  destruct (IH (S n)) as [H1 H2]. rewrite H1, H2. split; reflexivity.
Qed.

Lemma imgs_kept (cfg : settings) (fr : num) (l : list node) :
  imgs (kept cfg fr l) = filter (fun el => negb (outside cfg fr el)) (imgs l).
Proof.
  unfold kept. induction l as [|[el|b] l IH]; simpl; [reflexivity| |exact IH].
  destruct (negb (outside cfg fr el)); simpl; [f_equal|]; exact IH.
Qed.

Lemma with_frame_app (f : num) (l1 l2 : list node) :
  with_frame f (l1 ++ l2) = with_frame f l1 ++ with_frame f l2.
Proof. unfold with_frame. rewrite imgs_app. apply filter_app. Qed.

Lemma same_frame_nil (f : num) (l : list img) :
  filter (fun el => same (frame el) f) l = [] <-> ~ In f (map frame l).
Proof.
  induction l as [|el l IH]; simpl.
  - tauto.
  - destruct (same (frame el) f) eqn:E.
    + apply same_eq in E. split; [discriminate|]. intros H. exfalso. auto.
    + rewrite IH. split.
      * intros H [H1|H1]; [|auto]. rewrite H1, same_refl in E. discriminate.
      * tauto.
Qed.

Lemma with_frame_nil (f : num) (l : list node) :
  with_frame f l = [] <-> ~ In f (map frame (imgs l)).
Proof. apply same_frame_nil. Qed.

Lemma wanted_spec (cfg : settings) (l : list node) (g : Z) :
  wanted cfg l g = true <->
  ~ In (Int g) (map frame (imgs l)) /\ 1 <= g <= numImages cfg.
Proof.
  unfold wanted, gt. cbn [lt le].
  rewrite !andb_true_iff, length_zero, with_frame_nil, Z.ltb_lt, Z.leb_le.
  intuition lia.
Qed.

Lemma wanted_snoc (cfg : settings) (l : list node) (n : nat) (x : img)
    (g : Z) :
  frame x <> Int g -> wanted cfg (l ++ [element n x]) g = wanted cfg l g.
Proof.
  intros H. unfold wanted. rewrite with_frame_app.
  replace (with_frame (Int g) [element n x]) with (@nil img);
    [rewrite app_nil_r; reflexivity|].
  symmetry. apply with_frame_nil. simpl. tauto.
Qed.

Lemma append_fields (el : img) (s : state) :
  children (append el s) = children s ++ [element (nextId s) el] /\
  nextId (append el s) = S (nextId s) /\
  preloaded (append el s) = preloaded s /\
  preloadedBig (append el s) = preloadedBig s /\
  imgStrLen (append el s) = imgStrLen s.
Proof. repeat split. Qed.

Lemma bufferLoop_children (cfg : settings) (f : Z) (count : nat) :
  forall i s,
    children (bufferLoop cfg count i (Int f) s) =
    children s ++
    elements (nextId s)
      (map (fun g => generateImg cfg (Int g) false s)
           (filter (wanted cfg (children s)) (zrange (f + i) count))).
Proof.
  induction count as [|k IH]; intros i s.
  - simpl. rewrite app_nil_r. reflexivity.
  - cbn [bufferLoop zrange filter add].
    fold (wanted cfg (children s) (f + i)).
    rewrite IH. rewrite Z.add_assoc.
    destruct (wanted cfg (children s) (f + i)) eqn:W.
    + set (x := generateImg cfg (Int (f + i)) false s).
      set (s' := markAsPreloaded _ _).
      assert (Hc : children s' = children s ++ [element (nextId s) x])
        by (unfold s'; unfold_marks; reflexivity).
      assert (Hn : nextId s' = S (nextId s))
        by (unfold s'; unfold_marks; reflexivity).
      assert (Hb : preloadedBig s' = preloadedBig s)
        by (unfold s'; unfold_marks; reflexivity).
      assert (Hl : imgStrLen s' = imgStrLen s)
        by (unfold s'; unfold_marks; reflexivity).
      rewrite Hc, Hn, <- app_assoc. cbn [app map elements]. do 3 f_equal.
      rewrite (filter_ext_in (wanted cfg (children s ++ [element (nextId s) x]))
                 (wanted cfg (children s))).
      * apply map_ext. intros g. apply generateImg_ext; assumption.
      * intros g Hg. apply in_zrange in Hg. apply wanted_snoc.
        unfold x. rewrite (proj1 (generateImg_frame _ _ _ _)).
        intros E. injection E as E. lia.
    + reflexivity.
Qed.


(** ** Buffer maintenance *)

Lemma bufferFromFrame_children (cfg : settings) (f : Z) (s : state) :
  children (bufferFromFrame cfg (Int f) s) =
  kept cfg (Int f) (children s) ++
  (if room cfg (kept cfg (Int f) (children s))
   then elements (nextId s)
          (map (fun g => generateImg cfg (Int g) false s)
               (fresh cfg f (kept cfg (Int f) (children s))))
   else []).
Proof.
  unfold bufferFromFrame.
  match goal with
  | |- children (preload cfg ?x) = _ =>
      destruct (preload_quiet cfg x) as (_ & _ & _ & _ & _ & _ & _ & _ & Hc)
  end.
  rewrite Hc. clear Hc.
  fold (kept cfg (Int f) (children s)).
  cbn [children set_children set_buffering].
  fold (room cfg (kept cfg (Int f) (children s))).
  destruct (room cfg (kept cfg (Int f) (children s))).
  - rewrite bufferLoop_children. reflexivity.
  - cbn [children set_children]. rewrite app_nil_r. reflexivity.
Qed.


Lemma In_fresh (cfg : settings) (f g : Z) (l : list node) :
  In g (fresh cfg f l) <->
  loop_window cfg f g /\ ~ In (Int g) (map frame (imgs l)).
Proof.
  unfold fresh, loop_window.
  rewrite filter_In, in_zrange, wanted_spec. intuition lia.
Qed.




Lemma filter_all {A : Type} (p : A -> bool) (l : list A) :
  (forall x, In x l -> p x = true) -> filter p l = l.
Proof.
  induction l as [|a l IH]; simpl; intros H; [reflexivity|].
  rewrite (H a) by (left; reflexivity). f_equal. apply IH. auto.
Qed.

Lemma filter_none {A : Type} (p : A -> bool) (l : list A) :
  (forall x, In x l -> p x = false) -> filter p l = [].
Proof.
  induction l as [|a l IH]; simpl; intros H; [reflexivity|].
  rewrite (H a) by (left; reflexivity). apply IH. auto.
Qed.

Lemma In_elements (html : list img) :
  forall n c, In c (elements n html) ->
              exists k el, c = element k el /\ In el html.
Proof.
  induction html as [|el r IH]; intros n c; simpl; [tauto|].
  intros [<-|H]; [eauto|].
  destruct (IH _ _ H) as [k [el' [Hc Hin]]]. eauto.
Qed.





(** ** Preload marks *)

Lemma includes_snoc (l : list num) (f x : num) :
  includes (l ++ [f]) x = includes l x || strict_eq x f.
Proof.
  unfold includes. rewrite existsb_app. simpl. rewrite orb_false_r.
  reflexivity.
Qed.

Lemma fetches_snoc (t : tier) (i : Z) (tr : list event) (e : event) :
  fetches t i (tr ++ [e]) =
  (fetches t i tr + if is_fetch t i e then 1 else 0)%nat.
Proof.
  unfold fetches. rewrite filter_app, length_app. simpl.
  destruct (is_fetch t i e); reflexivity.
Qed.

Lemma is_fetch_not_Fetch (t : tier) (i : Z) (e : event) :
  is_Fetch e = false -> is_fetch t i e = false.
Proof. destruct e; try reflexivity. discriminate. Qed.

Lemma marked_markAsPreloaded (t : tier) (f : num) (s : state) (x : num) :
  includes (marked t s) x = true ->
  includes (marked t (markAsPreloaded f s)) x = true.
Proof.
  unfold markAsPreloaded. destruct (includes (preloaded s) f); [tauto|].
  destruct t; cbn [marked preloaded preloadedBig set_preloaded]; [|tauto].
  rewrite includes_snoc. intros ->. reflexivity.
Qed.

Lemma marked_markBigAsPreloaded (t : tier) (f : num) (s : state) (x : num) :
  includes (marked t s) x = true ->
  includes (marked t (markBigAsPreloaded f s)) x = true.
Proof.
  unfold markBigAsPreloaded. destruct (includes (preloadedBig s) f); [tauto|].
  destruct t; cbn [marked preloaded preloadedBig set_preloadedBig]; [tauto|].
  rewrite includes_snoc. intros ->. reflexivity.
Qed.

Lemma marked_onImagePreloaded (t u : tier) (f : num) (s : state) (x : num) :
  includes (marked t s) x = true ->
  includes (marked t (onImagePreloaded f u s)) x = true.
Proof.
  intros H. unfold onImagePreloaded.
  change (marked t (emit SetTimeoutPreload ?y)) with (marked t y).
  destruct u; [apply marked_markAsPreloaded|apply marked_markBigAsPreloaded];
    exact H.
Qed.

(** [onImagePreloaded(i, type)] marks [i] at that tier. *)
Lemma onImagePreloaded_marks (t : tier) (i : Z) (s : state) :
  includes (marked t (onImagePreloaded (Int i) t s)) (Int i) = true.
Proof.
  unfold onImagePreloaded.
  change (marked t (emit SetTimeoutPreload ?y)) with (marked t y).
  destruct t; cbn [marked]; unfold markAsPreloaded, markBigAsPreloaded.
  - destruct (includes (preloaded s) (Int i)) eqn:E; [exact E|].
    cbn [preloaded set_preloaded]. rewrite includes_snoc, strict_eq_Int.
    rewrite Z.eqb_refl. apply orb_true_r.
  - destruct (includes (preloadedBig s) (Int i)) eqn:E; [exact E|].
    cbn [preloadedBig set_preloadedBig]. rewrite includes_snoc, strict_eq_Int.
    rewrite Z.eqb_refl. apply orb_true_r.
Qed.

Lemma trace_onImagePreloaded (f : num) (t : tier) (s : state) :
  trace (onImagePreloaded f t s) = trace s ++ [SetTimeoutPreload].
Proof. unfold_marks; reflexivity. Qed.

Lemma trace_markAsPreloaded (f : num) (s : state) :
  trace (markAsPreloaded f s) = trace s.
Proof. unfold_marks; reflexivity. Qed.

Lemma fetch_rel_same (t : tier) (i : Z) (s s' : state) :
  (includes (marked t s) (Int i) = true ->
   includes (marked t s') (Int i) = true) ->
  fetches t i (trace s') = fetches t i (trace s) ->
  fetch_rel t i s s'.
Proof. intros Hm Hf. split; intros H; auto. Qed.

Lemma closed_fetch_rel (cfg : settings) (t : tier) (i : Z) :
  closed cfg (fetch_rel t i) any_change any_document any_frame True.
Proof.
  constructor; intros; try exact I;
    try (apply fetch_rel_same; [tauto|reflexivity]).
  - (* transitivity *)
    destruct H as [A1 B1], H0 as [A2 B2]. split; intros Hm.
    + destruct (A1 Hm) as [Hm2 E1]. destruct (A2 Hm2) as [Hm3 E2].
      split; [exact Hm3|congruence].
    + destruct (B1 Hm) as [E1|[E1 Hm2]].
      * destruct (includes (marked t s2) (Int i)) eqn:Hm2.
        -- destruct (A2 eq_refl) as [Hm3 E2]. left. congruence.
        -- destruct (B2 eq_refl) as [E2|[E2 Hm3]]; [left|right; split];
             congruence.
      * destruct (A2 Hm2) as [Hm3 E2]. right. split; congruence.
  - (* markBigAsPreloaded *)
    apply fetch_rel_same; [apply marked_markBigAsPreloaded|].
    unfold markBigAsPreloaded. destruct (includes _ _); reflexivity.
  - (* emit *)
    apply fetch_rel_same; [tauto|].
    cbn [trace emit]. rewrite fetches_snoc, is_fetch_not_Fetch by assumption.
    apply Nat.add_0_r.
  - (* markAsPreloaded *)
    apply fetch_rel_same; [apply marked_markAsPreloaded|].
    rewrite trace_markAsPreloaded. reflexivity.
  - (* preloadNext's fetch *)
    assert (Ht : fetches t i
                   (trace (emit (Fetch t0 i0 url)
                             (onImagePreloaded (Int i0) t0 s))) =
                 (fetches t i (trace s)
                  + if is_fetch t i (Fetch t0 i0 url) then 1 else 0)%nat).
    { cbn [trace emit]. rewrite trace_onImagePreloaded, !fetches_snoc.
      cbn [is_fetch]. lia. }
    destruct (is_fetch t i (Fetch t0 i0 url)) eqn:F.
    + assert (t0 = t /\ i0 = i) as [-> ->].
      { destruct t0, t; simpl in F; try discriminate;
          apply Z.eqb_eq in F; auto. }
      split; intros Hm; [congruence|].
      right. split; [lia|].
      change (marked t (emit ?e ?y)) with (marked t y).
      apply onImagePreloaded_marks.
    + apply fetch_rel_same; [|lia].
      change (marked t (emit ?e ?y)) with (marked t y).
      apply marked_onImagePreloaded.
  - (* onImagePreloaded *)
    apply fetch_rel_same; [apply marked_onImagePreloaded|].
    rewrite trace_onImagePreloaded, fetches_snoc. cbn [is_fetch]. lia.
Qed.

Lemma every_call_ok (l : list call) :
  Forall (call_ok any_document any_frame True) l.
Proof.
  induction l as [|c l IH]; constructor; [|exact IH].
  destruct c; exact I.
Qed.

(** C7: once frame [i] is marked at a tier ([preloaded] for low, [preloadedBig]
    for high resolution), it stays marked and no call of [preloadNext] in any
    later sequence of calls fetches it at that tier; and in every sequence of
    calls [preloadNext] fetches a frame at a tier at most once, marking it as
    it does. *)
Theorem C7_never_fetched_twice
    (cfg : settings) (t : tier) (i : Z) (calls : list call) (s : state) :
  (includes (marked t s) (Int i) = true ->
   includes (marked t (run cfg calls s)) (Int i) = true /\
   fetches t i (trace (run cfg calls s)) = fetches t i (trace s)) /\
  (fetches t i (trace (run cfg calls s)) <= S (fetches t i (trace s)))%nat /\
  (fetches t i (trace (run cfg calls s)) = S (fetches t i (trace s)) ->
   includes (marked t (run cfg calls s)) (Int i) = true).
Proof.
  destruct (P_run cfg _ _ _ _ _ (closed_fetch_rel cfg t i) calls
              (every_call_ok calls) s) as [A B].
  split; [exact A|].
  destruct (includes (marked t s) (Int i)) eqn:Hm.
  - destruct (A eq_refl) as [Hm' E]. split; [lia|]. intros _. exact Hm'.
  - destruct (B eq_refl) as [E|[E Hm']]; split; try lia.
    intros _. exact Hm'.
Qed.

Lemma C7_never_fetched_twice_witness :
  let cfg := sample 3 1 false in
  let s := preloadNext cfg Low initial in
  let calls := [CPreload; CShowFrame (Int 2); CPreloadNext Low; CPreload] in
  includes (marked Low (run cfg calls s)) (Int 1) = true /\
  fetches Low 1 (trace (run cfg calls s)) = fetches Low 1 (trace s).
Proof.
  intros cfg s calls.
  apply (proj1 (C7_never_fetched_twice cfg Low 1 calls s)).
  vm_compute. reflexivity.
Defined.

(** ** No frame index is marked twice *)

Lemma occurrences_snoc (z : Z) (l : list num) (f : num) :
  occurrences z (l ++ [f]) =
  (occurrences z l + if strict_eq (Int z) f then 1 else 0)%nat.
Proof.
  unfold occurrences. rewrite filter_app, length_app. cbn [filter].
  destruct (strict_eq (Int z) f); reflexivity.
Qed.

Lemma occurrences_absent (z : Z) (l : list num) :
  includes l (Int z) = false -> occurrences z l = 0%nat.
Proof.
  unfold includes, occurrences. induction l as [|x l IH]; simpl.
  - reflexivity.
  - intros H. apply orb_false_iff in H. destruct H as [H1 H2].
    rewrite H1. apply IH, H2.
Qed.

Lemma duplicate_free_push (l : list num) (f : num) :
  duplicate_free l -> includes l f = false -> duplicate_free (l ++ [f]).
Proof.
  intros Hl Hf z. rewrite occurrences_snoc.
  destruct (strict_eq (Int z) f) eqn:E.
  - apply strict_eq_eq in E. subst f.
    rewrite (occurrences_absent z l Hf). simpl. lia.
  - specialize (Hl z). lia.
Qed.

Lemma markAsPreloaded_duplicate_free (f : num) (s : state) :
  keeps_duplicate_free s (markAsPreloaded f s).
Proof.
  unfold keeps_duplicate_free, markAsPreloaded.
  destruct (includes (preloaded s) f) eqn:E; [tauto|].
  cbn [preloaded preloadedBig set_preloaded]. intros [H1 H2].
  split; [apply duplicate_free_push; assumption|exact H2].
Qed.

Lemma markBigAsPreloaded_duplicate_free (f : num) (s : state) :
  keeps_duplicate_free s (markBigAsPreloaded f s).
Proof.
  unfold keeps_duplicate_free, markBigAsPreloaded.
  destruct (includes (preloadedBig s) f) eqn:E; [tauto|].
  cbn [preloaded preloadedBig set_preloadedBig]. intros [H1 H2].
  split; [exact H1|apply duplicate_free_push; assumption].
Qed.

Lemma onImagePreloaded_duplicate_free (f : num) (t : tier) (s : state) :
  keeps_duplicate_free s (onImagePreloaded f t s).
Proof.
  unfold onImagePreloaded, keeps_duplicate_free.
  cbn [preloaded preloadedBig emit].
  destruct t;
    [apply markAsPreloaded_duplicate_free
    |apply markBigAsPreloaded_duplicate_free].
Qed.

Lemma closed_keeps_duplicate_free (cfg : settings) :
  closed cfg keeps_duplicate_free any_change any_document any_frame True.
Proof.
  constructor; intros; try exact I;
    try (unfold keeps_duplicate_free in *; tauto).
  - apply markBigAsPreloaded_duplicate_free.
  - apply markAsPreloaded_duplicate_free.
  - unfold keeps_duplicate_free. cbn [preloaded preloadedBig emit].
    apply onImagePreloaded_duplicate_free.
  - apply onImagePreloaded_duplicate_free.
Qed.

Lemma markAsPreloaded_idempotent (f : num) (s : state) :
  includes (preloaded s) f = true -> markAsPreloaded f s = s.
Proof. unfold markAsPreloaded. intros ->. reflexivity. Qed.

Lemma markBigAsPreloaded_idempotent (f : num) (s : state) :
  includes (preloadedBig s) f = true -> markBigAsPreloaded f s = s.
Proof. unfold markBigAsPreloaded. intros ->. reflexivity. Qed.

(** C10: [markAsPreloaded(f)] and [markBigAsPreloaded(f)] leave their array
    unchanged when [f] is a member, so marking a frame index a second time
    changes nothing; and when no frame index occurs twice in [preloaded] and
    [preloadedBig], none does after any sequence of calls, among them
    [showFrame], [bufferFromFrame] and [onImagePreloaded].  Both arrays start
    empty. *)
Theorem C10_marks_duplicate_free
    (cfg : settings) (z : Z) (calls : list call) (s : state) :
  (includes (preloaded s) (Int z) = true ->
   preloaded (markAsPreloaded (Int z) s) = preloaded s) /\
  (includes (preloadedBig s) (Int z) = true ->
   preloadedBig (markBigAsPreloaded (Int z) s) = preloadedBig s) /\
  markAsPreloaded (Int z) (markAsPreloaded (Int z) s)
  = markAsPreloaded (Int z) s /\
  markBigAsPreloaded (Int z) (markBigAsPreloaded (Int z) s)
  = markBigAsPreloaded (Int z) s /\
  (duplicate_free (preloaded s) /\ duplicate_free (preloadedBig s) ->
   duplicate_free (preloaded (run cfg calls s)) /\
   duplicate_free (preloadedBig (run cfg calls s))) /\
  duplicate_free (preloaded initial) /\
  duplicate_free (preloadedBig initial).
Proof.
  split; [|split; [|split; [|split; [|split; [|split]]]]].
  - intros H. rewrite markAsPreloaded_idempotent by exact H. reflexivity.
  - intros H. rewrite markBigAsPreloaded_idempotent by exact H. reflexivity.
  - apply markAsPreloaded_idempotent.
    generalize (onImagePreloaded_marks Low z s).
    unfold onImagePreloaded. cbn [marked preloaded emit]. tauto.
  - apply markBigAsPreloaded_idempotent.
    generalize (onImagePreloaded_marks High z s).
    unfold onImagePreloaded. cbn [marked preloadedBig emit]. tauto.
  - apply (P_run cfg _ _ _ _ _ (closed_keeps_duplicate_free cfg) calls
             (every_call_ok calls) s).
  - intros k. unfold occurrences. simpl. lia.
  - intros k. unfold occurrences. simpl. lia.
Qed.

Lemma C10_marks_duplicate_free_witness :
  let cfg := sample 5 2 false in
  let s := run cfg [CShowFrame (Int 2)] initial in
  let calls := [CShowFrame (Int 3); CBufferFromFrame (Int 2);
                COnImagePreloaded 3 Low; COnImagePreloaded 3 High] in
  preloaded (markAsPreloaded (Int 2) s) = preloaded s /\
  (duplicate_free (preloaded (run cfg calls s)) /\
   duplicate_free (preloadedBig (run cfg calls s))).
Proof.
  intros cfg s calls.
  pose proof (C10_marks_duplicate_free cfg 2 calls s) as H.
  split.
  - apply (proj1 H). vm_compute. reflexivity.
  - apply (proj1 (proj2 (proj2 (proj2 (proj2 H))))).
    apply (P_run cfg _ _ _ _ _ (closed_keeps_duplicate_free cfg)
             [CShowFrame (Int 2)] (every_call_ok _) initial).
    split; intros k; unfold occurrences; simpl; lia.
Defined.

(** ** The display surface *)

Lemma NoDup_snoc {A : Type} (l : list A) (a : A) :
  NoDup l -> ~ In a l -> NoDup (l ++ [a]).
Proof.
  induction 1 as [|x l Hx Hl IH]; simpl; intros Ha.
  - constructor; [tauto|constructor].
  - constructor.
    + rewrite in_app_iff. simpl. intuition congruence.
    + apply IH. tauto.
Qed.

Lemma In_imgs (el : img) (l : list node) : In el (imgs l) <-> In (Img el) l.
Proof.
  induction l as [|[x|b] l IH]; simpl.
  - tauto.
  - rewrite IH. split; intros [H|H]; auto; left; congruence.
  - rewrite IH. split; [auto|]. intros [H|H]; [discriminate|exact H].
Qed.

Lemma distinct_filter (p : node -> bool) (l : list node) :
  distinct_frames l -> distinct_frames (filter p l).
Proof.
  unfold distinct_frames.
  induction l as [|[el|b] l IH]; simpl; intros H.
  - constructor.
  - inversion H as [|x r Hx Hr]; subst.
    destruct (p (Img el)); simpl; [|apply IH, Hr].
    constructor; [|apply IH, Hr].
    intros Hin. apply Hx. apply in_map_iff in Hin.
    destruct Hin as [y [Hy Hin]]. rewrite <- Hy. apply in_map.
    apply In_imgs. apply In_imgs in Hin. apply filter_In in Hin. tauto.
  - destruct (p (Span b)); simpl; apply IH, H.
Qed.

Lemma frames_relabel (g : node -> node) (l : list node) :
  (forall c, node_key (g c) = node_key c) ->
  map frame (imgs (map g l)) = map frame (imgs l) /\
  map id (imgs (map g l)) = map id (imgs l).
Proof.
  intros Hg. induction l as [|c l IH]; simpl; [split; reflexivity|].
  specialize (Hg c). destruct IH as [IH1 IH2].
  destruct c as [el|b], (g _) as [el'|b'];
    simpl in *; try discriminate; [|split; assumption].
  injection Hg as Hi Hg. rewrite Hi, Hg, IH1, IH2. split; reflexivity.
Qed.

(** Outside [upgradeLoaded], every call keeps the frames of the attached
    images distinct. *)
Lemma closed_keeps_distinct_frames (cfg : settings) :
  closed cfg keeps_distinct_frames keeps_distinct any_document any_frame
    False.
Proof.
  constructor;
    unfold keeps_distinct_frames, keeps_distinct, any_document, any_frame;
    intros; try exact I; try tauto; try (unfold_marks; tauto).
  - apply distinct_filter. assumption.
  - unfold distinct_frames in *.
    rewrite (proj1 (frames_relabel _ _ H)). assumption.
  - unfold distinct_frames in *. cbn [children append set_nextId
                                        set_children].
    rewrite imgs_app, map_app.
    apply NoDup_snoc; [assumption|].
    apply with_frame_nil. assumption.
Qed.

Lemma closed_extends (cfg : settings) :
  closed cfg extends any_change any_document any_frame True.
Proof.
  constructor; intros; try exact I; unfold extends in *;
    try (exists []; rewrite app_nil_r; reflexivity).
  - destruct H as [e1 H1], H0 as [e2 H2]. exists (e1 ++ e2).
    rewrite H2, H1, app_assoc. reflexivity.
  - exists []. rewrite app_nil_r. unfold_marks; reflexivity.
  - exists [e]. reflexivity.
  - exists []. rewrite app_nil_r. apply trace_markAsPreloaded.
  - exists [SetTimeoutPreload; Fetch t i url]. cbn [trace emit].
    rewrite trace_onImagePreloaded, <- app_assoc. reflexivity.
  - exists [SetTimeoutPreload]. apply trace_onImagePreloaded.
Qed.

Lemma showFrame_unfold (cfg : settings) (fr : num) (s : state) :
  showFrame cfg fr s =
  bufferFromFrame cfg fr
    (markAsPreloaded fr
       (set_children (display fr (children s))
          (if onShowFrame cfg then emit (OnShowFrame fr) s else s))).
Proof.
  unfold showFrame, display. do 2 f_equal.
  destruct (onShowFrame cfg); cbn [children set_children emit];
    rewrite map_map; reflexivity.
Qed.

Lemma display_visible (fr : num) (l : list node) (el : img) :
  In (Img el) (display fr l) -> (visible el = true <-> frame el = fr).
Proof.
  unfold display. rewrite in_map_iff. intros [[x|b] [Hx _]];
    [|discriminate].
  cbn [hide_node show_frame frame hide] in Hx.
  destruct (same (frame x) fr) eqn:E; injection Hx as <-; simpl.
  - apply same_eq in E. tauto.
  - split; [discriminate|]. intros H. rewrite H, same_refl in E.
    discriminate.
Qed.

Lemma at_most_one (fr : num) (l : list img) :
  NoDup (map frame l) ->
  (List.length (filter (fun el => same (frame el) fr) l) <= 1)%nat.
Proof.
  induction l as [|a l IH]; simpl; intros H.
  - lia.
  - inversion H as [|x r Hx Hr]; subst.
    destruct (same (frame a) fr) eqn:E; [|apply IH, Hr].
    apply same_eq in E.
    replace (filter (fun el => same (frame el) fr) l) with (@nil img);
      [simpl; lia|].
    symmetry. apply filter_none. intros el Hel.
    destruct (same (frame el) fr) eqn:E2; [|reflexivity].
    apply same_eq in E2. exfalso. apply Hx. rewrite E, <- E2.
    apply in_map, Hel.
Qed.

Lemma filter_length_le {A : Type} (p : A -> bool) (l : list A) :
  (List.length (filter p l) <= List.length l)%nat.
Proof.
  induction l as [|a l IH]; simpl; [lia|].
  destruct (p a); simpl; lia.
Qed.

Lemma filter_comm {A : Type} (p q : A -> bool) (l : list A) :
  filter p (filter q l) = filter q (filter p l).
Proof.
  induction l as [|a l IH]; simpl; [reflexivity|].
  destruct (p a) eqn:Ep, (q a) eqn:Eq; simpl; rewrite ?Ep, ?Eq, IH;
    reflexivity.
Qed.

Lemma display_visible_count (fr : num) (l : list node) :
  List.length (filter visible (imgs (display fr l))) =
  List.length (filter (fun el => same (frame el) fr) (imgs l)).
Proof.
  unfold display. induction l as [|[a|b] l IH]; simpl;
    [reflexivity| |exact IH].
  destruct (same (frame a) fr); simpl; rewrite IH; reflexivity.
Qed.

Lemma markAsPreloaded_marks (z : Z) (s : state) :
  includes (preloaded (markAsPreloaded (Int z) s)) (Int z) = true.
Proof.
  generalize (onImagePreloaded_marks Low z s).
  unfold onImagePreloaded. cbn [marked preloaded emit]. tauto.
Qed.

Lemma showFrame_children (cfg : settings) (f : Z) (s : state) :
  exists hidden,
    children (showFrame cfg (Int f) s) =
    kept cfg (Int f) (display (Int f) (children s)) ++ hidden /\
    forall el, In el (imgs hidden) -> visible el = false.
Proof.
  rewrite showFrame_unfold, bufferFromFrame_children.
  set (s' := markAsPreloaded _ _).
  assert (Hc : children s' = display (Int f) (children s)).
  { unfold s'. destruct (markAsPreloaded_quiet (Int f)
      (set_children (display (Int f) (children s))
         (if onShowFrame cfg then emit (OnShowFrame (Int f)) s else s)))
      as (_ & _ & _ & _ & _ & _ & _ & _ & H).
    rewrite H. reflexivity. }
  rewrite Hc. eexists. split; [reflexivity|].
  intros el Hel. destruct (room cfg _); [|destruct Hel].
  apply In_imgs, In_elements in Hel.
  destruct Hel as [k [x [Hx Hin]]]. injection Hx as ->.
  apply in_map_iff in Hin. destruct Hin as [g [<- _]].
  apply generateImg_frame.
Qed.

(** What [showFrame(f)] does: it calls the [onShowFrame] callback, when there
    is one, with [f] before anything else; hides every child but the images
    of frame [f], which it shows; marks [f] as preloaded; and hands over to
    [bufferFromFrame(f)].  Afterwards every visible image is one of frame
    [f]; so at most one image is visible whenever no two attached images
    share a frame, which holds at the start and is kept by every call but
    [upgradeLoaded]. *)
Lemma showFrame_effects
    (cfg : settings) (f : Z) (s : state) (calls : list call) :
  showFrame cfg (Int f) s =
    bufferFromFrame cfg (Int f)
      (markAsPreloaded (Int f)
         (set_children (display (Int f) (children s))
            (if onShowFrame cfg then emit (OnShowFrame (Int f)) s else s)))
  /\
  (exists rest,
      trace (showFrame cfg (Int f) s) =
      trace s ++ (if onShowFrame cfg then [OnShowFrame (Int f)] else [])
              ++ rest) /\
  (forall el, In (Img el) (display (Int f) (children s)) ->
              (visible el = true <-> frame el = Int f)) /\
  includes (preloaded (showFrame cfg (Int f) s)) (Int f) = true /\
  (forall el, In (Img el) (children (showFrame cfg (Int f) s)) ->
              visible el = true -> frame el = Int f) /\
  (distinct_frames (children s) ->
   (visible_count (showFrame cfg (Int f) s) <= 1)%nat /\
   distinct_frames (children (showFrame cfg (Int f) s))) /\
  (distinct_frames (children s) ->
   Forall (call_ok any_document any_frame False) calls ->
   distinct_frames (children (run cfg calls s))) /\
  distinct_frames (children initial).
Proof.
  split; [apply showFrame_unfold|].
  split.
  { rewrite showFrame_unfold.
    set (s0 := if onShowFrame cfg then _ else _).
    set (s1 := markAsPreloaded _ _).
    destruct (P_bufferFromFrame cfg _ _ _ _ _ (closed_extends cfg)
                (Int f) s1 I) as [rest Hrest].
    exists rest. rewrite Hrest. unfold s1.
    rewrite trace_markAsPreloaded. cbn [trace set_children].
    unfold s0. destruct (onShowFrame cfg); cbn [trace emit].
    - rewrite <- !app_assoc. reflexivity.
    - reflexivity. }
  split; [intros el; apply display_visible|].
  split.
  { rewrite showFrame_unfold.
    set (s1 := markAsPreloaded _ _).
    destruct (P_bufferFromFrame cfg _ _ _ _ _ (closed_fetch_rel cfg Low f)
                (Int f) s1 I) as [A _].
    apply A. apply markAsPreloaded_marks. }
  destruct (showFrame_children cfg f s) as [hidden [Hc Hh]].
  split.
  { intros el Hel Hv. rewrite Hc in Hel. apply in_app_iff in Hel.
    destruct Hel as [Hel|Hel].
    - apply filter_In in Hel. destruct Hel as [Hel _].
      apply (display_visible _ _ _ Hel), Hv.
    - apply In_imgs in Hel. rewrite (Hh el Hel) in Hv. discriminate. }
  split.
  { intros Hd. split.
    - unfold visible_count. rewrite Hc, imgs_app, filter_app, length_app.
      rewrite (filter_none visible (imgs hidden) Hh). simpl.
      rewrite imgs_kept, filter_comm.
      pose proof (filter_length_le
                    (fun el => negb (outside cfg (Int f) el))
                    (filter visible (imgs (display (Int f) (children s)))))
        as H1.
      rewrite display_visible_count in H1.
      pose proof (at_most_one (Int f) (imgs (children s)) Hd). lia.
    - apply (P_showFrame cfg _ _ _ _ _ (closed_keeps_distinct_frames cfg)
               (Int f) s I Hd). }
  split.
  - intros Hd Hcalls.
    apply (P_run cfg _ _ _ _ _ (closed_keeps_distinct_frames cfg) calls
             Hcalls s Hd).
  - constructor.
Qed.

(** C8: [showFrame(7)] leaves two images visible in the session below.  When
    the staged image of frame 7 has loaded, [upgradeLoaded] reads the global
    [$frame], which the settle at frame 5 has meanwhile set to the (already
    upgraded) image of frame 5: the high-resolution image of frame 7 takes the
    place of that image, next to the low-resolution image of frame 7.  The
    next [showFrame(7)], run by the scroll to frame 7, shows both. *)
Theorem C8_two_images_visible :
  let cfg := extend defaults upgrade_options in
  let s0 := final (init 1 (Some upgrade_options) true at_frame_5 defaults
                     initial) in
  let s := run cfg session s0 in
  init 1 (Some upgrade_options) true at_frame_5 defaults initial
  = Returns cfg s0 /\
  occurrences 7 (attached s) = 2%nat /\
  visible_count (showFrame cfg (Int 7) s) = 2%nat /\
  visible_count (run cfg [CScroll at_frame_7] s) = 2%nat.
Proof. vm_compute. repeat split. Qed.

(** ** Element identity, and an upgrade that completes undisturbed *)

Lemma keyed_filter {K : Type} (k : img -> K) (p : node -> bool)
    (l : list node) :
  NoDup (map k (imgs l)) -> NoDup (map k (imgs (filter p l))).
Proof.
  induction l as [|[el|b] l IH]; simpl; intros H.
  - constructor.
  - inversion H as [|x r Hx Hr]; subst.
    destruct (p (Img el)); simpl; [|apply IH, Hr].
    constructor; [|apply IH, Hr].
    intros Hin. apply Hx. apply in_map_iff in Hin.
    destruct Hin as [y [Hy Hin]]. rewrite <- Hy. apply in_map.
    apply In_imgs. apply In_imgs in Hin. apply filter_In in Hin. tauto.
  - destruct (p (Span b)); simpl; apply IH, H.
Qed.

Lemma bounded_filter (bound : nat) (p : node -> bool) (l : list node) :
  Forall (fun i => (i < bound)%nat) (map id (imgs l)) ->
  Forall (fun i => (i < bound)%nat) (map id (imgs (filter p l))).
Proof.
  rewrite !Forall_forall. intros H i Hi. apply H.
  apply in_map_iff in Hi. destruct Hi as [el [<- Hel]].
  apply in_map. apply In_imgs. apply In_imgs in Hel.
  apply filter_In in Hel. tauto.
Qed.

Lemma ids_ok_filter (bound : nat) (p : node -> bool) (l : list node) :
  ids_ok_list bound l -> ids_ok_list bound (filter p l).
Proof.
  intros [H1 H2]. split; [apply keyed_filter|apply bounded_filter];
    assumption.
Qed.

Lemma Forall_lt_le (a b : nat) (l : list nat) :
  (a <= b)%nat -> Forall (fun i => (i < a)%nat) l ->
  Forall (fun i => (i < b)%nat) l.
Proof.
  intros Hab H. eapply Forall_impl; [|exact H]. simpl. intros. lia.
Qed.

Lemma closed_keeps_ids (cfg : settings) :
  closed cfg keeps_ids keeps_ids_list any_document any_frame False.
Proof.
  constructor;
    unfold keeps_ids, keeps_ids_list, ids_ok, any_document, any_frame;
    intros; try exact I; try tauto; try (unfold_marks; tauto);
    try (cbn [children nextId set_children]; auto; fail).
  - apply ids_ok_filter. assumption.
  - unfold ids_ok_list in *.
    rewrite (proj2 (frames_relabel _ _ H)). assumption.
  - destruct H1 as [Hn Hb]. unfold ids_ok_list.
    cbn [children nextId append set_nextId set_children].
    rewrite imgs_app, map_app. cbn [imgs element map id stamp app].
    split.
    + apply NoDup_snoc; [exact Hn|].
      intros Hin. rewrite Forall_forall in Hb. specialize (Hb _ Hin). lia.
    + apply Forall_app. split.
      * eapply Forall_lt_le; [|exact Hb]. lia.
      * constructor; [lia|constructor].
Qed.

Lemma ids_elements (html : list img) :
  forall n, map id (imgs (elements n html)) = seq n (List.length html).
Proof.
  induction html as [|el r IH]; intros n; simpl; [reflexivity|].
  rewrite IH. reflexivity.
Qed.

(** [$frame.after(html)] gives the new elements the next unused numbers. *)
Lemma after_ids (targets : list nat) (html : list img) (b : nat)
    (l : list node) :
  forall n,
    (b <= n)%nat -> ids_ok_list b l ->
    (n <= snd (after targets html n l))%nat /\
    NoDup (map id (imgs (fst (after targets html n l)))) /\
    (forall i, In i (map id (imgs (fst (after targets html n l)))) ->
               In i (map id (imgs l)) \/
               (n <= i < snd (after targets html n l))%nat).
Proof.
  induction l as [|c l IH]; intros n Hbn [Hn Hb].
  - simpl. repeat split; [lia|constructor|tauto].
  - cbn [after].
    assert (Hl : ids_ok_list b l).
    { destruct c as [el|sp]; simpl in *; [|split; assumption].
      inversion Hn; inversion Hb; subst. split; assumption. }
    assert (Hold : forall i, In i (map id (imgs l)) -> (i < b)%nat).
    { destruct Hl as [_ Hl]. rewrite Forall_forall in Hl. exact Hl. }
    destruct (among targets c).
    + destruct (IH (n + List.length html)%nat) as (H1 & H2 & H3);
        [lia|exact Hl|].
      destruct (after targets html (n + List.length html) l) as [r' n'].
      cbn [fst snd] in *.
      assert (M1 : NoDup (map id (imgs (elements n html ++ r')))).
      { rewrite imgs_app, map_app, ids_elements.
        apply NoDup_app; [apply seq_NoDup|exact H2|].
        intros i Hi Hr. apply in_seq in Hi.
        destruct (H3 _ Hr) as [Ho|Hnew]; [apply Hold in Ho|]; lia. }
      assert (M2 : forall i,
                 In i (map id (imgs (elements n html ++ r'))) ->
                 In i (map id (imgs l)) \/ (n <= i < n')%nat).
      { intros i. rewrite imgs_app, map_app, ids_elements, in_app_iff.
        intros [Hi|Hi].
        - apply in_seq in Hi. right. lia.
        - destruct (H3 _ Hi) as [Ho|Hnew]; [left; exact Ho|right; lia]. }
      destruct c as [el|sp]; cbn [imgs map app].
      * inversion Hn as [|x r Hx Hr]; inversion Hb as [|y r2 Hy Hr2]; subst.
        split; [lia|]. split.
        -- constructor; [|exact M1].
           intros Hin. destruct (M2 _ Hin) as [Ho|Hnew]; [tauto|lia].
        -- intros i [<-|Hi]; [left; left; reflexivity|].
           destruct (M2 _ Hi) as [Ho|Hnew]; [left; right; exact Ho|tauto].
      * split; [lia|]. split; [exact M1|exact M2].
    + destruct (IH n Hbn Hl) as (H1 & H2 & H3).
      destruct (after targets html n l) as [r' n'].
      cbn [fst snd] in *.
      destruct c as [el|sp]; cbn [imgs map].
      * inversion Hn as [|x r Hx Hr]; inversion Hb as [|y r2 Hy Hr2]; subst.
        split; [exact H1|]. split.
        -- constructor; [|exact H2]. intros Hin.
           destruct (H3 _ Hin) as [Ho|Hnew]; [tauto|lia].
        -- intros i [<-|Hi]; [left; left; reflexivity|].
           destruct (H3 _ Hi) as [Ho|Hnew]; [left; right; exact Ho|tauto].
      * repeat split; assumption.
Qed.

Lemma show_next_keys (targets : list nat) (l : list node) :
  forall follows,
    map id (imgs (show_next targets follows l)) = map id (imgs l) /\
    map frame (imgs (show_next targets follows l)) = map frame (imgs l).
Proof.
  induction l as [|c l IH]; intros follows; cbn [show_next];
    [split; reflexivity|].
  destruct (IH (among targets c)) as [H1 H2].
  destruct c as [el|sp], follows; cbn [show_img imgs map];
    rewrite ?H1, ?H2; split; reflexivity.
Qed.

(** [upgradeLoaded] keeps the [id]s distinct and below [nextId]. *)
Lemma upgradeLoaded_ids (fr : num) (s : state) :
  ids_ok s -> ids_ok (upgradeLoaded fr s).
Proof.
  intros Hs. unfold upgradeLoaded.
  destruct (upgradeWrapper s) as [html|]; [|exact Hs].
  destruct (after_ids (frame_ s) html (nextId s) (children s) (nextId s)
              (le_n _) Hs) as (H1 & H2 & H3).
  destruct (after (frame_ s) html (nextId s) (children s)) as [l1 n].
  cbn [fst snd] in *.
  unfold ids_ok, markBigAsPreloaded.
  destruct (includes _ _);
    cbn [children nextId set_preloadedBig set_upgradeWrapper set_nextId
           set_children];
    (apply ids_ok_filter; split;
     [rewrite (proj1 (show_next_keys _ _ _)); exact H2
     |rewrite (proj1 (show_next_keys _ _ _)); apply Forall_forall;
      intros i Hi; destruct (H3 _ Hi) as [Ho|Hnew]; [|lia];
      destruct Hs as [_ Hb]; rewrite Forall_forall in Hb;
      specialize (Hb _ Ho); lia]).
Qed.

(** Every call keeps the [id]s distinct and below [nextId]. *)
Lemma run_ids (cfg : settings) (calls : list call) :
  forall s, ids_ok s -> ids_ok (run cfg calls s).
Proof.
  induction calls as [|c calls IH]; intros s Hs; [exact Hs|].
  simpl. apply IH.
  destruct c;
    try (apply (P_exec cfg _ _ _ _ _ (closed_keeps_ids cfg) _ s);
         [exact I|exact Hs]).
  apply upgradeLoaded_ids, Hs.
Qed.

Lemma after_none (targets : list nat) (html : list img) (l : list node) :
  (forall c, In c l -> among targets c = false) ->
  forall n, after targets html n l = (l, n).
Proof.
  induction l as [|c l IH]; intros H n; cbn [after]; [reflexivity|].
  rewrite (H c) by (left; reflexivity).
  rewrite IH by (intros; apply H; right; assumption). reflexivity.
Qed.

Lemma after_skip (targets : list nat) (html : list img)
    (pre l : list node) :
  (forall c, In c pre -> among targets c = false) ->
  forall n,
    after targets html n (pre ++ l) =
    (pre ++ fst (after targets html n l), snd (after targets html n l)).
Proof.
  induction pre as [|c pre IH]; intros H n; cbn [after app].
  - destruct (after targets html n l). reflexivity.
  - rewrite (H c) by (left; reflexivity).
    rewrite IH by (intros; apply H; right; assumption). reflexivity.
Qed.

Lemma show_next_none (targets : list nat) (l : list node) :
  (forall c, In c l -> among targets c = false) ->
  show_next targets false l = l.
Proof.
  induction l as [|c l IH]; intros H; cbn [show_next]; [reflexivity|].
  rewrite (H c) by (left; reflexivity).
  rewrite IH by (intros; apply H; right; assumption). reflexivity.
Qed.

Lemma show_next_skip (targets : list nat) (pre l : list node) :
  (forall c, In c pre -> among targets c = false) ->
  show_next targets false (pre ++ l) = pre ++ show_next targets false l.
Proof.
  induction pre as [|c pre IH]; intros H; cbn [show_next app];
    [reflexivity|].
  rewrite (H c) by (left; reflexivity).
  rewrite IH by (intros; apply H; right; assumption). reflexivity.
Qed.

Lemma among_one (i : nat) (c : node) :
  among [i] c = true <-> exists el, c = Img el /\ id el = i.
Proof.
  destruct c as [el|b]; simpl.
  - rewrite orb_false_r, Nat.eqb_eq. split; [eauto|].
    intros [x [Hx <-]]. injection Hx as ->. reflexivity.
  - split; [discriminate|]. intros [x [Hx _]]. discriminate.
Qed.

Lemma among_other (i : nat) (l : list node) :
  ~ In i (map id (imgs l)) -> forall c, In c l -> among [i] c = false.
Proof.
  intros H c Hc. destruct (among [i] c) eqn:E; [|reflexivity].
  apply among_one in E. destruct E as [el [-> Hid]].
  exfalso. apply H. rewrite <- Hid. apply in_map, In_imgs, Hc.
Qed.

(** When [$frame] holds one attached image and the staging area one image,
    [upgradeLoaded] puts the staged image, shown, in the place of that
    image. *)
Lemma upgradeLoaded_replaces (fr : num) (s : state) (pre post : list node)
    (el hi : img) :
  ids_ok s ->
  children s = pre ++ Img el :: post ->
  frame_ s = [id el] ->
  upgradeWrapper s = Some [hi] ->
  children (upgradeLoaded fr s)
  = pre ++ Img (show (stamp (nextId s) hi)) :: post /\
  nextId (upgradeLoaded fr s) = S (nextId s) /\
  upgradeWrapper (upgradeLoaded fr s) = Some [] /\
  includes (preloadedBig (upgradeLoaded fr s)) fr
  = includes (preloadedBig s) fr || strict_eq fr fr.
Proof.
  intros [Hn Hb] Hc Hf Hw.
  rewrite Hc, imgs_app, map_app in Hn, Hb. cbn [imgs map] in Hn, Hb.
  assert (Hpre : ~ In (id el) (map id (imgs pre))).
  { intros H. apply NoDup_remove_2 in Hn. apply Hn.
    apply in_app_iff. left. exact H. }
  assert (Hpost : ~ In (id el) (map id (imgs post))).
  { intros H. apply NoDup_remove_2 in Hn. apply Hn.
    apply in_app_iff. right. exact H. }
  assert (Hlt : (id el < nextId s)%nat).
  { rewrite Forall_forall in Hb. apply Hb.
    apply in_app_iff. right. left. reflexivity. }
  pose proof (among_other _ _ Hpre) as Apre.
  pose proof (among_other _ _ Hpost) as Apost.
  assert (Ael : among [id el] (Img el) = true)
    by (apply among_one; eauto).
  assert (Anew : among [id el] (element (nextId s) hi) = false).
  { destruct (among [id el] (element (nextId s) hi)) eqn:E; [|reflexivity].
    apply among_one in E. destruct E as [x [Hx Hid]].
    injection Hx as <-. simpl in Hid. lia. }
  unfold upgradeLoaded. rewrite Hw, Hf, Hc.
  rewrite (after_skip _ _ _ _ Apre). cbn [after]. rewrite Ael.
  rewrite (after_none _ _ _ Apost). cbn [fst snd elements app List.length].
  rewrite (show_next_skip _ _ _ Apre). cbn [show_next]. rewrite Ael, Anew.
  rewrite (show_next_none _ _ Apost).
  change (show_img (element (nextId s) hi))
    with (Img (show (stamp (nextId s) hi))).
  assert (Ashown : among [id el] (Img (show (stamp (nextId s) hi))) = false)
    by exact Anew.
  rewrite filter_app. cbn [filter]. rewrite Ael, Ashown. cbn [negb].
  rewrite (filter_all _ pre)
    by (intros c Hc'; rewrite (Apre c Hc'); reflexivity).
  rewrite (filter_all _ post)
    by (intros c Hc'; rewrite (Apost c Hc'); reflexivity).
  unfold markBigAsPreloaded.
  cbn [preloadedBig set_upgradeWrapper set_nextId set_children].
  destruct (includes (preloadedBig s) fr) eqn:E;
    cbn [children nextId upgradeWrapper preloadedBig set_preloadedBig
           set_upgradeWrapper set_nextId set_children].
  - rewrite E, Nat.add_1_r. repeat split.
  - rewrite includes_snoc, E, Nat.add_1_r. repeat split.
Qed.

(** ** Settling *)

Lemma upgradeFrame_upgraded (cfg : settings) (fr : num) (s : state) :
  not_upgraded (with_frame fr (children s)) = false ->
  upgradeFrame cfg fr s
  = Returns tt (set_frame (map id (with_frame fr (children s))) s).
Proof.
  intros H. unfold upgradeFrame. rewrite H. reflexivity.
Qed.

Lemma upgradeFrame_stages (cfg : settings) (fr : num) (s : state) :
  upgradeWrapper s <> None ->
  not_upgraded (with_frame fr (children s)) = true ->
  upgradeFrame cfg fr s
  = Returns tt
      (emit (UpgradeImagesLoaded fr)
         (set_upgradeWrapper
            (Some [generateImg cfg fr true s])
            (set_frame (map id (with_frame fr (children s))) s))).
Proof.
  intros Hw H. unfold upgradeFrame. cbn [set_frame upgradeWrapper].
  rewrite H. destruct (upgradeWrapper s); [reflexivity|contradiction].
Qed.

(** X23: an upgrade that completes before [upgradeFrame] runs again: the
    image of the frame gives way to a shown image tagged upgraded, and the
    next [upgradeFrame] for the frame stages nothing. *)
Lemma upgrade_completes (cfg : settings) (f : Z) (s : state) (el : img) :
  ids_ok s ->
  upgradeWrapper s <> None ->
  with_frame (Int f) (children s) = [el] ->
  upgraded el = false ->
  let s1 := final (upgradeFrame cfg (Int f) s) in
  let s2 := upgradeLoaded (Int f) s1 in
  with_frame (Int f) (children s2)
  = [show (stamp (nextId s) (generateImg cfg (Int f) true s))] /\
  includes (preloadedBig s2) (Int f) = true /\
  upgradeFrame cfg (Int f) s2
  = Returns tt (set_frame [nextId s] s2).
Proof.
  intros Hids Hw Hsel Hup s1 s2.
  assert (Hin : In (Img el) (children s)).
  { apply In_imgs. assert (H : In el (with_frame (Int f) (children s)))
      by (rewrite Hsel; left; reflexivity).
    apply filter_In in H. tauto. }
  apply in_split in Hin. destruct Hin as [pre [post Hc]].
  assert (Hfr : frame el = Int f).
  { assert (H : In el (with_frame (Int f) (children s)))
      by (rewrite Hsel; left; reflexivity).
    apply filter_In in H. apply same_eq. tauto. }
  assert (Hparts : with_frame (Int f) pre = [] /\
                   with_frame (Int f) post = []).
  { rewrite Hc, with_frame_app in Hsel.
    change (Img el :: post) with ([Img el] ++ post) in Hsel.
    rewrite with_frame_app in Hsel.
    assert (Hone : with_frame (Int f) [Img el] = [el]).
    { unfold with_frame. cbn -[same]. rewrite Hfr, same_refl.
      reflexivity. }
    rewrite Hone in Hsel.
    destruct (with_frame (Int f) pre) as [|x r].
    - simpl in Hsel. injection Hsel as Hsel. split; [reflexivity|exact Hsel].
    - simpl in Hsel. injection Hsel as _ Hsel.
      destruct r; simpl in Hsel; discriminate. }
  destruct Hparts as [Hp1 Hp2].
  assert (Hs1 : s1 = emit (UpgradeImagesLoaded (Int f))
                       (set_upgradeWrapper
                          (Some [generateImg cfg (Int f) true s])
                          (set_frame (map id (with_frame (Int f)
                                                (children s))) s))).
  { unfold s1. rewrite upgradeFrame_stages; [reflexivity|exact Hw|].
    rewrite Hsel. simpl. rewrite Hup. reflexivity. }
  destruct (upgradeLoaded_replaces (Int f) s1 pre post el
              (generateImg cfg (Int f) true s))
    as (Hc2 & Hn2 & Hw2 & Hb2).
  { rewrite Hs1. exact Hids. }
  { rewrite Hs1. exact Hc. }
  { rewrite Hs1. cbn [frame_ emit set_upgradeWrapper set_frame].
    rewrite Hsel. reflexivity. }
  { rewrite Hs1. reflexivity. }
  fold s2 in Hc2, Hn2, Hw2, Hb2.
  assert (Hn1 : nextId s1 = nextId s) by (rewrite Hs1; reflexivity).
  rewrite Hn1 in Hc2.
  assert (Hsel2 : with_frame (Int f) (children s2)
                  = [show (stamp (nextId s)
                             (generateImg cfg (Int f) true s))]).
  { rewrite Hc2, with_frame_app.
    change (Img ?x :: post) with ([Img x] ++ post).
    rewrite with_frame_app, Hp1, Hp2. unfold with_frame.
    cbn -[same generateImg].
    rewrite (proj1 (generateImg_frame cfg (Int f) true s)), same_refl.
    reflexivity. }
  split; [exact Hsel2|]. split.
  - rewrite Hb2. simpl. rewrite Z.eqb_refl. apply orb_true_r.
  - rewrite upgradeFrame_upgraded; rewrite Hsel2; reflexivity.
Qed.

(** One firing of the debounce timer.  When the frame recorded by [scroll]
    equals the current frame, [checkForScroll] clears [animating], calls
    [upgradeFrame] for the current frame exactly when [upgradeHighRes] is set,
    and ends with [preload]; [upgradeFrame] stages the high-resolution image
    unless the attached image of the frame is tagged upgraded, in which case
    it stages nothing.  When the frames differ, nothing happens.  The staging
    [span] exists whenever [upgradeHighRes] is set: [init] creates it. *)
Lemma checkForScroll_effects (cfg : settings) (s : state) :
  (upgradeHighRes cfg = true -> upgradeWrapper s <> None) ->
  let cur := currentImg s in
  let sel := with_frame cur (children s) in
  (strict_eq (lastCurrentImg s) cur = false ->
   checkForScroll cfg s = Returns tt s) /\
  (strict_eq (lastCurrentImg s) cur = true ->
   thrown (checkForScroll cfg s) = false /\
   animating (final (checkForScroll cfg s)) = false /\
   (upgradeHighRes cfg = false ->
    final (checkForScroll cfg s) = preload cfg (set_animating false s) /\
    upgradeWrapper (final (checkForScroll cfg s)) = upgradeWrapper s) /\
   (upgradeHighRes cfg = true ->
    final (checkForScroll cfg s) =
    preload cfg (final (upgradeFrame cfg cur (set_animating false s))) /\
    (not_upgraded sel = true ->
     upgradeWrapper (final (checkForScroll cfg s)) =
     Some [generateImg cfg cur true s]) /\
    (not_upgraded sel = false ->
     upgradeWrapper (final (checkForScroll cfg s)) = upgradeWrapper s /\
     children (final (checkForScroll cfg s)) = children s))).
Proof.
  intros Hw cur sel. unfold checkForScroll. fold cur. split.
  - intros ->. reflexivity.
  - intros ->.
    destruct (upgradeHighRes cfg) eqn:Hup.
    + specialize (Hw eq_refl).
      cbn [currentImg set_animating]. fold cur.
      destruct (not_upgraded sel) eqn:Hsel.
      * rewrite (upgradeFrame_stages cfg cur (set_animating false s))
          by assumption.
        cbn [final thrown].
        match goal with |- context [preload cfg ?x] =>
          destruct (preload_quiet cfg x)
            as (_ & _ & _ & Ha & _ & _ & Hu & _ & _)
        end.
        repeat split; try discriminate; try reflexivity.
        -- rewrite Ha. reflexivity.
        -- intros _. rewrite Hu. reflexivity.
      * rewrite (upgradeFrame_upgraded cfg cur (set_animating false s))
          by assumption.
        cbn [final thrown].
        match goal with |- context [preload cfg ?x] =>
          destruct (preload_quiet cfg x)
            as (_ & _ & _ & Ha & _ & _ & Hu & _ & Hc)
        end.
        repeat split; try discriminate; try reflexivity.
        -- rewrite Ha. reflexivity.
        -- rewrite Hu. reflexivity.
        -- rewrite Hc. reflexivity.
    + cbn [final thrown].
      destruct (preload_quiet cfg (set_animating false s))
        as (_ & _ & _ & Ha & _ & _ & Hu & _ & _).
      repeat split; try discriminate; try reflexivity.
      * rewrite Ha. reflexivity.
      * rewrite Hu. reflexivity.
Qed.

(** C6: a settled frame is upgraded twice in the session below.  Frame 5 is
    settled on and its high-resolution image staged, once.  When that image
    has loaded, [upgradeLoaded] reads the global [$frame], which the settle at
    frame 7 has meanwhile set to the (already upgraded) image of frame 7: the
    high-resolution image of frame 5 takes the place of that image, and the
    low-resolution image of frame 5 stays where it is, in front of it.  Frame
    5 is now marked in [preloadedBig] and has an attached image tagged
    upgraded.  At the next settle on frame 5 the test of [upgradeFrame] reads
    the first image of the frame, the low-resolution one: the upgrade is
    staged a second time, and when it has loaded two attached images of
    frame 5 are tagged upgraded. *)
Theorem C6_settled_frame_upgraded_twice :
  let cfg := extend defaults upgrade_options in
  let s0 := final (init 1 (Some upgrade_options) true at_frame_3 defaults
                     initial) in
  let s := run cfg session_back_and_forth s0 in
  let s1 := run cfg [CScroll at_frame_5; CAnimate at_frame_5] s in
  let s2 := final (checkForScroll cfg s1) in
  init 1 (Some upgrade_options) true at_frame_3 defaults initial
  = Returns cfg s0 /\
  stagings (Int 5) (trace s) = 1%nat /\
  includes (preloadedBig s) (Int 5) = true /\
  upgraded_count (Int 5) s = 1%nat /\
  currentImg s1 = Int 5 /\
  strict_eq (lastCurrentImg s1) (currentImg s1) = true /\
  thrown (checkForScroll cfg s1) = false /\
  upgradeWrapper s2 = Some [generateImg cfg (Int 5) true s1] /\
  stagings (Int 5) (trace s2) = 2%nat /\
  upgraded_count (Int 5) (upgradeLoaded (Int 5) s2) = 2%nat.
Proof. vm_compute. repeat split. Qed.

(** ** Initialisation *)

Lemma falsyZ_spec (x : option Z) : falsyZ x = true <-> falsy_number x.
Proof.
  unfold falsy_number. destruct x as [z|]; simpl.
  - rewrite Z.eqb_eq. split; [intros ->; auto|].
    intros [H|H]; [discriminate|congruence].
  - tauto.
Qed.

Lemma falsyS_spec (x : option string) : falsyS x = true <-> falsy_string x.
Proof.
  unfold falsy_string. destruct x as [[|c r]|]; simpl; split; auto;
    try discriminate.
  intros [H|H]; discriminate.
Qed.

Lemma truthyB_spec (x : option bool) :
  negb (falsyB x) = true <-> x = Some true.
Proof.
  destruct x as [[|]|]; simpl; split; auto; discriminate.
Qed.

Lemma upgradeFrame_returns (cfg : settings) (fr : num) (s : state) :
  upgradeWrapper s <> None -> thrown (upgradeFrame cfg fr s) = false.
Proof.
  intros H. unfold upgradeFrame. cbn [set_frame upgradeWrapper].
  destruct (not_upgraded _); [|reflexivity].
  destruct (upgradeWrapper s); [reflexivity|contradiction].
Qed.

Lemma init_throws_iff (this : nat) (opts : option options) (il : bool)
    (vp : viewport) (d : defaults_t) (s : state) :
  thrown (init this opts il vp d s) = true <-> rejected opts il.
Proof.
  unfold init, rejected. destruct opts as [o|]; [|simpl; tauto].
  rewrite <- !falsyZ_spec, <- !falsyS_spec, <- truthyB_spec.
  destruct (falsyZ (o_numImages o)); [simpl; tauto|].
  destruct (falsyS (o_imgDir o)); [simpl; tauto|].
  destruct (falsyS (o_imgName o)); [simpl; tauto|].
  destruct (negb (falsyB (o_upgradeHighRes o))) eqn:Hup.
  - destruct (falsyS (o_imgDirBig o)); [simpl; tauto|].
    destruct il; [|simpl; tauto].
    cbn [negb andb].
    match goal with
    | |- context [upgradeFrame ?c ?f ?x] =>
        pose proof (upgradeFrame_returns c f x) as Hr;
        destruct (upgradeFrame c f x) as [u s'|m s']
    end.
    + simpl. intuition discriminate.
    + cbn [thrown] in Hr. exfalso.
      assert (true = false); [|discriminate].
      apply Hr. cbn [upgradeWrapper set_upgradeWrapper]. discriminate.
  - cbn [andb]. destruct il; simpl; intuition discriminate.
Qed.

Lemma init_throws_early (this : nat) (opts : option options) (il : bool)
    (vp : viewport) (d : defaults_t) (s : state) :
  thrown (init this opts il vp d s) = true ->
  final (init this opts il vp d s) = set_this this (emit ConsoleLog s).
Proof.
  unfold init. destruct opts as [o|]; [|reflexivity].
  destruct (falsyZ (o_numImages o)); [reflexivity|].
  destruct (falsyS (o_imgDir o)); [reflexivity|].
  destruct (falsyS (o_imgName o)); [reflexivity|].
  destruct (_ && _); [reflexivity|].
  destruct (negb il); [reflexivity|].
  destruct (negb (falsyB (o_upgradeHighRes o))).
  - match goal with
    | |- context [upgradeFrame ?c ?f ?x] =>
        pose proof (upgradeFrame_returns c f x) as Hr;
        destruct (upgradeFrame c f x) as [u s'|m s']
    end; [discriminate|].
    cbn [thrown] in Hr. intros _. exfalso.
    assert (true = false); [|discriminate].
    apply Hr. cbn [upgradeWrapper set_upgradeWrapper]. discriminate.
  - discriminate.
Qed.

(** C4, as amended: [init] throws exactly when its argument is not an object,
    or a required key among [numImages], [imgDir], [imgName] is missing or
    falsy ([0], the empty string), or [upgradeHighRes] is [true] with
    [imgDirBig] missing or empty, or the image-load detector is not there.
    Each failure is raised before any setup: settings are not produced, and
    the frame counters, the flags, the preload arrays, the staging area and
    the display surface are as before. *)
Theorem C4_init_validation
    (this : nat) (opts : option options) (il : bool) (vp : viewport)
    (d : defaults_t) (s : state) :
  (thrown (init this opts il vp d s) = true <-> rejected opts il) /\
  (thrown (init this opts il vp d s) = true ->
   let s' := final (init this opts il vp d s) in
   currentImg s' = currentImg s /\ imgStrLen s' = imgStrLen s /\
   animating s' = animating s /\ buffering s' = buffering s /\
   preloaded s' = preloaded s /\ allPreloaded s' = allPreloaded s /\
   preloadedBig s' = preloadedBig s /\
   lastCurrentImg s' = lastCurrentImg s /\
   upgradeWrapper s' = upgradeWrapper s /\ frame_ s' = frame_ s /\
   children s' = children s).
Proof.
  split; [apply init_throws_iff|].
  intros H. rewrite (init_throws_early _ _ _ _ _ _ H).
  repeat split.
Qed.

Lemma C4_init_validation_witness :
  let s' := final (init 1 (Some (sample_options 100 EmptyString)) true
                     (at_offset 0 1600 600) defaults initial) in
  currentImg s' = currentImg initial /\ children s' = children initial.
Proof.
  intros s'.
  destruct (proj2 (C4_init_validation 1
                     (Some (sample_options 100 EmptyString)) true
                     (at_offset 0 1600 600) defaults initial))
    as (H1 & _ & _ & _ & _ & _ & _ & _ & _ & _ & H2).
  - vm_compute. reflexivity.
  - split; [exact H1|exact H2].
Defined.

(** C4 as stated fails: an [imgDir] that is supplied but empty makes [init]
    throw although no key is absent, and the failed call has already bound
    [$this] to its host. *)
Lemma C4_counterexample :
  ~ (forall this opts il vp d s,
        thrown (init this opts il vp d s) = true <->
        rejected_as_specified opts il) /\
  ~ (forall this opts il vp d s,
        thrown (init this opts il vp d s) = true ->
        this_ (final (init this opts il vp d s)) = this_ s).
Proof.
  split; intros H.
  - destruct (H 1%nat (Some (sample_options 100 EmptyString)) true
                (at_offset 0 1600 600) defaults initial) as [H1 _].
    assert (Ht : thrown (init 1 (Some (sample_options 100 EmptyString)) true
                           (at_offset 0 1600 600) defaults initial) = true)
      by (vm_compute; reflexivity).
    specialize (H1 Ht). simpl in H1.
    destruct H1 as [H1|[H1|[H1|[[H1 _]|H1]]]]; discriminate.
  - specialize (H 1%nat (Some (sample_options 100 EmptyString)) true
                  (at_offset 0 1600 600) defaults initial).
    assert (Ht : thrown (init 1 (Some (sample_options 100 EmptyString)) true
                           (at_offset 0 1600 600) defaults initial) = true)
      by (vm_compute; reflexivity).
    specialize (H Ht). vm_compute in H. discriminate.
Qed.

(** [init] creates the staging [span] whenever the settings it returns have
    [upgradeHighRes] set, and no call removes it.  [upgradeHighRes] can come
    from the [defaults] object only if an earlier [init] wrote it there, and
    that [init] created the [span]. *)
Lemma closed_keeps_wrapper (cfg : settings) :
  closed cfg keeps_wrapper any_change any_document any_frame True.
Proof.
  constructor; unfold keeps_wrapper; intros; try exact I; auto;
    try (unfold_marks; assumption).
Qed.

Ltac skip_preload :=
  match goal with
  | |- upgradeWrapper (if ?b then ?p else ?x) <> None =>
      let Hq := fresh "Hq" in
      assert (Hq : upgradeWrapper (if b then p else x) = upgradeWrapper x)
        by (destruct b; [apply preload_quiet|reflexivity]);
      rewrite Hq; clear Hq
  end.

Lemma init_creates_wrapper (this : nat) (o : options) (il : bool)
    (vp : viewport) (d : defaults_t) (s0 : state) (cfg : settings)
    (s : state) (calls : list call) :
  (d_upgradeHighRes d = true -> upgradeWrapper s0 <> None) ->
  init this (Some o) il vp d s0 = Returns cfg s ->
  upgradeHighRes cfg = true ->
  upgradeWrapper (run cfg calls s) <> None.
Proof.
  intros Hd Hinit Hup.
  apply (P_run cfg _ _ _ _ _ (closed_keeps_wrapper cfg) calls
           (every_call_ok calls) s).
  revert Hinit. unfold init.
  destruct (falsyZ _); [discriminate|].
  destruct (falsyS (o_imgDir o)); [discriminate|].
  destruct (falsyS (o_imgName o)); [discriminate|].
  destruct (_ && _); [discriminate|].
  destruct (negb il); [discriminate|].
  destruct (negb (falsyB (o_upgradeHighRes o))) eqn:Ho.
  - match goal with
    | |- context [upgradeFrame ?c ?f ?x] =>
        pose proof (P_upgradeFrame c _ _ _ _ _ (closed_keeps_wrapper c) f x)
          as Hk;
        destruct (upgradeFrame c f x) as [u s'|m s']
    end; [|discriminate].
    cbn [final] in Hk. intros H. injection H as <- <-.
    change (upgradeWrapper (emit OnScroll ?x)) with (upgradeWrapper x).
    skip_preload. apply Hk.
    cbn [upgradeWrapper set_upgradeWrapper]. discriminate.
  - intros H. injection H as <- <-.
    change (upgradeWrapper (emit OnScroll ?x)) with (upgradeWrapper x).
    skip_preload.
    match goal with
    | |- upgradeWrapper (showFrameWhenReady ?c ?f ?x) <> None =>
        apply (P_showFrameWhenReady c _ _ _ _ _ (closed_keeps_wrapper c) f x I)
    end.
    cbn [upgradeWrapper set_currentImg set_imgStrLen].
    assert (Hd' : d_upgradeHighRes d = true).
    { unfold extend in Hup. cbn [upgradeHighRes] in Hup.
      destruct (o_upgradeHighRes o) as [[|]|]; simpl in *;
        try discriminate; exact Hup. }
    match goal with
    | |- upgradeWrapper (if ?b then _ else _) <> None => destruct b
    end; apply Hd, Hd'.
Qed.

(** What a later [init] finds in the [defaults] object: a key the new options
    leave out keeps the value of the earlier call. *)
Lemma extend_as_defaults (cfg : settings) (o : options) :
  (o_buffer o = None ->
   buffer (extend (as_defaults cfg) o) = buffer cfg) /\
  (o_upgradeHighRes o = None ->
   upgradeHighRes (extend (as_defaults cfg) o) = upgradeHighRes cfg) /\
  (o_onShowFrame o = None ->
   onShowFrame (extend (as_defaults cfg) o) = onShowFrame cfg).
Proof.
  unfold extend. cbn [buffer upgradeHighRes onShowFrame].
  repeat split; intros ->; reflexivity.
Qed.

(** ** File names *)

Lemma digits_length (j : nat) :
  forall fuel n acc,
    (j < fuel)%nat ->
    0 <= n < 10 ^ (Z.of_nat j + 1) ->
    (j = 0%nat \/ 10 ^ Z.of_nat j <= n) ->
    String.length (digits fuel n acc) = (S j + String.length acc)%nat.
Proof.
  induction j as [|j IH]; intros fuel n acc Hf Hn Hlo.
  - destruct fuel as [|fuel]; [lia|]. simpl digits.
    change (10 ^ (Z.of_nat 0 + 1)) with 10 in Hn.
    destruct (n <? 10) eqn:E; [reflexivity|].
    apply Z.ltb_ge in E. lia.
  - destruct fuel as [|fuel]; [lia|]. simpl digits.
    destruct Hlo as [Hlo|Hlo]; [discriminate|].
    rewrite Nat2Z.inj_succ, <- Z.add_1_r in Hn, Hlo.
    rewrite !Z.pow_add_r in Hn by lia.
    rewrite Z.pow_add_r in Hlo by lia.
    change (10 ^ 1) with 10 in Hn, Hlo.
    assert (Hp : 0 < 10 ^ Z.of_nat j) by (apply Z.pow_pos_nonneg; lia).
    destruct (n <? 10) eqn:E; [apply Z.ltb_lt in E; nia|].
    rewrite IH.
    + simpl. lia.
    + lia.
    + split; [apply Z.div_pos; lia|].
      apply Z.div_lt_upper_bound; [lia|].
      rewrite Z.pow_add_r by lia. change (10 ^ 1) with 10. nia.
    + right. apply Z.div_le_lower_bound; lia.
Qed.

Lemma digits_length_le (fuel : nat) :
  forall (k : nat) n acc,
    (1 <= k)%nat -> 0 <= n < 10 ^ Z.of_nat k ->
    (String.length (digits fuel n acc) <= k + String.length acc)%nat.
Proof.
  induction fuel as [|fuel IH]; intros k n acc Hk Hn; simpl digits.
  - lia.
  - destruct (n <? 10) eqn:E; [simpl; lia|].
    apply Z.ltb_ge in E.
    destruct k as [|[|k]]; [lia|simpl in Hn; lia|].
    specialize (IH (S k) (n / 10) (String (digit (n mod 10)) acc)).
    simpl String.length in IH.
    assert (H : (String.length
                   (digits fuel (n / 10) (String (digit (n mod 10)) acc))
                 <= S k + S (String.length acc))%nat).
    { apply IH; [lia|].
      split; [apply Z.div_pos; lia|].
      apply Z.div_lt_upper_bound; [lia|].
      rewrite (Nat2Z.inj_succ (S k)) in Hn.
      rewrite Z.pow_succ_r in Hn by lia. lia. }
    lia.
Qed.

(** The fuel of [decimal] is enough: [String(n)] has as many characters as
    [n] has decimal digits. *)
Lemma decimal_length (n : Z) (k : nat) :
  has_digits n k -> 1 <= n -> String.length (decimal n) = k.
Proof.
  unfold has_digits, decimal. intros [Hlo Hhi] Hn.
  destruct k as [|j].
  { simpl in Hhi. lia. }
  rewrite Nat2Z.inj_succ in Hlo, Hhi.
  replace (Z.succ (Z.of_nat j) - 1) with (Z.of_nat j) in Hlo by lia.
  rewrite (digits_length j).
  - simpl. lia.
  - assert (Z.of_nat j <= Z.log2 n); [|lia].
    apply Z.log2_le_pow2; [lia|].
    eapply Z.le_trans; [|exact Hlo].
    apply Z.pow_le_mono_l. lia.
  - rewrite <- Z.add_1_r in Hhi. lia.
  - right. exact Hlo.
Qed.

Lemma decimal_length_le (n : Z) (k : nat) :
  (1 <= k)%nat -> 0 <= n < 10 ^ Z.of_nat k ->
  (String.length (decimal n) <= k)%nat.
Proof.
  intros Hk Hn. unfold decimal.
  pose proof (digits_length_le (S (Z.to_nat (Z.log2 n))) k n EmptyString
                Hk Hn) as H.
  change (String.length EmptyString) with 0%nat in H. lia.
Qed.

(** Among the non-negative integers only [x] reads as a number [x] of at
    most 53 bits. *)
Lemma reads_as_safe (v x : Z) :
  safe x -> 0 <= v -> reads_as v x = true -> v = x.
Proof.
  intros [Hx0 Hx1] Hv H. unfold reads_as in H.
  destruct (Z_lt_le_dec v (2 ^ 53)) as [Hlt|Hge].
  - rewrite fl_safe in H by (split; assumption).
    apply Qeq_bool_iff in H. unfold Qeq in H. simpl in H. lia.
  - assert (L : rle (fl (inject_Z (2 ^ 53))) (fl (inject_Z v))).
    { apply fl_mono. rewrite <- Zle_Qle. exact Hge. }
    assert (E : fl (inject_Z (2 ^ 53)) = Rat (inject_Z (2 ^ 53)))
      by (vm_compute; reflexivity).
    rewrite E in L. clear E.
    destruct (fl (inject_Z v)) as [|b|q].
    + discriminate H.
    + discriminate H.
    + change (inject_Z (2 ^ 53) <= q)%Q in L.
      apply Qeq_bool_iff in H. rewrite H in L.
      rewrite <- Zle_Qle in L. lia.
Qed.

(** The search ends with a decimal that reads as [x]. *)
Lemma shortest_reads (x : Z) (p : nat) :
  0 <= x -> reads_as x x = true ->
  forall fuel k,
    0 <= shortest fuel k x p /\ reads_as (shortest fuel k x p) x = true.
Proof.
  intros Hx Hr fuel. induction fuel as [|fuel IH]; intros k.
  - split; assumption.
  - cbn [shortest]. set (u := 10 ^ Z.of_nat (p - k)).
    assert (Hu : 0 < u) by (apply Z.pow_pos_nonneg; lia).
    assert (Hlo : 0 <= x / u * u).
    { apply Z.mul_nonneg_nonneg; [apply Z.div_pos|]; lia. }
    destruct (reads_as (x / u * u) x) eqn:E1,
             (reads_as (x / u * u + u) x) eqn:E2.
    + destruct (x - x / u * u <? x / u * u + u - x).
      * split; assumption.
      * destruct (x / u * u + u - x <? x - x / u * u).
        -- split; [lia|assumption].
        -- destruct (Z.even (x / u)); split; try assumption; lia.
    + split; assumption.
    + split; [lia|assumption].
    + apply IH.
Qed.

(** An integer of at most 53 bits is printed in plain decimal. *)
Lemma toString_safe (z : Z) : safe z -> toString z = decimal z.
Proof.
  intros Hz. unfold toString. rewrite (is_double_safe z Hz). cbv zeta.
  set (p := String.length (decimal z)).
  destruct (shortest_reads z p (proj1 Hz) (is_double_safe z Hz) p 1%nat)
    as [Hv Hr].
  rewrite (reads_as_safe _ z Hz Hv Hr). fold p.
  assert (Hp : (p <= 21)%nat).
  { unfold p. apply decimal_length_le; [lia|].
    destruct Hz as [H0 H1]. split; [exact H0|].
    apply Z.lt_trans with (2 ^ 53); [exact H1|reflexivity]. }
  apply Nat.leb_le in Hp. rewrite Hp. reflexivity.
Qed.

Lemma String_Int_safe (z : Z) : safe z -> String_ (Int z) = decimal z.
Proof.
  intros H. unfold String_. destruct (z <? 0) eqn:E.
  - apply Z.ltb_lt in E. destruct H. lia.
  - apply toString_safe. exact H.
Qed.

Lemma pad_zeros (k : nat) :
  forall str, pad k str = (zeros k ++ str)%string.
Proof.
  induction k as [|j IH]; intros str; simpl; [reflexivity|].
  rewrite IH. clear IH. induction j as [|i IHi]; simpl; [reflexivity|].
  f_equal. exact IHi.
Qed.

Lemma pad_length (k : nat) :
  forall str, String.length (pad k str) = (k + String.length str)%nat.
Proof.
  induction k as [|j IH]; intros str; simpl; [reflexivity|].
  rewrite IH. simpl. lia.
Qed.

Lemma closed_keeps_imgStrLen (cfg : settings) :
  closed cfg keeps_imgStrLen any_change any_document any_frame True.
Proof.
  constructor; unfold keeps_imgStrLen; intros; try exact I;
    try reflexivity; try congruence; unfold_marks; reflexivity.
Qed.

(** [init] stores the length of [String(numImages)]. *)
Lemma init_imgStrLen (this : nat) (opts : option options) (il : bool)
    (vp : viewport) (d : defaults_t) (s0 : state) (cfg : settings)
    (s : state) :
  init this opts il vp d s0 = Returns cfg s ->
  imgStrLen s = String.length (String_ (Int (numImages cfg))).
Proof.
  unfold init. destruct opts as [o|]; [|discriminate].
  destruct (falsyZ _); [discriminate|].
  destruct (falsyS (o_imgDir o)); [discriminate|].
  destruct (falsyS (o_imgName o)); [discriminate|].
  destruct (_ && _); [discriminate|].
  destruct (negb il); [discriminate|].
  set (cfg0 := extend d o).
  set (s1 := set_currentImg _ _).
  set (s2 := showFrameWhenReady cfg0 (currentImg s1) s1).
  assert (H2 : imgStrLen s2
               = String.length (String_ (Int (numImages cfg0)))).
  { unfold s2.
    rewrite (P_showFrameWhenReady cfg0 _ _ _ _ _ (closed_keeps_imgStrLen cfg0));
      [reflexivity|exact I]. }
  assert (Hp : forall x,
             imgStrLen (if preload_flag cfg0 then preload cfg0 x else x)
             = imgStrLen x).
  { intros x. destruct (preload_flag cfg0); [|reflexivity].
    apply (P_preload cfg0 _ _ _ _ _ (closed_keeps_imgStrLen cfg0)). }
  destruct (negb (falsyB (o_upgradeHighRes o))).
  - set (s3 := addUpgradeWrapper s2).
    pose proof (P_upgradeFrame cfg0 _ _ _ _ _ (closed_keeps_imgStrLen cfg0)
                  (currentImg s2) s3) as H3.
    destruct (upgradeFrame cfg0 (currentImg s2) s3) as [u s4|m s4];
      [|discriminate].
    cbn [final] in H3. intros H. injection H as <- <-.
    transitivity (imgStrLen s4); [apply Hp|].
    transitivity (imgStrLen s3); [exact H3|exact H2].
  - intros H. injection H as <- <-.
    transitivity (imgStrLen s2); [apply Hp|exact H2].
Qed.

(** C9, as amended: for a clip of fewer than [2 ^ 53] frames and after
    [init], whatever calls follow, the pad width is the number of decimal digits of
    [numImages]; the path of frame [f] in [1, numImages]
    is directory, then prefix, then [f] zero-filled to that width, then
    extension (the directory is [imgDirBig] for a high-resolution image and
    [imgDir] otherwise); zero-filling puts ["0"]s in front of the decimal
    form of [f] up to the width, which for these frames gives exactly
    [width] characters; an explicit width takes the place of the default;
    and [zerofill(7, 3)] is ["007"]. *)
Theorem C9_asset_path
    (this : nat) (opts : option options) (il : bool) (vp : viewport)
    (d : defaults_t) (s0 : state) (cfg : settings) (s1 : state)
    (calls : list call) (f : Z) (k : nat) (hr : bool) :
  init this opts il vp d s0 = Returns cfg s1 ->
  safe (numImages cfg) ->
  has_digits (numImages cfg) k ->
  1 <= f <= numImages cfg ->
  let s := run cfg calls s1 in
  imgStrLen s = k /\
  src (generateImg cfg (Int f) hr s) =
    ((if hr || includes (preloadedBig s) (Int f)
      then imgDirBig cfg else imgDir cfg)
     ++ imgName cfg ++ zerofill k (Int f) None ++ imgFormat cfg)%string /\
  zerofill k (Int f) None =
    (zeros (k - String.length (decimal f)) ++ decimal f)%string /\
  String.length (zerofill k (Int f) None) = k /\
  (forall w,
      zerofill k (Int f) (Some w) =
      (zeros (w - String.length (decimal f)) ++ decimal f)%string) /\
  zerofill k (Int 7) (Some 3%nat) = "007"%string.
Proof.
  intros Hinit Hs Hk Hf s.
  assert (Sf : safe f) by (unfold safe in *; lia).
  assert (Hlen : imgStrLen s = k).
  { unfold s.
    rewrite (P_run cfg _ _ _ _ _ (closed_keeps_imgStrLen cfg) calls
               (every_call_ok calls) s1).
    rewrite (init_imgStrLen _ _ _ _ _ _ _ _ Hinit).
    rewrite String_Int_safe by exact Hs.
    apply decimal_length; [exact Hk|lia]. }
  assert (Hk1 : (1 <= k)%nat).
  { destruct k; [|lia]. unfold has_digits in Hk. simpl in Hk. lia. }
  assert (Hle : (String.length (decimal f) <= k)%nat).
  { apply decimal_length_le; [exact Hk1|].
    unfold has_digits in Hk. lia. }
  split; [exact Hlen|].
  split.
  { unfold generateImg. rewrite Hlen.
    destruct (hr || includes (preloadedBig s) (Int f)); reflexivity. }
  split.
  { unfold zerofill. rewrite String_Int_safe by exact Sf. apply pad_zeros. }
  split.
  { unfold zerofill. rewrite String_Int_safe by exact Sf.
    rewrite pad_length. lia. }
  split.
  { intros w. unfold zerofill. rewrite String_Int_safe by exact Sf.
    apply pad_zeros. }
  reflexivity.
Qed.

Lemma C9_asset_path_witness :
  let cfg := extend defaults (sample_options 100 "img/") in
  let s1 := final (init 1 (Some (sample_options 100 "img/")) true
                     (at_offset 300 1600 600) defaults initial) in
  src (generateImg cfg (Int 7) false (run cfg [CPreload] s1))
  = "img/clip-007.jpg"%string.
Proof.
  intros cfg s1.
  destruct (C9_asset_path 1 (Some (sample_options 100 "img/")) true
              (at_offset 300 1600 600) defaults initial cfg s1 [CPreload]
              7 3 false) as (_ & H & _).
  - vm_compute. reflexivity.
  - unfold safe. simpl. lia.
  - unfold has_digits. simpl. lia.
  - simpl. lia.
  - rewrite H. vm_compute. reflexivity.
Defined.

(** C9 as stated fails for a clip of [10 ^ 21] frames: [String] writes that
    number as ["1e+21"], so that the pad width is 5 where [numImages] has 22
    digits, and frame 7 is filled to 5 characters. *)
Lemma C9_counterexample :
  ~ (forall this opts il vp d s0 cfg s1 k,
        init this opts il vp d s0 = Returns cfg s1 ->
        has_digits (numImages cfg) k ->
        imgStrLen s1 = k /\
        String.length (zerofill (imgStrLen s1) (Int 7) None) = k).
Proof.
  intros H.
  destruct (H 1%nat (Some (sample_options (10 ^ 21) "img/")) true
              (at_offset 300 1600 600) defaults initial
              (extend defaults (sample_options (10 ^ 21) "img/"))
              (final (init 1 (Some (sample_options (10 ^ 21) "img/")) true
                        (at_offset 300 1600 600) defaults initial))
              22%nat) as [Hw _].
  - vm_compute. reflexivity.
  - vm_compute. split; [discriminate|reflexivity].
  - vm_compute in Hw. discriminate.
Qed.

(** * More of the script *)

(** ** Scroll offset and frame *)

Section Bands.

Local Open Scope Q_scope.

Lemma safe_bound (z : Z) : safe z -> 0 <= inject_Z z <= pow2 53.
Proof.
  intros [H0 H1]. split.
  - apply zero_le_inject_Z. exact H0.
  - rewrite (pow2_int 53) by lia. rewrite <- Zle_Qle. lia.
Qed.

Lemma eps_facts :
  0 < pow2 (-53) /\ pow2 (-53) <= 1 # 2 /\ pow2 53 * pow2 (-53) == 1.
Proof.
  split; [apply pow2_pos|]. split.
  - change (1 # 2) with (pow2 (-1)). apply pow2_le. lia.
  - rewrite <- pow2_add. reflexivity.
Qed.

(** The product of the clip length and the scroll fraction, after its two
    roundings, is within two relative errors of [2 ^ -53] of the exact
    product. *)
Lemma product_error (n s r : Z) :
  safe n -> safe s -> safe r -> (1 <= n)%Z -> (1 <= s)%Z -> (1 <= r)%Z ->
  exists p,
    mul fl (of_Z n) (div fl (of_Z s) (fl (inject_Z r))) = Rat p /\
    inject_Z (n * s) / inject_Z r * ((1 - pow2 (-53)) * (1 - pow2 (-53)))
    <= p <=
    inject_Z (n * s) / inject_Z r * ((1 + pow2 (-53)) * (1 + pow2 (-53))).
Proof.
  intros Sn Ss Sr Hn Hs Hr.
  rewrite (fl_safe r Sr). unfold of_Z. cbn [div].
  rewrite Qzero_inject_Z.
  destruct (r =? 0)%Z eqn:E; [apply Z.eqb_eq in E; lia|]. clear E.
  destruct eps_facts as (E0 & E1 & E2).
  pose proof (safe_bound n Sn) as [_ Bn].
  pose proof (safe_bound s Ss) as [_ Bs].
  pose proof (safe_bound r Sr) as [_ Br].
  pose proof (one_le_inject_Z n Hn) as Ln.
  pose proof (one_le_inject_Z s Hs) as Ls.
  pose proof (one_le_inject_Z r Hr) as Lr.
  set (N := inject_Z n) in *. set (S := inject_Z s) in *.
  set (R := inject_Z r) in *. set (eps := pow2 (-53)) in *.
  set (T := pow2 53) in *.
  assert (HR : ~ R == 0) by lra.
  assert (Q0 : eps <= S / R).
  { apply Qle_shift_div_l; [lra|]. nra. }
  assert (Q1 : S / R <= T).
  { apply Qle_shift_div_r; [lra|]. nra. }
  assert (Lo : pow2 (-1022) <= pow2 (-54)) by (apply pow2_le; lia).
  assert (Hi : pow2 107 <= pow2 1023) by (apply pow2_le; lia).
  assert (E54 : pow2 (-54) == eps * (1 # 2)).
  { unfold eps. change (1 # 2) with (pow2 (-1)). rewrite <- pow2_add.
    reflexivity. }
  assert (E107 : pow2 107 == T * T * 2).
  { unfold T. change 2 with (pow2 1). rewrite <- !pow2_add. reflexivity. }
  assert (T1023 : T <= pow2 1023) by (apply pow2_le; lia).
  destruct (fl_error (S / R)) as [q [Eq [Hq0 Hq1]]]; [lra|lra|].
  rewrite Eq. cbn [mul]. fold eps in Hq0, Hq1.
  set (F := S / R) in *.
  assert (F0 : 0 < F) by lra.
  assert (Hqa : F * (1 # 2) <= q) by nra.
  assert (Hqb : q <= F * 2) by nra.
  assert (Hqc : q <= N * q) by nra.
  assert (Hqd : N * q <= T * (T * 2)).
  { apply Qle_trans with (T * q); [nra|]. nra. }
  destruct (fl_error (N * q)) as [p [Ep [Hp0 Hp1]]]; [lra|lra|].
  exists p. split; [exact Ep|]. fold eps in Hp0, Hp1.
  assert (X : inject_Z (n * s) / R == N * F).
  { rewrite inject_Z_mult. fold N S. unfold F. field. exact HR. }
  rewrite X.
  assert (A0 : N * F * (1 - eps) <= N * q) by nra.
  assert (A1 : N * q <= N * F * (1 + eps)) by nra.
  assert (P0 : 0 <= N * q) by nra.
  set (Y := N * q) in *. set (W := N * F) in *.
  split; nra.
Qed.


Lemma safe_representable (cfg : settings) (vp : viewport) :
  safe (numImages cfg) -> safe (scrollTop vp) ->
  safe (documentHeight vp) -> safe (windowHeight vp) ->
  representable cfg vp = true.
Proof.
  intros H1 H2 H3 H4. unfold representable.
  rewrite !is_double_safe by assumption. reflexivity.
Qed.

Lemma Qceiling_le_iff (p : Q) (k : Z) :
  (Qceiling p <= k)%Z <-> p <= inject_Z k.
Proof.
  split; intros H.
  - apply Qle_trans with (inject_Z (Qceiling p)); [apply Qle_ceiling|].
    rewrite <- Zle_Qle. exact H.
  - rewrite <- (Qceiling_Z k). apply Qceiling_resp_le. exact H.
Qed.

Lemma Qceiling_gt_iff (p : Q) (k : Z) :
  (k < Qceiling p)%Z <-> inject_Z k < p.
Proof.
  split; intros H.
  - apply Qnot_le_lt. intros H'. apply Qceiling_le_iff in H'. lia.
  - apply Z.nle_gt. intros H'. apply Qceiling_le_iff in H'. lra.
Qed.

End Bands.

(** X1: with numbers below [2 ^ 53] and on a document taller than the window,
    frame [k] is current only if the exact product [numImages * scrollTop /
    range] lies in the band [(k - 1, k]] up to two rounding errors of
    [2 ^ -53] each, and it is current wherever the product lies in that band
    with the same margin; [range] is the height of the document minus the
    height of the window, and frame 1 also takes every product below its
    band. *)
Theorem X1_frame_bands (cfg : settings) (vp : viewport) (k : Z) :
  safe (numImages cfg) -> safe (scrollTop vp) ->
  safe (documentHeight vp) -> safe (windowHeight vp) ->
  1 <= numImages cfg ->
  windowHeight vp < documentHeight vp ->
  1 <= k ->
  let range := documentHeight vp - windowHeight vp in
  let x := (inject_Z (numImages cfg * scrollTop vp) / inject_Z range)%Q in
  let low := (x * ((1 - pow2 (-53)) * (1 - pow2 (-53))))%Q in
  let high := (x * ((1 + pow2 (-53)) * (1 + pow2 (-53))))%Q in
  (calculateCurrent cfg vp = Int k ->
   (low <= inject_Z k)%Q /\ (k = 1 \/ (inject_Z (k - 1) < high)%Q)) /\
  ((high <= inject_Z k)%Q ->
   k = 1 \/ (inject_Z (k - 1) < low)%Q ->
   calculateCurrent cfg vp = Int k).
Proof.
  intros Sn Ss Sd Sw Hn Hd Hk range x low high.
  assert (Sr : safe range) by (unfold safe, range in *; lia).
  assert (Hr : 1 <= range) by (unfold range; lia).
  destruct (Z.eq_dec (scrollTop vp) 0) as [Hs|Hs].
  - rewrite (calculateCurrent_top cfg vp Hd Hs).
    assert (X : (x == 0)%Q).
    { unfold x. rewrite Hs, Z.mul_0_r. unfold Qdiv.
      change (inject_Z 0) with 0%Q. ring. }
    assert (L : (low == 0)%Q) by (unfold low; rewrite X; ring).
    assert (K0 : (0 <= inject_Z (k - 1))%Q)
      by (apply zero_le_inject_Z; lia).
    split.
    + intros H. injection H as <-. split; [rewrite L; discriminate|].
      left. reflexivity.
    + intros _ [->|H]; [reflexivity|]. rewrite L in H. lra.
  - destruct (product_error (numImages cfg) (scrollTop vp) range Sn Ss Sr
                Hn ltac:(unfold safe in Ss; lia) Hr) as [p [Ep [Hp0 Hp1]]].
    rewrite (calculateCurrent_rounded cfg vp
               (safe_representable cfg vp Sn Ss Sd Sw)).
    fold range. rewrite Ep. cbn [ceil]. rewrite max_Int.
    fold x in Hp0, Hp1. fold low in Hp0. fold high in Hp1.
    pose proof (Qceiling_le_iff p k) as C1.
    pose proof (Qceiling_gt_iff p (k - 1)) as C2.
    split.
    + intros H. injection H as H. split.
      * apply Qle_trans with p; [exact Hp0|]. apply C1. lia.
      * destruct (Z.eq_dec k 1) as [E|E]; [left; exact E|right].
        apply Qlt_le_trans with p; [|exact Hp1]. apply C2. lia.
    + intros Hh Hl. f_equal.
      assert (Qceiling p <= k) by (apply C1; lra).
      destruct Hl as [->|Hl]; [lia|].
      assert (k - 1 < Qceiling p) by (apply C2; lra). lia.
Qed.

Lemma X1_frame_bands_witness :
  calculateCurrent (sample 100 10 false) (at_offset 61 1600 600) = Int 7.
Proof.
  apply (X1_frame_bands (sample 100 10 false) (at_offset 61 1600 600) 7).
  - unfold safe. simpl. lia.
  - unfold safe. simpl. lia.
  - unfold safe. simpl. lia.
  - unfold safe. simpl. lia.
  - simpl. lia.
  - simpl. lia.
  - lia.
  - vm_compute. discriminate.
  - right. vm_compute. reflexivity.
Defined.

(** X2: on a document taller than the window, for a clip with a
    non-negative number of frames and numbers that are binary64 values,
    scrolling down never moves the frame back: rounding keeps the order. *)
Theorem X2_frame_monotone (cfg : settings) (vp vp' : viewport) :
  representable cfg vp = true ->
  representable cfg vp' = true ->
  windowHeight vp < documentHeight vp ->
  documentHeight vp' = documentHeight vp ->
  windowHeight vp' = windowHeight vp ->
  0 <= numImages cfg ->
  scrollTop vp <= scrollTop vp' ->
  le (calculateCurrent cfg vp) (calculateCurrent cfg vp') = true.
Proof.
  intros Hr Hr' Hd Hdoc Hwin Hn Hs.
  rewrite (calculateCurrent_rounded cfg vp Hr).
  rewrite (calculateCurrent_rounded cfg vp' Hr'). rewrite Hdoc, Hwin.
  destruct (representable_inv cfg vp Hr) as (_ & Ds & _ & _).
  destruct (representable_inv cfg vp' Hr') as (_ & Ds' & _ & _).
  apply is_double_fl in Ds, Ds'.
  set (r := documentHeight vp - windowHeight vp).
  assert (Hr1 : 1 <= r) by (unfold r; lia).
  pose proof (percent_mono r _ _ Hr1 Hs) as Hm.
  destruct (percent_finite r (scrollTop vp) Hr1 Ds) as [a [Ea _]].
  destruct (percent_finite r (scrollTop vp') Hr1 Ds') as [a' [Ea' _]].
  rewrite Ea, Ea' in *. cbn [rle] in Hm.
  apply max_mono, ceil_mono. unfold of_Z. cbn [mul]. apply fl_mono.
  pose proof (zero_le_inject_Z (numImages cfg) Hn). nra.
Qed.

Lemma X2_frame_monotone_witness :
  le (calculateCurrent (sample 100 10 false) (at_offset 50 1600 600))
     (calculateCurrent (sample 100 10 false) (at_offset 65 1600 600)) = true.
Proof.
  apply X2_frame_monotone; simpl; first [reflexivity | lia | vm_compute; reflexivity].
Defined.

(** X3: on a document taller than the window the clip starts at the top and
    ends at the bottom: offset 0 gives frame 1, and the largest offset gives
    frame [numImages] (frame 1 when [numImages] is below 1). *)
Theorem X3_frame_at_the_ends (cfg : settings) (vp : viewport) :
  windowHeight vp < documentHeight vp ->
  (scrollTop vp = 0 -> calculateCurrent cfg vp = Int 1) /\
  (scrollTop vp = documentHeight vp - windowHeight vp ->
   calculateCurrent cfg vp = Int (Z.max 1 (numImages cfg))).
Proof.
  intros Hd. split; intros Hs.
  - apply calculateCurrent_top; assumption.
  - apply calculateCurrent_bottom; assumption.
Qed.

Lemma X3_frame_at_the_ends_witness :
  calculateCurrent (sample 100 10 false) (at_offset 1000 1600 600) = Int 100.
Proof.
  apply (X3_frame_at_the_ends (sample 100 10 false) (at_offset 1000 1600 600));
    simpl; first [reflexivity | lia].
Defined.

(** ** File names tell frames apart *)

Lemma read_app (s1 s2 : string) :
  forall acc, read acc (s1 ++ s2) = read (read acc s1) s2.
Proof.
  induction s1 as [|c r IH]; intros acc; simpl; [reflexivity|apply IH].
Qed.

Lemma append_assoc (s1 s2 s3 : string) :
  ((s1 ++ s2) ++ s3 = s1 ++ (s2 ++ s3))%string.
Proof.
  induction s1 as [|c r IH]; simpl; [reflexivity|]. f_equal. exact IH.
Qed.

Lemma append_length (s1 s2 : string) :
  String.length (s1 ++ s2) = (String.length s1 + String.length s2)%nat.
Proof.
  induction s1 as [|c r IH]; simpl; [reflexivity|]. f_equal. exact IH.
Qed.

Lemma digits_acc (fuel : nat) :
  forall n acc,
    digits fuel n acc = (digits fuel n EmptyString ++ acc)%string.
Proof.
  induction fuel as [|k IH]; intros n acc; simpl; [reflexivity|].
  destruct (n <? 10); [reflexivity|].
  rewrite (IH (n / 10) (String _ acc)), (IH (n / 10) (String _ EmptyString)).
  rewrite append_assoc. reflexivity.
Qed.

Lemma digit_value (d : Z) :
  0 <= d < 10 -> Z.of_nat (nat_of_ascii (digit d)) - 48 = d.
Proof.
  intros H. unfold digit. rewrite nat_ascii_embedding; lia.
Qed.

Lemma read_digits (fuel : nat) :
  forall n acc,
    0 <= n < 10 ^ Z.of_nat fuel ->
    read acc (digits fuel n EmptyString)
    = acc * 10 ^ Z.of_nat (String.length (digits fuel n EmptyString)) + n.
Proof.
  induction fuel as [|k IH]; intros n acc Hn.
  - simpl in *. lia.
  - rewrite Nat2Z.inj_succ, Z.pow_succ_r in Hn by lia.
    cbn [digits]. pose proof (Z.mod_pos_bound n 10 ltac:(lia)) as Hm.
    destruct (n <? 10) eqn:E.
    + apply Z.ltb_lt in E. cbn [read String.length].
      rewrite digit_value by exact Hm. rewrite Z.mod_small by lia.
      change (Z.of_nat 1) with 1. lia.
    + apply Z.ltb_ge in E. rewrite digits_acc, read_app, append_length.
      assert (Hq : 0 <= n / 10 < 10 ^ Z.of_nat k).
      { split; [apply Z.div_pos; lia|].
        apply Z.div_lt_upper_bound; lia. }
      rewrite (IH (n / 10) acc Hq). cbn [read String.length].
      rewrite digit_value by exact Hm.
      rewrite Nat2Z.inj_add. change (Z.of_nat 1) with 1.
      rewrite Z.pow_add_r by lia.
      pose proof (Z.div_mod n 10 ltac:(lia)). lia.
Qed.

Lemma read_decimal (n : Z) : 0 <= n -> read 0 (decimal n) = n.
Proof.
  intros Hn. unfold decimal. rewrite read_digits; [lia|].
  split; [exact Hn|].
  destruct (Z.eq_dec n 0) as [->|Hne]; [reflexivity|].
  rewrite Nat2Z.inj_succ, Z2Nat.id by apply Z.log2_nonneg.
  pose proof (Z.log2_spec n ltac:(lia)) as [_ Hhi].
  eapply Z.lt_le_trans; [exact Hhi|].
  apply Z.pow_le_mono_l. pose proof (Z.log2_nonneg n). lia.
Qed.

Lemma read_zeros (k : nat) : read 0 (zeros k) = 0.
Proof. induction k as [|j IH]; simpl; [reflexivity|exact IH]. Qed.

(** Reading a zero-filled number gives the number back. *)
Lemma read_zerofill (w : nat) (n : Z) (len : option nat) :
  safe n -> read 0 (zerofill w (Int n) len) = n.
Proof.
  intros Hn. unfold zerofill. rewrite String_Int_safe by exact Hn.
  rewrite pad_zeros, read_app, read_zeros. apply read_decimal.
  exact (proj1 Hn).
Qed.

Lemma append_inj_l (p s1 s2 : string) :
  (p ++ s1 = p ++ s2)%string -> s1 = s2.
Proof.
  induction p as [|c r IH]; simpl; intros H; [exact H|].
  injection H as H. apply IH. exact H.
Qed.

Lemma append_inj_r (s1 : string) :
  forall s2 q, (s1 ++ q = s2 ++ q)%string -> s1 = s2.
Proof.
  induction s1 as [|c r IH]; intros s2 q H.
  - destruct s2 as [|d t]; [reflexivity|].
    apply (f_equal String.length) in H. simpl in H.
    rewrite append_length in H. lia.
  - destruct s2 as [|d t].
    + apply (f_equal String.length) in H. simpl in H.
      rewrite append_length in H. lia.
    + simpl in H. injection H as -> H. f_equal. apply (IH t q). exact H.
Qed.

(** X4: [zerofill] never shortens a number, and it keeps the integers of at
    most 53 bits apart: the result has the width asked for, or the length of
    the number when that is larger, and two non-negative integers below
    [2 ^ 53] filled to the same width give the same string only when they are
    equal. *)
Theorem X4_zerofill_injective (w : nat) (len : option nat) :
  (forall x,
      String.length (zerofill w x len)
      = Nat.max (match len with None => w | Some l => l end)
                (String.length (String_ x))) /\
  (forall n m,
      safe n -> safe m ->
      zerofill w (Int n) len = zerofill w (Int m) len -> n = m).
Proof.
  split.
  - intros x. unfold zerofill. rewrite pad_length. lia.
  - intros n m Hn Hm H. apply (f_equal (read 0)) in H.
    rewrite !read_zerofill in H by assumption. exact H.
Qed.

(** X5: within one resolution tier the images of different frames, numbered
    below [2 ^ 53], have different sources. *)
Theorem X5_generateImg_src_injective (cfg : settings) (s : state)
    (hr hr' : bool) (i j : Z) :
  safe i -> safe j ->
  upgraded (generateImg cfg (Int i) hr s)
  = upgraded (generateImg cfg (Int j) hr' s) ->
  src (generateImg cfg (Int i) hr s) = src (generateImg cfg (Int j) hr' s) ->
  i = j.
Proof.
  intros Hi Hj Hup Hsrc. unfold generateImg in *.
  destruct (hr || includes (preloadedBig s) (Int i)),
           (hr' || includes (preloadedBig s) (Int j));
    cbn [upgraded src] in *; try discriminate;
    apply append_inj_l, append_inj_l, append_inj_r in Hsrc;
    apply (f_equal (read 0)) in Hsrc;
    rewrite !read_zerofill in Hsrc by assumption; exact Hsrc.
Qed.

Lemma X4_zerofill_injective_witness :
  String.length (zerofill 3 (Int 1234) None) = 4%nat /\
  zerofill 3 (Int 7) None <> zerofill 3 (Int 70) None.
Proof.
  destruct (X4_zerofill_injective 3 None) as [Hl Hi]. split.
  - rewrite Hl. vm_compute. reflexivity.
  - intros H. apply Hi in H; unfold safe; lia.
Defined.

Lemma X5_generateImg_src_injective_witness :
  src (generateImg (sample 100 10 false) (Int 7) false initial)
  <> src (generateImg (sample 100 10 false) (Int 70) false initial).
Proof.
  intros H.
  apply (X5_generateImg_src_injective (sample 100 10 false) initial
           false false 7 70) in H;
    first [lia | reflexivity | unfold safe; lia].
Defined.

(** ** [Array.prototype.remove] *)

(** X6: [remove(from, to)] deletes the slots from position [from] to position
    [to] (position [from] alone when [to] is absent), negative indices
    counting from the end, and returns the new length, whenever the two
    positions lie in the array in that order. *)
Theorem X6_remove_deletes_range {A : Type} (l : list (option A)) (from : Z)
    (to : option Z) :
  let upto := match to with None => from | Some t => t end in
  0 <= position l from <= position l upto ->
  position l upto < Z.of_nat (List.length l) ->
  remove from to l
  = Some (firstn (Z.to_nat (position l from)) l
          ++ skipn (Z.to_nat (position l upto + 1)) l,
          Z.of_nat (List.length l) - (position l upto - position l from + 1)).
Proof.
  intros upto [Hlo Hle] Hhi. unfold remove.
  set (len := Z.of_nat (List.length l)) in *.
  assert (Hn : (if from <? 0 then len + from else from) = position l from)
    by reflexivity.
  rewrite Hn. destruct (position l from <? 0) eqn:E;
    [apply Z.ltb_lt in E; lia|].
  destruct (len <=? position l from) eqn:E';
    [apply Z.leb_le in E'; lia|]. cbn [orb andb].
  assert (Hrest : slice (if or_from to from + 1 =? 0 then len
                         else or_from to from + 1) l
                  = skipn (Z.to_nat (position l upto + 1)) l).
  { assert (Hor : position l (or_from to from) = position l upto).
    { unfold or_from, upto. destruct to as [t|]; [|reflexivity].
      destruct (t =? 0) eqn:Et; [|reflexivity].
      apply Z.eqb_eq in Et. subst t. unfold upto in *.
      unfold position in *. fold len in Hlo, Hle, Hhi |- *.
      change (0 <? 0) with false in *. cbv iota in *.
      destruct (from <? 0) eqn:Ef; [apply Z.ltb_lt in Ef|apply Z.ltb_ge in Ef];
        lia. }
    set (t := or_from to from) in *. unfold slice.
    fold len. destruct (t + 1 =? 0) eqn:E1.
    - apply Z.eqb_eq in E1.
      assert (Ht : (if t <? 0 then len + t else t) = position l upto)
        by exact Hor.
      destruct (len <? 0) eqn:E2; [apply Z.ltb_lt in E2; lia|].
      destruct (t <? 0) eqn:E3; [|apply Z.ltb_ge in E3; lia].
      f_equal. lia.
    - apply Z.eqb_neq in E1.
      assert (Ht : (if t <? 0 then len + t else t) = position l upto)
        by exact Hor.
      destruct (t <? 0) eqn:E3.
      + apply Z.ltb_lt in E3.
        destruct (t + 1 <? 0) eqn:E4; [|apply Z.ltb_ge in E4; lia].
        f_equal. lia.
      + apply Z.ltb_ge in E3.
        destruct (t + 1 <? 0) eqn:E4; [apply Z.ltb_lt in E4; lia|].
        f_equal. lia. }
  rewrite Hrest. unfold set_length.
  replace (Z.to_nat (position l from) - List.length l)%nat with 0%nat
    by (unfold len in *; lia).
  cbn [repeat]. rewrite app_nil_r.
  assert (Hlen : Z.of_nat (List.length
                   (firstn (Z.to_nat (position l from)) l
                    ++ skipn (Z.to_nat (position l upto + 1)) l))
                 = len - (position l upto - position l from + 1)).
  { rewrite length_app, length_firstn, length_skipn. unfold len in *. lia. }
  cbv zeta. rewrite Hlen.
  destruct (len <? len - (position l upto - position l from + 1)) eqn:E2;
    [apply Z.ltb_lt in E2; lia|].
  reflexivity.
Qed.

Lemma X6_remove_deletes_range_witness :
  remove (-3) (Some (-2)) [Some 10; Some 20; Some 30; Some 40; Some 50]
  = Some ([Some 10; Some 20; Some 50], 3).
Proof.
  apply (X6_remove_deletes_range
           [Some 10; Some 20; Some 30; Some 40; Some 50] (-3) (Some (-2)));
    repeat split; vm_compute; congruence.
Defined.

(** X7: out of range, [remove] does not leave the array alone: an index at or
    past the end and below [2 ^ 32] makes the array that long, filling it with
    empty slots, and deletes nothing; an index before the start is a
    [RangeError], and so is an index of [2 ^ 32] or more on an array, which
    has fewer slots than that. *)
Theorem X7_remove_out_of_range {A : Type} (l : list (option A)) (from : Z) :
  let len := Z.of_nat (List.length l) in
  (len <= from < 2 ^ 32 ->
   remove from None l = Some (l ++ repeat None (Z.to_nat (from - len)), from))
  /\
  (from < - len -> forall to, remove from to l = None) /\
  (len < 2 ^ 32 <= from -> forall to, remove from to l = None).
Proof.
  intros len. split; [|split].
  - intros [H H32]. unfold remove, or_from, slice. fold len.
    destruct (from + 1 =? 0) eqn:E1; [apply Z.eqb_eq in E1; lia|].
    destruct (from + 1 <? 0) eqn:E2; [apply Z.ltb_lt in E2; lia|].
    destruct (from <? 0) eqn:E3; [apply Z.ltb_lt in E3; lia|].
    destruct (2 ^ 32 <=? from) eqn:E4; [apply Z.leb_le in E4; lia|].
    rewrite andb_false_r. cbn [orb].
    replace (Z.to_nat (Z.min (from + 1) len)) with (List.length l)
      by (unfold len in *; lia).
    rewrite skipn_all, app_nil_r. unfold set_length.
    rewrite firstn_all2 by (unfold len in *; lia).
    replace (Z.to_nat from - List.length l)%nat with (Z.to_nat (from - len))
      by (unfold len in *; lia).
    assert (Hlen : Z.of_nat (List.length
                     (l ++ repeat None (Z.to_nat (from - len)))) = from).
    { rewrite length_app, repeat_length. unfold len in *. lia. }
    cbv zeta. rewrite Hlen, E4, andb_false_r, ?E3. reflexivity.
  - intros H to. unfold remove. fold len.
    destruct (from <? 0) eqn:E1; [|apply Z.ltb_ge in E1; lia].
    destruct (len + from <? 0) eqn:E2; [reflexivity|].
    apply Z.ltb_ge in E2. lia.
  - intros [H H32] to. unfold remove. fold len.
    destruct (from <? 0) eqn:E1; [apply Z.ltb_lt in E1; lia|].
    destruct (len <=? from) eqn:E2; [|apply Z.leb_gt in E2; lia].
    destruct (2 ^ 32 <=? from) eqn:E3; [|apply Z.leb_gt in E3; lia].
    rewrite ?E1. reflexivity.
Qed.

Lemma X7_remove_out_of_range_witness :
  remove 4 None [Some 10; Some 20]
  = Some ([Some 10; Some 20; None; None], 4).
Proof.
  apply (X7_remove_out_of_range [Some 10; Some 20] 4). simpl. lia.
Defined.

(** ** The replacement [indexOf] *)

Lemma search_spec (l : list (option num)) (elt : num) (fuel : nat) :
  forall from,
    (Z.to_nat (Z.of_nat (List.length l) - from) < fuel)%nat ->
    exists r,
      search fuel l (Z.of_nat (List.length l)) elt (Int from) = Some (Int r) /\
      (forall i, from <= i -> i < r \/ r = -1 -> found l elt (Int i) = false)
      /\
      (r = -1 \/
       (from <= r < Z.of_nat (List.length l) /\ 0 <= r /\
        found l elt (Int r) = true)).
Proof.
  set (len := Z.of_nat (List.length l)).
  assert (Hout : forall i, len <= i -> found l elt (Int i) = false).
  { intros i Hi. unfold found. destruct (i <? 0); [reflexivity|].
    assert (H : nth_error l (Z.to_nat i) = None)
      by (apply nth_error_None; unfold len in Hi; lia).
    rewrite H. reflexivity. }
  induction fuel as [|k IH]; intros from Hf; [lia|].
  cbn [search lt]. destruct (from <? len) eqn:E.
  - apply Z.ltb_lt in E. destruct (found l elt (Int from)) eqn:Ef.
    + exists from. split; [reflexivity|]. split.
      * intros i Hi [Hlt|Hr]; [lia|].
        subst from. unfold found in Ef. simpl in Ef. discriminate.
      * right. split; [lia|]. split; [|exact Ef].
        unfold found in Ef. destruct (from <? 0) eqn:E0; [discriminate|].
        apply Z.ltb_ge in E0. exact E0.
    + cbn [add]. destruct (IH (from + 1)) as [r [Hs [Hnone Hr]]]; [lia|].
      exists r. split; [exact Hs|]. split.
      * intros i Hi Hir.
        destruct (Z.eq_dec i from) as [->|Hne]; [exact Ef|].
        apply Hnone; lia.
      * destruct Hr as [Hr|[Hr1 [Hr2 Hr3]]]; [left; exact Hr|right].
        split; [lia|]. split; assumption.
  - apply Z.ltb_ge in E. exists (-1). split; [reflexivity|]. split.
    + intros i Hi _. apply Hout. lia.
    + left. reflexivity.
Qed.

(** X8: the replacement [indexOf], called with an integral start index or
    none, returns the first position at or after the start whose slot
    strictly equals the element, and [-1] when there is none; a negative
    start counts from the end. *)
Theorem X8_indexOf_first_match (l : list (option num)) (elt : num)
    (arg : option Z) (fuel : nat) :
  let len := Z.of_nat (List.length l) in
  let given := match arg with None => 0 | Some z => z end in
  let start := if given <? 0 then given + len else given in
  (Z.to_nat (len - start) < fuel)%nat ->
  exists r,
    indexOf fuel l elt (option_map Int arg) = Some (Int r) /\
    (forall i, start <= i -> i < r \/ r = -1 -> found l elt (Int i) = false)
    /\
    (r = -1 \/
     (start <= r < len /\ 0 <= r /\ found l elt (Int r) = true)).
Proof.
  intros len given start Hf. unfold indexOf. fold len.
  assert (Hfrom : (if lt (from_argument (option_map Int arg)) (Int 0)
                   then add (from_argument (option_map Int arg)) (Int len)
                   else from_argument (option_map Int arg)) = Int start).
  { unfold start, given. destruct arg as [z|]; [|reflexivity].
    cbn [option_map from_argument lt add]. destruct (z <? 0); reflexivity. }
  rewrite Hfrom. apply search_spec. exact Hf.
Qed.

Lemma X8_indexOf_first_match_witness :
  exists r,
    indexOf 5 [Some (Int 4); Some (Int 7); None; Some (Int 7)] (Int 7)
      (Some (Int (-2))) = Some (Int r) /\
    (forall i, 2 <= i -> i < r \/ r = -1 ->
               found [Some (Int 4); Some (Int 7); None; Some (Int 7)]
                 (Int 7) (Int i) = false) /\
    (r = -1 \/
     (2 <= r < 4 /\ 0 <= r /\
      found [Some (Int 4); Some (Int 7); None; Some (Int 7)]
        (Int 7) (Int r) = true)).
Proof.
  apply (X8_indexOf_first_match
           [Some (Int 4); Some (Int 7); None; Some (Int 7)] (Int 7)
           (Some (-2)) 5).
  vm_compute. lia.
Defined.

Lemma strict_eq_sym (a b : num) : strict_eq a b = strict_eq b a.
Proof.
  destruct a as [|s|x], b as [|t|y]; simpl; try reflexivity.
  - destruct s, t; reflexivity.
  - apply Z.eqb_sym.
Qed.

Lemma found_dense (l : list num) (elt : num) (i : nat) :
  found (map Some l) elt (Int (Z.of_nat i))
  = match nth_error l i with Some v => strict_eq elt v | None => false end.
Proof.
  unfold found. destruct (Z.of_nat i <? 0) eqn:E; [apply Z.ltb_lt in E; lia|].
  rewrite Nat2Z.id, nth_error_map.
  destruct (nth_error l i); simpl; [apply strict_eq_sym|reflexivity].
Qed.

(** X9: on an array without empty slots the replacement [indexOf] finds an
    element exactly when the array holds one strictly equal to it: the test
    [indexOf(x) !== -1] of the plugin gives the same answers with it. *)
Theorem X9_indexOf_agrees_with_includes (l : list num) (x : num)
    (fuel : nat) :
  (List.length l < fuel)%nat ->
  exists r,
    indexOf fuel (map Some l) x None = Some (Int r) /\
    (includes l x = negb (r =? -1)).
Proof.
  intros Hf.
  destruct (search_spec (map Some l) x fuel 0)
    as [r [Hr [Hnone Hres]]].
  { rewrite length_map. lia. }
  exists r. split; [exact Hr|].
  rewrite length_map in Hres. cbn -[found Z.of_nat] in Hnone, Hres.
  destruct Hres as [->|[Hlt [H0 Hfound]]].
  - change (-1 =? -1) with true. cbn [negb]. unfold includes.
    destruct (existsb (strict_eq x) l) eqn:E; [|reflexivity].
    apply existsb_exists in E. destruct E as [v [Hin Hv]].
    apply In_nth_error in Hin. destruct Hin as [i Hi].
    assert (H : found (map Some l) x (Int (Z.of_nat i)) = false)
      by (apply Hnone; [lia|right; reflexivity]).
    rewrite found_dense, Hi, Hv in H. discriminate.
  - destruct (r =? -1) eqn:E; [apply Z.eqb_eq in E; lia|]. cbn [negb].
    unfold includes. apply existsb_exists.
    rewrite <- (Z2Nat.id r), found_dense in Hfound by lia.
    destruct (nth_error l (Z.to_nat r)) as [v|] eqn:Hv; [|discriminate].
    exists v. split; [eapply nth_error_In; exact Hv|exact Hfound].
Qed.

Lemma X9_indexOf_agrees_with_includes_witness :
  exists r,
    indexOf 4 (map Some [Int 4; Int 7; Int 9]) (Int 7) None = Some (Int r) /\
    includes [Int 4; Int 7; Int 9] (Int 7) = negb (r =? -1).
Proof.
  apply (X9_indexOf_agrees_with_includes [Int 4; Int 7; Int 9] (Int 7) 4).
  simpl. lia.
Defined.

Lemma search_minus_infinity (l : list (option num)) (len : Z) (elt : num)
    (fuel : nat) :
  search fuel l len elt (Inf true) = None.
Proof. induction fuel as [|k IH]; [reflexivity|exact IH]. Qed.

(** X10: started at [-Infinity] the replacement [indexOf] never returns: the
    index stays [-Infinity], which is below the length and names no slot,
    however many rounds the loop makes.  Started at [Infinity] it returns
    [-1] at once, and [NaN] counts as no start index. *)
Theorem X10_indexOf_infinite_start (l : list (option num)) (elt : num) :
  (forall fuel, indexOf fuel l elt (Some (Inf true)) = None) /\
  (forall fuel, indexOf (S fuel) l elt (Some (Inf false)) = Some (Int (-1)))
  /\
  (forall fuel, indexOf fuel l elt (Some NaN) = indexOf fuel l elt None).
Proof.
  split; [|split]; intros fuel.
  - unfold indexOf. cbn [from_argument lt add].
    apply search_minus_infinity.
  - reflexivity.
  - reflexivity.
Qed.

(** ** The [requestAnimationFrame] replacement: which one, and when *)

Lemma assign_eq (k : string) (v : option fn) (w : window) :
  assign k v w k = v.
Proof. unfold assign. rewrite String.eqb_refl. reflexivity. Qed.

Lemma assign_neq (k k' : string) (v : option fn) (w : window) :
  String.eqb k' k = false -> assign k v w k' = w k'.
Proof. intros H. unfold assign. rewrite H. reflexivity. Qed.

Lemma vendor_loop_kept (vs : list string) (w : window) (f : fn) :
  w "requestAnimationFrame"%string = Some f -> vendor_loop vs w = w.
Proof. intros H. destruct vs; cbn [vendor_loop]; rewrite ?H; reflexivity. Qed.

Lemma first_vendor_ext (vs : list string) (w w' : window) :
  (forall v, In v vs ->
             w' (v ++ "RequestAnimationFrame")%string
             = w (v ++ "RequestAnimationFrame")%string) ->
  first_vendor vs w' = first_vendor vs w.
Proof.
  induction vs as [|v r IH]; intros H; cbn [first_vendor]; [reflexivity|].
  rewrite (H v) by (left; reflexivity).
  rewrite IH by (intros; apply H; right; assumption). reflexivity.
Qed.

Lemma vendor_loop_first (vs : list string) :
  Forall prefixed vs ->
  forall w,
    w "requestAnimationFrame"%string = None ->
    vendor_loop vs w "requestAnimationFrame"%string = first_vendor vs w.
Proof.
  induction 1 as [|v r Hv Hr IH]; intros w Hw;
    cbn [vendor_loop first_vendor]; [exact Hw|].
  rewrite Hw.
  set (w1 := assign "requestAnimationFrame" _ w).
  set (w2 := assign "cancelAnimationFrame" _ w1).
  assert (H2 : w2 "requestAnimationFrame"%string
               = w (v ++ "RequestAnimationFrame")%string).
  { unfold w2. rewrite assign_neq by reflexivity.
    unfold w1. apply assign_eq. }
  assert (Hext : first_vendor r w2 = first_vendor r w).
  { apply first_vendor_ext. intros v' Hv'.
    rewrite Forall_forall in Hr. destruct (Hr v' Hv') as [E1 E2].
    unfold w2. rewrite assign_neq by exact E2.
    unfold w1. apply assign_neq. exact E1. }
  destruct (w (v ++ "RequestAnimationFrame")%string) as [f|] eqn:E.
  - rewrite (vendor_loop_kept r w2 f H2). exact H2.
  - cbn [or_else]. rewrite (IH w2 H2). exact Hext.
Qed.

Lemma vendors_prefixed : Forall prefixed vendors.
Proof. repeat constructor. Qed.

(** X11: the replacement leaves [window] with a [requestAnimationFrame] and a
    [cancelAnimationFrame]; a [requestAnimationFrame] that is there is kept,
    and so is the [cancelAnimationFrame] beside it; without one, the first
    vendor implementation in the order ms, moz, webkit, o is taken, and the
    timer-based one when there is none. *)
Theorem X11_polyfill_selection (w : window) :
  let w' := injectRequestAnimationFolyfill w in
  w' "requestAnimationFrame"%string <> None /\
  w' "cancelAnimationFrame"%string <> None /\
  (forall f, w "requestAnimationFrame"%string = Some f ->
             w' "requestAnimationFrame"%string = Some f /\
             w' "cancelAnimationFrame"%string
             = or_else (w "cancelAnimationFrame"%string)
                       (Some TimerCancel)) /\
  (w "requestAnimationFrame"%string = None ->
   w' "requestAnimationFrame"%string
   = or_else (first_vendor vendors w) (Some TimerRequest)).
Proof.
  intros w'. unfold w', injectRequestAnimationFolyfill.
  set (w1 := vendor_loop vendors w).
  set (w2 := match w1 "requestAnimationFrame"%string with
             | Some _ => w1
             | None => assign "requestAnimationFrame" (Some TimerRequest) w1
             end).
  assert (Hraf : forall x : window,
            (match x "cancelAnimationFrame"%string with
             | Some _ => x
             | None => assign "cancelAnimationFrame" (Some TimerCancel) x
             end) "requestAnimationFrame"%string
            = x "requestAnimationFrame"%string).
  { intros x. destruct (x "cancelAnimationFrame"%string); [reflexivity|].
    apply assign_neq. reflexivity. }
  assert (Hcaf : forall x : window,
            (match x "cancelAnimationFrame"%string with
             | Some _ => x
             | None => assign "cancelAnimationFrame" (Some TimerCancel) x
             end) "cancelAnimationFrame"%string
            = or_else (x "cancelAnimationFrame"%string) (Some TimerCancel)).
  { intros x. destruct (x "cancelAnimationFrame"%string) eqn:E.
    - rewrite E. reflexivity.
    - apply assign_eq. }
  assert (H2 : w2 "requestAnimationFrame"%string
               = or_else (w1 "requestAnimationFrame"%string)
                   (Some TimerRequest)).
  { unfold w2. destruct (w1 "requestAnimationFrame"%string) eqn:E.
    - rewrite E. reflexivity.
    - apply assign_eq. }
  rewrite Hraf, Hcaf, H2.
  split; [destruct (w1 "requestAnimationFrame"%string); discriminate|].
  split; [destruct (w2 "cancelAnimationFrame"%string); discriminate|].
  split.
  - intros f Hf.
    assert (H1 : w1 = w) by (apply (vendor_loop_kept vendors w f Hf)).
    assert (Hw2 : w2 = w) by (unfold w2; rewrite H1, Hf; reflexivity).
    rewrite H1, Hw2, Hf. split; reflexivity.
  - intros Hnone. unfold w1.
    rewrite (vendor_loop_first vendors vendors_prefixed w Hnone).
    reflexivity.
Qed.

Lemma timerRequest_due (currTime lastTime : Z) :
  snd (timerRequest currTime lastTime) = Z.max currTime (lastTime + 16) /\
  currTime + fst (timerRequest currTime lastTime)
  = Z.max currTime (lastTime + 16).
Proof. unfold timerRequest. cbn [fst snd]. lia. Qed.

(** X12: the timer-based [requestAnimationFrame] never schedules a callback
    before the call that asks for it, and keeps callbacks at least 16
    milliseconds apart, however fast the calls come. *)
Theorem X12_timer_spacing (calls : list Z) :
  forall lastTime,
    Forall2 Z.le calls (due lastTime calls) /\
    spaced lastTime (due lastTime calls).
Proof.
  induction calls as [|t r IH]; intros lastTime; cbn [due spaced].
  - split; [constructor|exact I].
  - unfold timerRequest.
    destruct (IH (t + Z.max 0 (16 - (t - lastTime)))) as [H1 H2].
    split; [constructor; [lia|exact H1]|]. cbn [spaced].
    split; [lia|exact H2].
Qed.

(** ** The animation loop *)

Lemma backstage_refl (s : state) : backstage s s.
Proof. repeat split. Qed.

Lemma backstage_trans (s1 s2 s3 : state) :
  backstage s1 s2 -> backstage s2 s3 -> backstage s1 s3.
Proof.
  unfold backstage. intros H1 H2.
  repeat match goal with H : _ /\ _ |- _ => destruct H end.
  repeat split; congruence.
Qed.

Lemma quiet_backstage (s s' : state) : quiet s s' -> backstage s s'.
Proof. unfold quiet, backstage. tauto. Qed.

Lemma bufferLoop_backstage (cfg : settings) (fr : num) (count : nat) :
  forall i s, backstage s (bufferLoop cfg count i fr s).
Proof.
  induction count as [|k IH]; intros i s; cbn [bufferLoop];
    [apply backstage_refl|].
  eapply backstage_trans; [|apply IH].
  destruct (_ && _); [|apply backstage_refl].
  eapply backstage_trans;
    [|apply quiet_backstage, markAsPreloaded_quiet].
  repeat split.
Qed.

Lemma bufferFromFrame_backstage (cfg : settings) (fr : num) (s : state) :
  backstage s (bufferFromFrame cfg fr s).
Proof.
  unfold bufferFromFrame.
  eapply backstage_trans; [|apply quiet_backstage, preload_quiet].
  destruct (_ <? _).
  - eapply backstage_trans with (s2 := bufferLoop cfg _ _ fr _);
      [|repeat split].
    eapply backstage_trans; [|apply bufferLoop_backstage]. repeat split.
  - repeat split.
Qed.

Lemma showFrame_backstage (cfg : settings) (fr : num) (s : state) :
  backstage s (showFrame cfg fr s).
Proof.
  unfold showFrame.
  eapply backstage_trans; [|apply bufferFromFrame_backstage].
  eapply backstage_trans;
    [|apply quiet_backstage, markAsPreloaded_quiet].
  destruct (onShowFrame cfg); repeat split.
Qed.

Lemma showFrameWhenReady_backstage (cfg : settings) (fr : num) (s : state) :
  backstage s (showFrameWhenReady cfg fr s).
Proof.
  unfold showFrameWhenReady.
  destruct (_ =? _)%nat; [repeat split|apply showFrame_backstage].
Qed.

Lemma strict_eq_Int_refl (a : num) :
  integral a -> strict_eq a a = true.
Proof. intros [z ->]. apply Z.eqb_refl. Qed.

Lemma animate_idle (cfg : settings) (vp : viewport) (s : state) :
  animating s = false -> animate cfg vp s = s.
Proof. intros H. unfold animate. rewrite H. reflexivity. Qed.

(** One round of a running loop: the frame under the offset becomes current,
    and [animating] stays set exactly when that frame is a new one. *)
Lemma animate_round (cfg : settings) (vp : viewport) (s : state) :
  integral (calculateCurrent cfg vp) ->
  animating s = true ->
  currentImg (animate cfg vp s) = calculateCurrent cfg vp /\
  animating (animate cfg vp s)
  = negb (strict_eq (calculateCurrent cfg vp) (currentImg s)).
Proof.
  intros Hint Ha. split; [apply animate_commits; assumption|].
  unfold animate. rewrite Ha.
  change (animating (emit RequestAnimationFrame ?x)) with (animating x).
  unfold neq.
  destruct (negb (strict_eq (calculateCurrent cfg vp) (currentImg s))).
  - destruct (showFrameWhenReady_backstage cfg (calculateCurrent cfg vp)
                (set_currentImg (calculateCurrent cfg vp) s))
      as (_ & _ & _ & H & _).
    rewrite H. exact Ha.
  - reflexivity.
Qed.

(** X13: once the scroll offset stops changing, the animation loop winds
    down by itself.  Where the offset gives an integral frame, two rounds of
    [animate] at that offset clear [animating], and every later round does
    nothing: it asks for no further animation frame. *)
Theorem X13_animation_winds_down (cfg : settings) (vp : viewport)
    (s : state) :
  integral (calculateCurrent cfg vp) ->
  let s2 := animate cfg vp (animate cfg vp s) in
  animating s2 = false /\
  currentImg s2 = (if animating s then calculateCurrent cfg vp
                   else currentImg s) /\
  forall vp', animate cfg vp' s2 = s2.
Proof.
  intros Hint s2.
  assert (Hstop : animating s2 = false /\
                  currentImg s2 = (if animating s then calculateCurrent cfg vp
                                   else currentImg s)).
  { unfold s2. destruct (animating s) eqn:Ha.
    - destruct (animate_round cfg vp s Hint Ha) as [Hc1 Ha1].
      destruct (animating (animate cfg vp s)) eqn:Ea.
      + destruct (animate_round cfg vp (animate cfg vp s) Hint Ea)
          as [Hc2 Ha2].
        rewrite Ha2, Hc2, Hc1.
        rewrite strict_eq_Int_refl by exact Hint. split; reflexivity.
      + rewrite (animate_idle cfg vp _ Ea). split; [exact Ea|exact Hc1].
    - rewrite (animate_idle cfg vp s Ha), (animate_idle cfg vp s Ha).
      split; [exact Ha|reflexivity]. }
  destruct Hstop as [Hs Hc]. split; [exact Hs|]. split; [exact Hc|].
  intros vp'. apply animate_idle. exact Hs.
Qed.

Lemma X13_animation_winds_down_witness :
  let cfg := sample 100 10 false in
  let s := set_animating true initial in
  animating (animate cfg at_frame_7 (animate cfg at_frame_7 s)) = false.
Proof.
  intros cfg s.
  apply (X13_animation_winds_down cfg at_frame_7 s).
  exists 7. vm_compute. reflexivity.
Defined.

(** X14: where the offset gives no number ([NaN], the top of a document no
    taller than the window), neither the animation loop nor the debounce
    timer ever settles: every round of [animate] leaves [animating] set and
    the frame [NaN], and [checkForScroll] then does nothing. *)
Theorem X14_animation_never_settles_on_NaN (cfg : settings) (vp : viewport)
    (s : state) :
  calculateCurrent cfg vp = NaN ->
  animating s = true ->
  let s1 := animate cfg vp s in
  animating s1 = true /\ currentImg s1 = NaN /\
  checkForScroll cfg s1 = Returns tt s1.
Proof.
  intros Hnan Ha s1.
  assert (H : animating s1 = true /\ currentImg s1 = NaN).
  { unfold s1, animate. rewrite Ha, Hnan. cbn [neq strict_eq negb].
    change (animating (emit RequestAnimationFrame ?x)) with (animating x).
    change (currentImg (emit RequestAnimationFrame ?x)) with (currentImg x).
    destruct (showFrameWhenReady_backstage cfg NaN (set_currentImg NaN s))
      as (_ & Hc & _ & Hb & _).
    rewrite Hc, Hb. split; [exact Ha|reflexivity]. }
  destruct H as [H1 H2]. split; [exact H1|]. split; [exact H2|].
  unfold checkForScroll. rewrite H2.
  destruct (lastCurrentImg s1) as [|b|z]; reflexivity.
Qed.

Lemma X14_animation_never_settles_on_NaN_witness :
  let cfg := sample 100 10 false in
  let s := set_animating true initial in
  animating (animate cfg (at_offset 0 600 600) s) = true.
Proof.
  intros cfg s.
  apply (X14_animation_never_settles_on_NaN cfg (at_offset 0 600 600) s);
    reflexivity.
Defined.

(** ** A scroll event and its debounce timer *)

Lemma upgradeFrame_animating (cfg : settings) (fr : num) (s : state) :
  animating (final (upgradeFrame cfg fr s)) = animating s.
Proof.
  unfold upgradeFrame. destruct (not_upgraded _); [|reflexivity].
  cbn [upgradeWrapper set_frame].
  destruct (upgradeWrapper s); reflexivity.
Qed.

Lemma checkForScroll_settles (cfg : settings) (s : state) :
  strict_eq (lastCurrentImg s) (currentImg s) = true ->
  animating (final (checkForScroll cfg s)) = false.
Proof.
  intros H. unfold checkForScroll. rewrite H.
  destruct (upgradeHighRes cfg).
  - pose proof (upgradeFrame_animating cfg
                  (currentImg (set_animating false s))
                  (set_animating false s)) as Ha.
    destruct (upgradeFrame cfg _ _) as [u s2|m s2]; cbn [final] in *;
      [|exact Ha].
    destruct (preload_quiet cfg s2) as (_ & _ & _ & E & _).
    rewrite E. exact Ha.
  - cbn [final].
    destruct (preload_quiet cfg (set_animating false s))
      as (_ & _ & _ & E & _).
    rewrite E. reflexivity.
Qed.

(** Whatever the frame under the offset is, a running [animate] leaves it
    as [currentImg]. *)
Lemma animate_sets_current (cfg : settings) (vp : viewport) (s : state) :
  animating s = true ->
  currentImg (animate cfg vp s) = calculateCurrent cfg vp.
Proof.
  intros Ha. unfold animate. rewrite Ha.
  change (currentImg (emit RequestAnimationFrame ?x)) with (currentImg x).
  unfold neq. destruct (strict_eq _ _) eqn:E; cbn [negb].
  - apply strict_eq_eq in E. symmetry. exact E.
  - rewrite (P_showFrameWhenReady cfg _ _ _ _ _ (closed_keeps_currentImg cfg));
      [reflexivity|exact I].
Qed.

Lemma strict_eq_refl (x : num) : x <> NaN -> strict_eq x x = true.
Proof.
  destruct x as [|b|z]; [congruence| |]; intros _; cbn.
  - destruct b; reflexivity.
  - apply Z.eqb_refl.
Qed.

(** X24: every scroll event re-arms the debounce timer, clearing the pending
    one first, and records as [lastCurrentImg] the frame that is current when
    the event is through; on an idle plugin that is the frame under the
    offset.  When the timer then fires with no change of frame in between and
    the frame is a number, the plugin settles: [animating] is cleared. *)
Theorem X24_scroll_then_timer_settles (cfg : settings) (vp : viewport)
    (s : state) :
  let s1 := scroll cfg vp s in
  (exists before,
      trace s1 = trace s ++ before ++ [ClearTimeout; SetTimeoutCheckForScroll])
  /\
  lastCurrentImg s1 = currentImg s1 /\
  currentImg s1 = (if animating s then currentImg s
                   else calculateCurrent cfg vp) /\
  (currentImg s1 <> NaN ->
   animating (final (checkForScroll cfg s1)) = false).
Proof.
  intros s1.
  set (s0 := if negb (animating s) then animate cfg vp (set_animating true s)
             else s).
  assert (Hs1 : s1 = emit SetTimeoutCheckForScroll
                       (emit ClearTimeout
                          (set_lastCurrentImg (currentImg s0) s0)))
    by reflexivity.
  assert (Hc0 : currentImg s0 = (if animating s then currentImg s
                                 else calculateCurrent cfg vp)).
  { unfold s0. destruct (animating s); cbn [negb]; [reflexivity|].
    apply animate_sets_current. reflexivity. }
  split; [|split; [|split]].
  - assert (Hext : exists ev, trace s0 = trace s ++ ev).
    { unfold s0. destruct (negb (animating s)).
      - apply (P_animate cfg _ _ _ _ _ (closed_extends cfg) vp
                 (set_animating true s) I).
      - exists []. rewrite app_nil_r. reflexivity. }
    destruct Hext as [ev Hev]. exists ev. rewrite Hs1.
    cbn [trace emit set_lastCurrentImg]. rewrite Hev, <- !app_assoc.
    reflexivity.
  - rewrite Hs1. reflexivity.
  - rewrite Hs1. exact Hc0.
  - intros Hnum. apply checkForScroll_settles. rewrite Hs1 in Hnum |- *.
    cbn [lastCurrentImg currentImg emit set_lastCurrentImg] in Hnum |- *.
    apply strict_eq_refl. exact Hnum.
Qed.

Lemma X24_scroll_then_timer_settles_witness :
  let cfg := sample 100 10 false in
  animating (final (checkForScroll cfg (scroll cfg at_frame_7 initial)))
  = false.
Proof.
  intros cfg.
  apply (X24_scroll_then_timer_settles cfg at_frame_7 initial).
  vm_compute. discriminate.
Defined.

(** ** [onPreloaded] is called once *)

Lemma unheard_refl (s : state) : unheard s s.
Proof. split; reflexivity. Qed.

Lemma unheard_trans (s1 s2 s3 : state) :
  unheard s1 s2 -> unheard s2 s3 -> unheard s1 s3.
Proof. unfold unheard. intros [H1 H2] [H3 H4]. split; congruence. Qed.

Lemma unheard_once (s s' : state) : unheard s s' -> once s -> once s'.
Proof. unfold unheard, once. intros [-> ->] H. exact H. Qed.

Lemma calls_emit (e : event) (s : state) :
  onPreloaded_calls (emit e s)
  = (onPreloaded_calls s + if is_OnPreloaded e then 1 else 0)%nat.
Proof.
  unfold onPreloaded_calls. cbn [trace emit].
  rewrite filter_app, length_app. cbn [filter].
  destruct (is_OnPreloaded e); reflexivity.
Qed.

Lemma unheard_emit (e : event) (s : state) :
  is_OnPreloaded e = false -> unheard s (emit e s).
Proof.
  intros H. split; [reflexivity|]. rewrite calls_emit, H. lia.
Qed.

Lemma markAsPreloaded_unheard (f : num) (s : state) :
  unheard s (markAsPreloaded f s).
Proof.
  unfold markAsPreloaded. destruct (includes _ _); split; reflexivity.
Qed.

Lemma markBigAsPreloaded_unheard (f : num) (s : state) :
  unheard s (markBigAsPreloaded f s).
Proof.
  unfold markBigAsPreloaded. destruct (includes _ _); split; reflexivity.
Qed.

Lemma onImagePreloaded_unheard (f : num) (t : tier) (s : state) :
  unheard s (onImagePreloaded f t s).
Proof.
  unfold onImagePreloaded.
  eapply unheard_trans; [|apply unheard_emit; reflexivity].
  destruct t; [apply markAsPreloaded_unheard|apply markBigAsPreloaded_unheard].
Qed.

Lemma preloadNext_unheard (cfg : settings) (t : tier) (s : state) :
  unheard s (preloadNext cfg t s).
Proof.
  unfold preloadNext.
  destruct (_ && _); [|apply unheard_refl].
  destruct (scan _ _ _); [|apply unheard_refl].
  eapply unheard_trans; [apply (onImagePreloaded_unheard (Int z) t)|].
  apply unheard_emit. reflexivity.
Qed.

Lemma preload_body_once (cfg : settings) (again : state -> state) :
  (forall s, once s -> once (again s)) ->
  forall s, once s -> once (preload_body cfg again s).
Proof.
  intros Hagain s Hs. unfold preload_body.
  destruct (preload_flag cfg); [|exact Hs].
  destruct (Z.of_nat (List.length (preloaded s)) <? numImages cfg);
    [exact (unheard_once _ _ (preloadNext_unheard cfg Low s) Hs)|].
  destruct (allPreloaded s) eqn:E.
  - rewrite andb_false_r. cbn [andb].
    destruct (Z.of_nat (List.length (preloadedBig s)) <? numImages cfg);
      [exact (unheard_once _ _ (preloadNext_unheard cfg High s) Hs)
      |exact Hs].
  - rewrite andb_true_r. cbn [andb].
    destruct (numImages cfg <=? Z.of_nat (List.length (preloaded s)));
      [|exact Hs].
    apply Hagain. unfold once in *. rewrite E in Hs.
    destruct (onPreloaded cfg).
    + rewrite calls_emit. cbn [allPreloaded emit set_allPreloaded].
      change (onPreloaded_calls (set_allPreloaded true s))
        with (onPreloaded_calls s). cbn [is_OnPreloaded]. lia.
    + cbn [allPreloaded set_allPreloaded].
      change (onPreloaded_calls (set_allPreloaded true s))
        with (onPreloaded_calls s). lia.
Qed.

Lemma preload_once (cfg : settings) (s : state) :
  once s -> once (preload cfg s).
Proof.
  unfold preload. apply preload_body_once. intros s'.
  apply preload_body_once. auto.
Qed.

Lemma bufferLoop_unheard (cfg : settings) (fr : num) (count : nat) :
  forall i s, unheard s (bufferLoop cfg count i fr s).
Proof.
  induction count as [|k IH]; intros i s; cbn [bufferLoop];
    [apply unheard_refl|].
  eapply unheard_trans; [|apply IH].
  destruct (_ && _); [|apply unheard_refl].
  eapply unheard_trans; [|apply markAsPreloaded_unheard].
  split; reflexivity.
Qed.

Lemma bufferFromFrame_once (cfg : settings) (fr : num) (s : state) :
  once s -> once (bufferFromFrame cfg fr s).
Proof.
  intros Hs. unfold bufferFromFrame. apply preload_once.
  match goal with
  | |- once (set_buffering false ?x) =>
      apply (unheard_once x); [split; reflexivity|]
  end.
  destruct (_ <? _);
    [eapply unheard_once; [apply bufferLoop_unheard|]|];
    (apply (unheard_once s); [split; reflexivity|exact Hs]).
Qed.

Lemma showFrame_once (cfg : settings) (fr : num) (s : state) :
  once s -> once (showFrame cfg fr s).
Proof.
  intros Hs. unfold showFrame. apply bufferFromFrame_once.
  eapply unheard_once; [apply markAsPreloaded_unheard|].
  match goal with
  | |- once (set_children _ (set_children _ ?x)) =>
      apply (unheard_once x); [split; reflexivity|]
  end.
  destruct (onShowFrame cfg); [|exact Hs].
  eapply unheard_once; [apply unheard_emit; reflexivity|exact Hs].
Qed.

Lemma showFrameWhenReady_once (cfg : settings) (fr : num) (s : state) :
  once s -> once (showFrameWhenReady cfg fr s).
Proof.
  intros Hs. unfold showFrameWhenReady.
  destruct (_ =? _)%nat; [|apply showFrame_once; exact Hs].
  eapply unheard_once; [apply unheard_emit; reflexivity|].
  apply (unheard_once s); [split; reflexivity|exact Hs].
Qed.

Lemma animate_once (cfg : settings) (vp : viewport) (s : state) :
  once s -> once (animate cfg vp s).
Proof.
  intros Hs. unfold animate. destruct (animating s); [|exact Hs].
  eapply unheard_once; [apply unheard_emit; reflexivity|].
  destruct (neq _ _);
    [|apply (unheard_once s); [split; reflexivity|exact Hs]].
  apply showFrameWhenReady_once.
  apply (unheard_once s); [split; reflexivity|exact Hs].
Qed.

Lemma scroll_once (cfg : settings) (vp : viewport) (s : state) :
  once s -> once (scroll cfg vp s).
Proof.
  intros Hs. unfold scroll.
  eapply unheard_once; [apply unheard_emit; reflexivity|].
  eapply unheard_once; [apply unheard_emit; reflexivity|].
  set (s1 := if negb (animating s) then _ else _).
  assert (H1 : once s1).
  { unfold s1. destruct (negb (animating s)); [|exact Hs].
    apply animate_once.
    apply (unheard_once s); [split; reflexivity|exact Hs]. }
  apply (unheard_once s1); [split; reflexivity|exact H1].
Qed.

Lemma upgradeFrame_unheard (cfg : settings) (fr : num) (s : state) :
  unheard s (final (upgradeFrame cfg fr s)).
Proof.
  unfold upgradeFrame. destruct (not_upgraded _); [|split; reflexivity].
  cbn [upgradeWrapper set_frame].
  destruct (upgradeWrapper s); cbn [final]; [|split; reflexivity].
  eapply unheard_trans; [|apply unheard_emit; reflexivity].
  split; reflexivity.
Qed.

Lemma upgradeLoaded_unheard (fr : num) (s : state) :
  unheard s (upgradeLoaded fr s).
Proof.
  unfold upgradeLoaded. destruct (upgradeWrapper s); [|apply unheard_refl].
  destruct (after _ _ _ _) as [l1 n].
  eapply unheard_trans; [|apply markBigAsPreloaded_unheard].
  split; reflexivity.
Qed.

Lemma checkForScroll_once (cfg : settings) (s : state) :
  once s -> once (final (checkForScroll cfg s)).
Proof.
  intros Hs. unfold checkForScroll.
  destruct (strict_eq _ _); [|exact Hs].
  destruct (upgradeHighRes cfg); [|apply preload_once; exact Hs].
  pose proof (upgradeFrame_unheard cfg (currentImg (set_animating false s))
                (set_animating false s)) as H.
  destruct (upgradeFrame cfg _ _) as [u s2|m s2]; cbn [final] in *.
  - apply preload_once. eapply unheard_once; [exact H|exact Hs].
  - eapply unheard_once; [exact H|exact Hs].
Qed.

Lemma exec_once (cfg : settings) (c : call) (s : state) :
  once s -> once (exec cfg c s).
Proof.
  intros Hs. destruct c; cbn [exec].
  - apply preload_once; exact Hs.
  - exact (unheard_once _ _ (preloadNext_unheard cfg t s) Hs).
  - exact (unheard_once _ _ (onImagePreloaded_unheard (Int i) t s) Hs).
  - apply scroll_once; exact Hs.
  - apply animate_once; exact Hs.
  - apply checkForScroll_once; exact Hs.
  - apply showFrameWhenReady_once; exact Hs.
  - apply showFrame_once; exact Hs.
  - apply bufferFromFrame_once; exact Hs.
  - exact (unheard_once _ _ (upgradeFrame_unheard cfg f s) Hs).
  - exact (unheard_once _ _ (upgradeLoaded_unheard f s) Hs).
Qed.

Lemma run_once (cfg : settings) (calls : list call) :
  forall s, once s -> once (run cfg calls s).
Proof.
  induction calls as [|c r IH]; intros s Hs; [exact Hs|].
  apply IH, exec_once, Hs.
Qed.

Lemma init_once (this : nat) (opts : option options) (il : bool)
    (vp : viewport) (d : defaults_t) (s : state) :
  once s -> once (final (init this opts il vp d s)).
Proof.
  intros Hs. unfold init.
  assert (H0 : once (set_this this (emit ConsoleLog s))).
  { apply (unheard_once (emit ConsoleLog s)); [split; reflexivity|].
    eapply unheard_once; [apply unheard_emit; reflexivity|exact Hs]. }
  destruct opts as [o|]; [|exact H0].
  destruct (falsyZ _); [exact H0|].
  destruct (falsyS (o_imgDir o)); [exact H0|].
  destruct (falsyS (o_imgName o)); [exact H0|].
  destruct (_ && _); [exact H0|].
  destruct (negb il); [exact H0|].
  set (cfg := extend d o).
  set (s1 := set_currentImg _ _).
  assert (H1 : once s1).
  { unfold s1.
    apply (unheard_once
             (set_imgStrLen (String.length (String_ (Int (numImages cfg))))
                (if requestAnimationFramePolyfill cfg
                 then emit InjectPolyfill (set_this this (emit ConsoleLog s))
                 else set_this this (emit ConsoleLog s))));
      [split; reflexivity|].
    apply (unheard_once
             (if requestAnimationFramePolyfill cfg
              then emit InjectPolyfill (set_this this (emit ConsoleLog s))
              else set_this this (emit ConsoleLog s)));
      [split; reflexivity|].
    destruct (requestAnimationFramePolyfill cfg); [|exact H0].
    eapply unheard_once; [apply unheard_emit; reflexivity|exact H0]. }
  set (s2 := showFrameWhenReady cfg (currentImg s1) s1).
  assert (H2 : once s2) by (apply showFrameWhenReady_once; exact H1).
  assert (Hfin : forall s', once s' ->
            once (emit OnScroll
                    (if preload_flag cfg then preload cfg s' else s'))).
  { intros s' Hs'.
    eapply unheard_once; [apply unheard_emit; reflexivity|].
    destruct (preload_flag cfg); [apply preload_once|]; exact Hs'. }
  destruct (negb (falsyB (o_upgradeHighRes o))).
  - pose proof (upgradeFrame_unheard cfg (currentImg s2)
                  (addUpgradeWrapper s2)) as H3.
    assert (H4 : once (addUpgradeWrapper s2))
      by (apply (unheard_once s2); [split; reflexivity|exact H2]).
    destruct (upgradeFrame cfg _ _) as [u s4|m s4]; cbn [final] in *.
    + apply Hfin. eapply unheard_once; [exact H3|exact H4].
    + eapply unheard_once; [exact H3|exact H4].
  - cbn [final]. apply Hfin. exact H2.
Qed.

(** X15: [settings.onPreloaded] is called at most once, whatever the plugin
    is asked to do after [init], and not before [allPreloaded] is set. *)
Theorem X15_onPreloaded_at_most_once (this : nat) (opts : option options)
    (il : bool) (vp : viewport) (d : defaults_t) (cfg : settings)
    (calls : list call) :
  let s := run cfg calls (final (init this opts il vp d initial)) in
  (onPreloaded_calls s <= 1)%nat /\
  (allPreloaded s = false -> onPreloaded_calls s = 0%nat).
Proof.
  intros s.
  assert (H : once s).
  { apply run_once, init_once. unfold once. cbn. lia. }
  unfold once in H. destruct (allPreloaded s); split; try lia; discriminate.
Qed.

(** ** The order of preloading *)

Lemma scan_least (l : list num) (count : nat) :
  forall i,
    match scan count i l with
    | Some j =>
        i <= j < i + Z.of_nat count /\ includes l (Int j) = false /\
        forall k, i <= k < j -> includes l (Int k) = true
    | None =>
        forall k, i <= k < i + Z.of_nat count -> includes l (Int k) = true
    end.
Proof.
  induction count as [|c IH]; intros i; cbn [scan].
  - intros k Hk. lia.
  - destruct (includes l (Int i)) eqn:E.
    + specialize (IH (i + 1)). destruct (scan c (i + 1) l) as [j|].
      * destruct IH as (Hj & Hn & Hb). split; [lia|]. split; [exact Hn|].
        intros k Hk. destruct (Z.eq_dec k i) as [->|Hne]; [exact E|].
        apply Hb. lia.
      * intros k Hk. destruct (Z.eq_dec k i) as [->|Hne]; [exact E|].
        apply IH. lia.
    + split; [lia|]. split; [exact E|]. intros k Hk. lia.
Qed.

(** X16: an idle plugin preloads in ascending order, wherever the current
    frame is: [preloadNext] marks the lowest frame of the clip that its
    array does not hold, arms the timer for the next round and only then
    starts the fetch of that frame; when the array holds every frame of the
    clip it does nothing. *)
Theorem X16_preloadNext_lowest_unmarked (cfg : settings) (t : tier)
    (s : state) :
  animating s = false -> buffering s = false ->
  (forall j,
      1 <= j <= numImages cfg ->
      includes (marked t s) (Int j) = false ->
      (forall k, 1 <= k < j -> includes (marked t s) (Int k) = true) ->
      trace (preloadNext cfg t s)
      = trace s ++
        [SetTimeoutPreload;
         Fetch t j
           ((match t with Low => imgDir cfg | High => imgDirBig cfg end)
            ++ imgName cfg ++ zerofill (imgStrLen s) (Int j) None
            ++ imgFormat cfg)%string] /\
      marked t (preloadNext cfg t s) = marked t s ++ [Int j]) /\
  ((forall k, 1 <= k <= numImages cfg ->
              includes (marked t s) (Int k) = true) ->
   preloadNext cfg t s = s).
Proof.
  intros Ha Hb. unfold preloadNext. rewrite Ha, Hb. cbn [negb andb].
  pose proof (scan_least (marked t s) (Z.to_nat (numImages cfg)) 1) as H.
  destruct (scan (Z.to_nat (numImages cfg)) 1 (marked t s)) as [i|].
  - destruct H as (Hi & Hn & Hlow). split.
    + intros j Hj Hjn Hjlow.
      assert (i = j).
      { destruct (Z.lt_trichotomy i j) as [Hlt|[Heq|Hgt]]; [|exact Heq|].
        - rewrite Hjlow in Hn by lia. discriminate.
        - rewrite Hlow in Hjn by lia. discriminate. }
      subst i. unfold onImagePreloaded.
      destruct t; cbn [marked] in *.
      * unfold markAsPreloaded. rewrite Hn.
        cbn [trace emit set_preloaded imgStrLen preloaded].
        rewrite <- app_assoc. split; reflexivity.
      * unfold markBigAsPreloaded. rewrite Hn.
        cbn [trace emit set_preloadedBig imgStrLen preloadedBig].
        rewrite <- app_assoc. split; reflexivity.
    + intros Hall. rewrite Hall in Hn by lia. discriminate.
  - split; [|reflexivity].
    intros j Hj Hjn _. rewrite H in Hjn by lia. discriminate.
Qed.

Lemma X16_preloadNext_lowest_unmarked_witness :
  let cfg := sample 100 10 false in
  let s := set_preloaded [Int 1; Int 2; Int 4] initial in
  marked Low (preloadNext cfg Low s) = [Int 1; Int 2; Int 4; Int 3].
Proof.
  intros cfg s.
  destruct (X16_preloadNext_lowest_unmarked cfg Low s) as [H _];
    [reflexivity|reflexivity|].
  destruct (H 3) as [_ Hm].
  - simpl. lia.
  - reflexivity.
  - intros k Hk. assert (k = 1 \/ k = 2) as [-> | ->] by lia; reflexivity.
  - exact Hm.
Defined.

Lemma preloadNext_busy (cfg : settings) (t : tier) (s : state) :
  animating s = true \/ buffering s = true -> preloadNext cfg t s = s.
Proof.
  intros H. unfold preloadNext.
  destruct H as [-> | ->]; [reflexivity|].
  rewrite andb_false_r. reflexivity.
Qed.

Lemma preload_body_busy (cfg : settings) (again : state -> state)
    (s : state) :
  animating s = true \/ buffering s = true ->
  allPreloaded s = true ->
  preload_body cfg again s = s.
Proof.
  intros Hbusy Hall. unfold preload_body. rewrite Hall.
  rewrite !(preloadNext_busy cfg _ s Hbusy).
  cbn [negb]. rewrite andb_false_r.
  repeat match goal with
         | |- (if ?c then _ else _) = _ => destruct c
         end; reflexivity.
Qed.

Lemma preload_busy (cfg : settings) (s : state) :
  animating s = true \/ buffering s = true ->
  preload cfg s = s \/
  (allPreloaded s = false /\
   (preload cfg s = set_allPreloaded true s \/
    preload cfg s = emit OnPreloaded (set_allPreloaded true s))).
Proof.
  intros Hbusy. rewrite preload_unfold. unfold preload_body at 1 2 3.
  rewrite !(preloadNext_busy cfg _ s Hbusy).
  destruct (preload_flag cfg); [|auto].
  destruct (Z.of_nat (List.length (preloaded s)) <? numImages cfg); [auto|].
  destruct (allPreloaded s) eqn:Eall.
  - cbn [negb]. rewrite andb_false_r.
    destruct (_ && _); auto.
  - cbn [negb]. rewrite andb_true_r.
    destruct (numImages cfg <=? Z.of_nat (List.length (preloaded s)));
      [|cbn [andb]; auto].
    right. split; [reflexivity|].
    destruct (onPreloaded cfg).
    + right. unfold preload. apply preload_body_busy; [exact Hbusy|].
      reflexivity.
    + left. unfold preload. apply preload_body_busy; [exact Hbusy|].
      reflexivity.
Qed.

(** X17: preloading gives way: while the plugin is animating or waiting for a
    requested frame, [preload] starts no fetch and marks nothing.  All it may
    still do is record that every low-resolution frame is marked, and tell
    [onPreloaded]. *)
Theorem X17_preload_gives_way (cfg : settings) (s : state) :
  animating s = true \/ buffering s = true ->
  preloaded (preload cfg s) = preloaded s /\
  preloadedBig (preload cfg s) = preloadedBig s /\
  children (preload cfg s) = children s /\
  (trace (preload cfg s) = trace s \/
   (allPreloaded s = false /\ allPreloaded (preload cfg s) = true /\
    (trace (preload cfg s) = trace s \/
     trace (preload cfg s) = trace s ++ [OnPreloaded]))).
Proof.
  intros Hbusy.
  destruct (preload_busy cfg s Hbusy) as [-> | [Hall [-> | ->]]];
    cbn; auto 8.
Qed.

Lemma X17_preload_gives_way_witness :
  let cfg := sample 100 10 false in
  let s := set_buffering true initial in
  trace (preload cfg s) = [] \/
  (allPreloaded s = false /\ allPreloaded (preload cfg s) = true /\
   (trace (preload cfg s) = [] \/ trace (preload cfg s) = [OnPreloaded])).
Proof.
  intros cfg s.
  apply (X17_preload_gives_way cfg s). right. reflexivity.
Defined.

(** ** What is on display after [showFrame] *)

Lemma shown_are_of_frame (fr : num) (l : list node) (el : img) :
  In el (filter visible (imgs (display fr l))) -> frame el = fr.
Proof.
  intros H. apply filter_In in H. destruct H as [Hin Hv].
  apply In_imgs in Hin. apply (display_visible fr l el Hin). exact Hv.
Qed.

Lemma showFrame_visible_count (cfg : settings) (f : Z) (s : state) :
  0 <= buffer cfg ->
  visible_count (showFrame cfg (Int f) s)
  = List.length (with_frame (Int f) (children s)).
Proof.
  intros Hb. unfold visible_count.
  destruct (showFrame_children cfg f s) as [hidden [-> Hh]].
  rewrite imgs_app, filter_app, length_app.
  rewrite (filter_none visible (imgs hidden)) by exact Hh.
  cbn [List.length]. rewrite Nat.add_0_r, imgs_kept, filter_comm.
  rewrite filter_all.
  - apply display_visible_count.
  - intros el Hel. apply shown_are_of_frame in Hel.
    rewrite (outside_Int cfg f el f Hel).
    apply negb_true_iff, orb_false_iff. split; apply Z.ltb_ge; lia.
Qed.

(** X18: with a non-negative buffer, [showFrame(f)] leaves as many images
    visible as there were images of frame [f] attached, each of them one of
    frame [f]; so the frame [showFrameWhenReady] had to attach first is the
    one image on display once its load callback has run. *)
Theorem X18_requested_frame_on_display (cfg : settings) (f : Z)
    (s : state) :
  0 <= buffer cfg ->
  visible_count (showFrame cfg (Int f) s)
  = List.length (with_frame (Int f) (children s)) /\
  (forall el, In (Img el) (children (showFrame cfg (Int f) s)) ->
              visible el = true -> frame el = Int f) /\
  (with_frame (Int f) (children s) = [] ->
   visible_count (showFrame cfg (Int f) (showFrameWhenReady cfg (Int f) s))
   = 1%nat).
Proof.
  intros Hb. split; [apply showFrame_visible_count; exact Hb|]. split.
  - destruct (showFrame_children cfg f s) as [hidden [-> Hh]].
    intros el Hel Hv. apply in_app_iff in Hel. destruct Hel as [Hel|Hel].
    + apply filter_In in Hel. destruct Hel as [Hel _].
      apply (display_visible (Int f) (children s) el Hel). exact Hv.
    + apply In_imgs in Hel. rewrite (Hh el Hel) in Hv. discriminate.
  - intros Hnone. rewrite showFrame_visible_count by exact Hb.
    unfold showFrameWhenReady. rewrite Hnone. cbn [List.length Nat.eqb].
    cbn [children emit append set_nextId set_children set_buffering].
    rewrite with_frame_app, Hnone. unfold with_frame, element.
    cbn [imgs filter app stamp frame].
    rewrite (proj1 (generateImg_frame cfg (Int f) false _)), same_refl.
    reflexivity.
Qed.

Lemma X18_requested_frame_on_display_witness :
  let cfg := sample 100 10 false in
  visible_count (showFrame cfg (Int 7) (showFrameWhenReady cfg (Int 7) initial))
  = 1%nat.
Proof.
  intros cfg.
  apply (X18_requested_frame_on_display cfg 7 initial);
    [simpl; lia|reflexivity].
Defined.

(** ** How many images are attached *)

Lemma kept_frames (cfg : settings) (f : Z) (l : list node) (x : num) :
  ~ In NaN (map frame (imgs l)) ->
  In x (map frame (imgs (kept cfg (Int f) l))) ->
  exists g, x = Int g /\ f - buffer cfg <= g <= f + buffer cfg.
Proof.
  intros Hnan Hx. rewrite imgs_kept in Hx. apply in_map_iff in Hx.
  destruct Hx as [el [Hf Hin]]. apply filter_In in Hin.
  destruct Hin as [Hin Ho]. destruct x as [|b|g].
  - exfalso. apply Hnan. rewrite <- Hf. apply in_map. exact Hin.
  - unfold outside, lt, gt, sub, add, neg, lt in Ho. rewrite Hf in Ho.
    destruct b; discriminate.
  - exists g. split; [reflexivity|].
    rewrite (outside_Int cfg f el g Hf) in Ho.
    apply negb_true_iff, orb_false_iff in Ho. lia.
Qed.

Lemma NoDup_in_window (lo : Z) (count : nat) (l : list num) :
  NoDup l ->
  (forall x, In x l -> exists g, x = Int g /\ lo <= g < lo + Z.of_nat count) ->
  (List.length l <= count)%nat.
Proof.
  intros Hnd Hin.
  assert (Hlen : List.length (map Int (zrange lo count)) = count).
  { rewrite length_map. clear. revert lo.
    induction count as [|k IH]; intros lo; simpl; [reflexivity|].
    rewrite IH. reflexivity. }
  rewrite <- Hlen. apply NoDup_incl_length; [exact Hnd|].
  intros x Hx. destruct (Hin x Hx) as [g [-> Hg]].
  apply in_map, in_zrange. exact Hg.
Qed.

Lemma bufferFromFrame_bound (cfg : settings) (f : Z) (s : state) :
  0 <= buffer cfg ->
  distinct_frames (children s) ->
  ~ In NaN (attached s) ->
  Z.of_nat (List.length (attached (bufferFromFrame cfg (Int f) s)))
  <= 2 * buffer cfg + 1.
Proof.
  intros Hb Hd Hnan.
  assert (Hd' : distinct_frames (children (bufferFromFrame cfg (Int f) s))).
  { apply (P_bufferFromFrame cfg _ _ _ _ _
             (closed_keeps_distinct_frames cfg) (Int f) s I Hd). }
  assert (H : (List.length (attached (bufferFromFrame cfg (Int f) s))
               <= Z.to_nat (2 * buffer cfg + 1))%nat); [|lia].
  apply (NoDup_in_window (f - buffer cfg)); [exact Hd'|].
  intros x Hx. unfold attached in Hx.
  rewrite bufferFromFrame_children, imgs_app, map_app in Hx.
  apply in_app_iff in Hx. destruct Hx as [Hx|Hx].
  - destruct (kept_frames cfg f (children s) x Hnan Hx) as [g [-> Hg]].
    exists g. split; [reflexivity|lia].
  - destruct (room cfg _); [|destruct Hx].
    rewrite (proj1 (imgs_elements _ _)), map_map in Hx.
    apply in_map_iff in Hx. destruct Hx as [g [Hg Hin]].
    rewrite (proj1 (generateImg_frame _ _ _ _)) in Hg.
    exists g. split; [symmetry; exact Hg|].
    apply In_fresh in Hin. destruct Hin as [[Hw _] _]. lia.
Qed.

(** X19: buffering bounds the display surface.  With a non-negative buffer,
    when no two attached images share a frame and none has the frame [NaN],
    at most [2 * buffer + 1] images are attached after [bufferFromFrame], and
    so after [showFrame]. *)
Theorem X19_attached_images_bounded (cfg : settings) (f : Z) (s : state) :
  0 <= buffer cfg ->
  distinct_frames (children s) ->
  ~ In NaN (attached s) ->
  Z.of_nat (List.length (attached (bufferFromFrame cfg (Int f) s)))
  <= 2 * buffer cfg + 1 /\
  Z.of_nat (List.length (attached (showFrame cfg (Int f) s)))
  <= 2 * buffer cfg + 1.
Proof.
  intros Hb Hd Hnan. split; [apply bufferFromFrame_bound; assumption|].
  rewrite showFrame_unfold.
  set (s1 := markAsPreloaded _ _).
  assert (Hc : attached s1 = attached s).
  { unfold attached, s1.
    destruct (markAsPreloaded_quiet (Int f)
      (set_children (display (Int f) (children s))
         (if onShowFrame cfg then emit (OnShowFrame (Int f)) s else s)))
      as (_ & _ & _ & _ & _ & _ & _ & _ & H).
    rewrite H. cbn [children set_children]. unfold display.
    apply frames_relabel. intros [el|b]; [|reflexivity].
    cbn [hide_node show_frame hide frame].
    destruct (same (frame el) (Int f)); reflexivity. }
  apply bufferFromFrame_bound; [exact Hb| |rewrite Hc; exact Hnan].
  unfold distinct_frames. fold (attached s1). rewrite Hc. exact Hd.
Qed.

Lemma X19_attached_images_bounded_witness :
  let cfg := sample 100 2 false in
  Z.of_nat (List.length (attached (bufferFromFrame cfg (Int 50) initial)))
  <= 5.
Proof.
  intros cfg.
  apply (X19_attached_images_bounded cfg 50 initial).
  - simpl. lia.
  - constructor.
  - intros H. exact H.
Defined.

(** ** The first [init] *)

Lemma init_tail (cfg : settings) (s : state) :
  buffering s = true ->
  same_surface s
    (emit OnScroll (if preload_flag cfg then preload cfg s else s)).
Proof.
  intros Hb. unfold same_surface.
  destruct (preload_flag cfg).
  - destruct (preload_busy cfg s (or_intror Hb)) as [-> | [_ [-> | ->]]];
      cbn [children buffering preloaded preloadedBig upgradeWrapper frame_
             trace emit set_allPreloaded];
      rewrite ?filter_app; cbn [filter is_Fetch]; rewrite ?app_nil_r;
      repeat split.
  - cbn [children buffering preloaded preloadedBig upgradeWrapper frame_
           trace emit].
    rewrite filter_app. cbn [filter is_Fetch]. rewrite app_nil_r.
    repeat split.
Qed.

(** X20: the first [init] on an empty host element attaches one hidden
    low-resolution image, for the frame under the scroll offset, and waits for
    it: [buffering] is set, nothing is marked and no preload fetch is started.
    With [upgradeHighRes] it also adds the hidden staging [span] and stages the
    high-resolution image of that frame. *)
Theorem X20_first_init (this : nat) (o : options) (il : bool)
    (vp : viewport) (d : defaults_t) (cfg : settings) (s : state) :
  init this (Some o) il vp d initial = Returns cfg s ->
  children s
  = Img (first_image cfg vp)
    :: (if falsyB (o_upgradeHighRes o) then [] else [Span false]) /\
  buffering s = true /\
  preloaded s = [] /\ preloadedBig s = [] /\
  filter is_Fetch (trace s) = [] /\
  (falsyB (o_upgradeHighRes o) = false ->
   frame_ s = [1%nat] /\
   exists hi, upgradeWrapper s = Some [hi] /\
              frame hi = calculateCurrent cfg vp /\ upgraded hi = true).
Proof.
  unfold init.
  destruct (falsyZ _); [discriminate|].
  destruct (falsyS (o_imgDir o)); [discriminate|].
  destruct (falsyS (o_imgName o)); [discriminate|].
  destruct (_ && _); [discriminate|].
  destruct (negb il); [discriminate|].
  set (cfg0 := extend d o).
  set (s1 := set_currentImg _ _).
  set (cur := calculateCurrent cfg0 vp).
  assert (H1 : children s1 = [] /\ buffering s1 = false /\
               preloaded s1 = [] /\ preloadedBig s1 = [] /\
               upgradeWrapper s1 = None /\ nextId s1 = 1%nat /\
               imgStrLen s1
               = String.length (String_ (Int (numImages cfg0))) /\
               currentImg s1 = cur /\
               filter is_Fetch (trace s1) = []).
  { unfold s1. destruct (requestAnimationFramePolyfill cfg0);
      repeat split. }
  destruct H1 as (Hc1 & Hb1 & Hp1 & Hpb1 & Hw1 & Hn1 & Hk1 & Hcur1 & Ht1).
  set (s2 := showFrameWhenReady cfg0 (currentImg s1) s1).
  assert (H2 : s2 = emit (ImagesLoaded cur)
                      (append (generateImg cfg0 cur false
                                 (set_buffering true s1))
                         (set_buffering true s1))).
  { unfold s2, showFrameWhenReady, with_frame.
    rewrite Hc1, Hcur1. reflexivity. }
  assert (Hg : generateImg cfg0 cur false (set_buffering true s1)
               = {| id := 0; src := src (first_image cfg0 vp); frame := cur;
                    upgraded := false; visible := false |}).
  { unfold generateImg. cbn [preloadedBig set_buffering imgStrLen].
    rewrite Hpb1, Hk1. reflexivity. }
  assert (Hc2 : children s2 = [Img (first_image cfg0 vp)]).
  { rewrite H2. cbn [children emit append set_nextId set_children
                       set_buffering nextId].
    rewrite Hc1, Hn1, Hg. reflexivity. }
  assert (H2' : buffering s2 = true /\ preloaded s2 = [] /\
                preloadedBig s2 = [] /\ upgradeWrapper s2 = None /\
                filter is_Fetch (trace s2) = []).
  { rewrite H2.
    cbn [buffering preloaded preloadedBig upgradeWrapper trace emit append
           set_nextId set_children set_buffering].
    rewrite filter_app, Ht1. repeat split; assumption. }
  destruct H2' as (Hb2 & Hp2 & Hpb2 & Hw2 & Ht2).
  assert (Hcur2 : currentImg s2 = cur) by (rewrite H2; exact Hcur1).
  destruct (falsyB (o_upgradeHighRes o)) eqn:Eup; cbn [negb].
  - intros H. injection H as <- <-.
    change (or_default (o_preload o) (d_preload d))
      with (preload_flag cfg0).
    destruct (init_tail cfg0 s2 Hb2) as (-> & -> & -> & -> & _ & _ & ->).
    rewrite Hc2, Hb2, Hp2, Hpb2, Ht2.
    do 5 (split; [reflexivity|]). discriminate.
  - set (s3 := addUpgradeWrapper s2).
    assert (Hc3 : children s3 = [Img (first_image cfg0 vp); Span false]).
    { unfold s3, addUpgradeWrapper. cbn [children set_children
                                          set_upgradeWrapper].
      rewrite Hc2. reflexivity. }
    assert (Hsel : with_frame cur (children s3) = [first_image cfg0 vp]).
    { rewrite Hc3. unfold with_frame. cbn [imgs filter first_image frame].
      fold cur. rewrite same_refl. reflexivity. }
    assert (Hw3 : upgradeWrapper s3 <> None).
    { unfold s3, addUpgradeWrapper. cbn. discriminate. }
    rewrite Hcur2, (upgradeFrame_stages cfg0 cur s3 Hw3)
      by (rewrite Hsel; reflexivity).
    intros H. injection H as <- <-.
    change (or_default (o_preload o) (d_preload d))
      with (preload_flag cfg0).
    set (s4 := emit (UpgradeImagesLoaded cur) _).
    assert (Hb4 : buffering s4 = true) by exact Hb2.
    destruct (init_tail cfg0 s4 Hb4) as (-> & -> & -> & -> & -> & -> & ->).
    unfold s4.
    cbn [children buffering preloaded preloadedBig upgradeWrapper frame_
           trace emit set_upgradeWrapper set_frame].
    change (hide_span (children s2 ++ [Span true])) with (children s3).
    rewrite Hsel, Hc3, filter_app.
    change (trace s3) with (trace s2). change (buffering s3) with (buffering s2).
    change (preloaded s3) with (preloaded s2).
    change (preloadedBig s3) with (preloadedBig s2).
    rewrite Hb2, Hp2, Hpb2, Ht2.
    do 5 (split; [reflexivity|]). intros _. split; [reflexivity|].
    eexists. split; [reflexivity|]. split; [|reflexivity].
    apply generateImg_frame.
Qed.

Lemma X20_first_init_witness :
  let o := sample_options 100 "img/" in
  let cfg := extend defaults o in
  children (final (init 1 (Some o) true at_frame_5 defaults initial))
  = [Img (first_image cfg at_frame_5)].
Proof.
  intros o cfg.
  apply (X20_first_init 1 o true at_frame_5 defaults cfg
           (final (init 1 (Some o) true at_frame_5 defaults initial))).
  vm_compute. reflexivity.
Defined.

(** ** Options outlive their [init] *)

(** An [init] that returns has passed the checks before [$.extend]. *)
Lemma init_accepted (this : nat) (opts : option options) (il : bool)
    (vp : viewport) (d : defaults_t) (s0 : state) (cfg : settings)
    (s : state) :
  init this opts il vp d s0 = Returns cfg s -> accepted opts il = true.
Proof.
  unfold init, accepted. destruct opts as [o|]; [|discriminate].
  destruct (falsyZ _); [discriminate|].
  destruct (falsyS (o_imgDir o)); [discriminate|].
  destruct (falsyS (o_imgName o)); [discriminate|].
  destruct (_ && _); [discriminate|].
  destruct il; [reflexivity|discriminate].
Qed.

(** X21: the options of one call are the defaults of the next: a call of the
    plugin that returns has written its merged settings into the [defaults]
    object of the page, so that in a later call on that page, whatever
    happened to the other variables in between, a key the options leave out
    takes the value the earlier call ended with, not the value the script
    ships. *)
Theorem X21_options_become_defaults
    (this1 this2 : nat) (o1 : option options) (o2 : options)
    (il1 il2 : bool) (vp1 vp2 : viewport) (p0 p1 p2 : page)
    (s1 s s2 : state) (cfg1 cfg2 : settings) :
  init_on_page this1 o1 il1 vp1 p0 = (Returns cfg1 s1, p1) ->
  init_on_page this2 (Some o2) il2 vp2
    {| defaults_obj := defaults_obj p1; vars := s |}
  = (Returns cfg2 s2, p2) ->
  imgFormat cfg2 = or_default (o_imgFormat o2) (imgFormat cfg1) /\
  upgradeHighRes cfg2
  = or_default (o_upgradeHighRes o2) (upgradeHighRes cfg1) /\
  imgDirBig cfg2 = or_default (o_imgDirBig o2) (imgDirBig cfg1) /\
  buffer cfg2 = or_default (o_buffer o2) (buffer cfg1) /\
  preload_flag cfg2 = or_default (o_preload o2) (preload_flag cfg1) /\
  requestAnimationFramePolyfill cfg2
  = or_default (o_requestAnimationFramePolyfill o2)
      (requestAnimationFramePolyfill cfg1) /\
  onPreloaded cfg2 = or_default (o_onPreloaded o2) (onPreloaded cfg1) /\
  onShowFrame cfg2 = or_default (o_onShowFrame o2) (onShowFrame cfg1).
Proof.
  intros E1 E2.
  pose proof (f_equal fst E1) as H1. pose proof (f_equal snd E1) as Hp1.
  pose proof (f_equal fst E2) as H2.
  unfold init_on_page in H1, Hp1, H2.
  cbn [fst snd defaults_obj vars] in H1, Hp1, H2.
  pose proof (init_accepted _ _ _ _ _ _ _ _ H1) as Hacc.
  apply init_returns in H1. destruct H1 as [[o [-> Hcfg1]] _].
  rewrite Hacc, <- Hcfg1 in Hp1. subst p1. cbn [defaults_obj] in H2.
  apply init_returns in H2. destruct H2 as [[o' [Ho ->]] _].
  injection Ho as <-. repeat split.
Qed.

Lemma X21_options_become_defaults_witness :
  let p0 := {| defaults_obj := defaults; vars := initial |} in
  let r1 := init_on_page 1 (Some upgrade_options) true at_frame_5 p0 in
  let o2 := sample_options 50 "img/" in
  let r2 := init_on_page 1 (Some o2) true at_frame_5 (snd r1) in
  let cfg2 := extend (defaults_obj (snd r1)) o2 in
  fst r2 = Returns cfg2 (vars (snd r2)) /\ upgradeHighRes cfg2 = true.
Proof.
  intros p0 r1 o2 r2 cfg2.
  assert (E : fst r2 = Returns cfg2 (vars (snd r2)))
    by (vm_compute; reflexivity).
  split; [exact E|].
  destruct (X21_options_become_defaults 1 1 (Some upgrade_options) o2
              true true at_frame_5 at_frame_5
              p0 (snd r1) (snd r2) (vars (snd r1)) (vars (snd r1))
              (vars (snd r2)) (extend defaults upgrade_options) cfg2)
    as (_ & H & _).
  - vm_compute. reflexivity.
  - vm_compute. reflexivity.
  - exact H.
Defined.

(** ** Without the staging [span] *)

Lemma animate_wrapper (cfg : settings) (vp : viewport) (s : state) :
  upgradeWrapper (animate cfg vp s) = upgradeWrapper s.
Proof.
  unfold animate. destruct (animating s); [|reflexivity].
  change (upgradeWrapper (emit RequestAnimationFrame ?x))
    with (upgradeWrapper x).
  destruct (neq _ _); [|reflexivity].
  destruct (showFrameWhenReady_backstage cfg (calculateCurrent cfg vp)
              (set_currentImg (calculateCurrent cfg vp) s))
    as (_ & _ & _ & _ & _ & H & _).
  exact H.
Qed.

Lemma scroll_wrapper (cfg : settings) (vp : viewport) (s : state) :
  upgradeWrapper (scroll cfg vp s) = upgradeWrapper s.
Proof.
  unfold scroll.
  cbn [upgradeWrapper emit set_lastCurrentImg].
  destruct (negb (animating s)); [|reflexivity].
  rewrite animate_wrapper. reflexivity.
Qed.

Lemma upgradeFrame_no_span (cfg : settings) (fr : num) (s : state) :
  upgradeWrapper s = None ->
  upgradeWrapper (final (upgradeFrame cfg fr s)) = None.
Proof.
  intros H. unfold upgradeFrame. cbn [upgradeWrapper set_frame].
  rewrite H. destruct (not_upgraded _); exact H.
Qed.

Lemma exec_no_span (cfg : settings) (c : call) (s : state) :
  upgradeWrapper s = None -> upgradeWrapper (exec cfg c s) = None.
Proof.
  intros H. destruct c; cbn [exec].
  - destruct (preload_quiet cfg s) as (_ & _ & _ & _ & _ & _ & E & _).
    congruence.
  - destruct (preloadNext_quiet cfg t s) as (_ & _ & _ & _ & _ & _ & E & _).
    congruence.
  - destruct (onImagePreloaded_quiet (Int i) t s)
      as (_ & _ & _ & _ & _ & _ & E & _).
    congruence.
  - rewrite scroll_wrapper. exact H.
  - rewrite animate_wrapper. exact H.
  - unfold checkForScroll. destruct (strict_eq _ _); [|exact H].
    destruct (upgradeHighRes cfg).
    + pose proof (upgradeFrame_no_span cfg
                    (currentImg (set_animating false s))
                    (set_animating false s) H) as H1.
      destruct (upgradeFrame cfg _ _) as [u s2|m s2]; cbn [final] in *;
        [|exact H1].
      destruct (preload_quiet cfg s2) as (_ & _ & _ & _ & _ & _ & E & _).
      congruence.
    + cbn [final].
      destruct (preload_quiet cfg (set_animating false s))
        as (_ & _ & _ & _ & _ & _ & E & _).
      rewrite E. exact H.
  - destruct (showFrameWhenReady_backstage cfg f s)
      as (_ & _ & _ & _ & _ & E & _).
    congruence.
  - destruct (showFrame_backstage cfg f s) as (_ & _ & _ & _ & _ & E & _).
    congruence.
  - destruct (bufferFromFrame_backstage cfg f s)
      as (_ & _ & _ & _ & _ & E & _).
    congruence.
  - apply upgradeFrame_no_span. exact H.
  - unfold upgradeLoaded. rewrite H. exact H.
Qed.

Lemma run_no_span (cfg : settings) (calls : list call) :
  forall s, upgradeWrapper s = None -> upgradeWrapper (run cfg calls s) = None.
Proof.
  induction calls as [|c r IH]; intros s H; [exact H|].
  apply IH, exec_no_span, H.
Qed.

Lemma init_no_span (this : nat) (o : options) (il : bool) (vp : viewport)
    (d : defaults_t) (s0 : state) (cfg : settings) (s : state) :
  upgradeWrapper s0 = None ->
  falsyB (o_upgradeHighRes o) = true ->
  init this (Some o) il vp d s0 = Returns cfg s ->
  upgradeWrapper s = None.
Proof.
  intros H0 Hup. unfold init.
  destruct (falsyZ _); [discriminate|].
  destruct (falsyS (o_imgDir o)); [discriminate|].
  destruct (falsyS (o_imgName o)); [discriminate|].
  destruct (_ && _); [discriminate|].
  destruct (negb il); [discriminate|].
  rewrite Hup. cbn [negb].
  set (cfg0 := extend d o).
  set (s1 := set_currentImg _ _).
  assert (H1 : upgradeWrapper s1 = None).
  { unfold s1. destruct (requestAnimationFramePolyfill cfg0); exact H0. }
  intros H. injection H as _ <-.
  change (upgradeWrapper (emit OnScroll ?x)) with (upgradeWrapper x).
  set (s2 := showFrameWhenReady cfg0 (currentImg s1) s1).
  assert (H2 : upgradeWrapper s2 = None).
  { destruct (showFrameWhenReady_backstage cfg0 (currentImg s1) s1)
      as (_ & _ & _ & _ & _ & E & _).
    unfold s2. congruence. }
  match goal with
  | |- upgradeWrapper (if ?b then _ else _) = None => destruct b
  end; [|exact H2].
  destruct (preload_quiet cfg0 s2) as (_ & _ & _ & _ & _ & _ & E & _).
  transitivity (upgradeWrapper s2); [exact E|exact H2].
Qed.

(** X22: the public method [upgradeFrame] needs the staging [span].  After an
    [init] without [upgradeHighRes], whatever the plugin has been asked to do
    since, [$upgradeWrapper] is still the empty object, and [upgradeFrame]
    throws a [TypeError] for every frame whose image is not tagged upgraded,
    and for every frame that has no image. *)
Theorem X22_upgradeFrame_needs_span (this : nat) (o : options) (il : bool)
    (vp : viewport) (d : defaults_t) (cfg : settings) (s : state)
    (calls : list call) (fr : num) :
  init this (Some o) il vp d initial = Returns cfg s ->
  falsyB (o_upgradeHighRes o) = true ->
  let s' := run cfg calls s in
  upgradeWrapper s' = None /\
  (not_upgraded (with_frame fr (children s')) = true ->
   upgradeFrame cfg fr s'
   = Throws "TypeError: $upgradeWrapper.empty is not a function"
       (set_frame (map id (with_frame fr (children s'))) s')).
Proof.
  intros Hinit Hup s'.
  assert (H : upgradeWrapper s' = None).
  { apply run_no_span.
    apply (init_no_span this o il vp d initial cfg s eq_refl Hup Hinit). }
  split; [exact H|]. intros Hn.
  unfold upgradeFrame. rewrite Hn. cbn [upgradeWrapper set_frame].
  rewrite H. reflexivity.
Qed.

Lemma X22_upgradeFrame_needs_span_witness :
  let o := sample_options 100 "img/" in
  let r := init 1 (Some o) true at_frame_5 defaults initial in
  thrown (upgradeFrame (extend defaults o) (Int 5)
            (run (extend defaults o) [CShowFrame (Int 5)] (final r)))
  = true.
Proof.
  intros o r.
  destruct (X22_upgradeFrame_needs_span 1 o true at_frame_5 defaults
              (extend defaults o) (final r) [CShowFrame (Int 5)] (Int 5))
    as [_ H].
  - vm_compute. reflexivity.
  - reflexivity.
  - rewrite H; [reflexivity|]. vm_compute. reflexivity.
Defined.

(** ** What [allPreloaded] tells *)

Lemma same_marks_truthful (cfg : settings) (s s' : state) :
  same_marks s s' -> truthful cfg s -> truthful cfg s'.
Proof. unfold same_marks, truthful. intros [-> ->] H. exact H. Qed.

Lemma markAsPreloaded_truthful (cfg : settings) (f : num) (s : state) :
  in_range cfg f -> truthful cfg s -> truthful cfg (markAsPreloaded f s).
Proof.
  intros [z [-> Hz]] (Hnd & Hin & Hall). unfold markAsPreloaded.
  destruct (includes (preloaded s) (Int z)) eqn:E;
    [repeat split; assumption|].
  cbn [preloaded allPreloaded set_preloaded]. split; [|split].
  - apply NoDup_snoc; [exact Hnd|].
    intros H. apply includes_Int in H. congruence.
  - apply Forall_app. split; [exact Hin|].
    constructor; [|constructor]. exists z. auto.
  - intros H. specialize (Hall H).
    cbn [preloaded set_preloaded]. rewrite length_app. lia.
Qed.

Lemma markBigAsPreloaded_same_marks (f : num) (s : state) :
  same_marks s (markBigAsPreloaded f s).
Proof.
  unfold markBigAsPreloaded. destruct (includes _ _); split; reflexivity.
Qed.

Lemma onImagePreloaded_truthful (cfg : settings) (i : Z) (t : tier)
    (s : state) :
  1 <= i <= numImages cfg ->
  truthful cfg s -> truthful cfg (onImagePreloaded (Int i) t s).
Proof.
  intros Hi Hs. unfold onImagePreloaded.
  match goal with
  | |- truthful cfg (emit _ ?x) =>
      apply (same_marks_truthful cfg x); [split; reflexivity|]
  end.
  destruct t.
  - apply markAsPreloaded_truthful; [exists i; auto|exact Hs].
  - eapply same_marks_truthful; [apply markBigAsPreloaded_same_marks|].
    exact Hs.
Qed.

Lemma preloadNext_truthful (cfg : settings) (t : tier) (s : state) :
  truthful cfg s -> truthful cfg (preloadNext cfg t s).
Proof.
  intros Hs. unfold preloadNext.
  destruct (_ && _); [|exact Hs].
  pose proof (scan_least (marked t s) (Z.to_nat (numImages cfg)) 1) as H.
  destruct (scan _ _ _) as [i|]; [|exact Hs].
  destruct H as (Hi & _).
  match goal with
  | |- truthful cfg (emit _ ?x) =>
      apply (same_marks_truthful cfg x); [split; reflexivity|]
  end.
  apply onImagePreloaded_truthful; [lia|exact Hs].
Qed.

Lemma preload_body_truthful (cfg : settings) (again : state -> state) :
  (forall s, truthful cfg s -> truthful cfg (again s)) ->
  forall s, truthful cfg s -> truthful cfg (preload_body cfg again s).
Proof.
  intros Hagain s Hs. unfold preload_body.
  destruct (preload_flag cfg); [|exact Hs].
  destruct (Z.of_nat (List.length (preloaded s)) <? numImages cfg);
    [apply preloadNext_truthful; exact Hs|].
  destruct (numImages cfg <=? Z.of_nat (List.length (preloaded s))) eqn:E;
    cbn [andb].
  - destruct (negb (allPreloaded s)).
    + apply Hagain. apply Z.leb_le in E.
      destruct Hs as (Hnd & Hin & _).
      destruct (onPreloaded cfg);
        (split; [exact Hnd|split; [exact Hin|intros _; exact E]]).
    + destruct (_ && _); [apply preloadNext_truthful|]; exact Hs.
  - destruct (_ && _); [apply preloadNext_truthful|]; exact Hs.
Qed.

Lemma preload_truthful (cfg : settings) (s : state) :
  truthful cfg s -> truthful cfg (preload cfg s).
Proof.
  unfold preload. apply preload_body_truthful. intros s'.
  apply preload_body_truthful. auto.
Qed.

Lemma buffered_in_range (cfg : settings) (fr : num) (i : Z) :
  gt (add fr (Int i)) (Int 0) && le (add fr (Int i)) (Int (numImages cfg))
  = true ->
  in_range cfg (add fr (Int i)).
Proof.
  intros H. apply andb_true_iff in H. destruct H as [H1 H2].
  destruct fr as [|b|f]; cbn [add] in *.
  - discriminate.
  - destruct b; discriminate.
  - exists (f + i). split; [reflexivity|].
    unfold gt, lt in H1. unfold le in H2.
    apply Z.ltb_lt in H1. apply Z.leb_le in H2. lia.
Qed.

Lemma bufferLoop_truthful (cfg : settings) (fr : num) (count : nat) :
  forall i s, truthful cfg s -> truthful cfg (bufferLoop cfg count i fr s).
Proof.
  induction count as [|k IH]; intros i s Hs; cbn [bufferLoop];
    [exact Hs|].
  apply IH.
  destruct (_ =? _)%nat; cbn [andb]; [|exact Hs].
  destruct (gt _ _ && le _ _) eqn:E; [|exact Hs].
  apply markAsPreloaded_truthful; [apply buffered_in_range; exact E|].
  apply (same_marks_truthful cfg s); [split; reflexivity|exact Hs].
Qed.

Lemma bufferFromFrame_truthful (cfg : settings) (fr : num) (s : state) :
  truthful cfg s -> truthful cfg (bufferFromFrame cfg fr s).
Proof.
  intros Hs. unfold bufferFromFrame. apply preload_truthful.
  match goal with
  | |- truthful cfg (set_buffering false ?x) =>
      apply (same_marks_truthful cfg x); [split; reflexivity|]
  end.
  destruct (_ <? _); [apply bufferLoop_truthful|];
    (apply (same_marks_truthful cfg s); [split; reflexivity|exact Hs]).
Qed.

Lemma showFrame_truthful (cfg : settings) (fr : num) (s : state) :
  in_range cfg fr -> truthful cfg s -> truthful cfg (showFrame cfg fr s).
Proof.
  intros Hfr Hs. unfold showFrame. apply bufferFromFrame_truthful.
  apply markAsPreloaded_truthful; [exact Hfr|].
  apply (same_marks_truthful cfg s); [|exact Hs].
  destruct (onShowFrame cfg); split; reflexivity.
Qed.

Lemma showFrameWhenReady_truthful (cfg : settings) (fr : num) (s : state) :
  in_range cfg fr -> truthful cfg s ->
  truthful cfg (showFrameWhenReady cfg fr s).
Proof.
  intros Hfr Hs. unfold showFrameWhenReady.
  destruct (_ =? _)%nat; [|apply showFrame_truthful; assumption].
  apply (same_marks_truthful cfg s); [split; reflexivity|exact Hs].
Qed.

Lemma animate_truthful (cfg : settings) (vp : viewport) (s : state) :
  1 <= numImages cfg -> scrollable vp ->
  truthful cfg s -> truthful cfg (animate cfg vp s).
Proof.
  intros Hn Hvp Hs. unfold animate. destruct (animating s); [|exact Hs].
  match goal with
  | |- truthful cfg (emit _ ?x) =>
      apply (same_marks_truthful cfg x); [split; reflexivity|]
  end.
  destruct (neq _ _).
  - apply showFrameWhenReady_truthful;
      [apply calculateCurrent_bounds; assumption|].
    apply (same_marks_truthful cfg s); [split; reflexivity|exact Hs].
  - apply (same_marks_truthful cfg s); [split; reflexivity|exact Hs].
Qed.

Lemma scroll_truthful (cfg : settings) (vp : viewport) (s : state) :
  1 <= numImages cfg -> scrollable vp ->
  truthful cfg s -> truthful cfg (scroll cfg vp s).
Proof.
  intros Hn Hvp Hs. unfold scroll.
  set (s1 := if negb (animating s) then _ else _).
  assert (H1 : truthful cfg s1).
  { unfold s1. destruct (negb (animating s)); [|exact Hs].
    apply animate_truthful; [exact Hn|exact Hvp|].
    apply (same_marks_truthful cfg s); [split; reflexivity|exact Hs]. }
  apply (same_marks_truthful cfg s1); [split; reflexivity|exact H1].
Qed.

Lemma upgradeFrame_same_marks (cfg : settings) (fr : num) (s : state) :
  same_marks s (final (upgradeFrame cfg fr s)).
Proof.
  unfold upgradeFrame. destruct (not_upgraded _); [|split; reflexivity].
  cbn [upgradeWrapper set_frame].
  destruct (upgradeWrapper s); split; reflexivity.
Qed.

Lemma upgradeLoaded_same_marks (fr : num) (s : state) :
  same_marks s (upgradeLoaded fr s).
Proof.
  unfold upgradeLoaded. destruct (upgradeWrapper s); [|split; reflexivity].
  destruct (after _ _ _ _) as [l1 n].
  unfold markBigAsPreloaded. destruct (includes _ _); split; reflexivity.
Qed.

Lemma checkForScroll_truthful (cfg : settings) (s : state) :
  truthful cfg s -> truthful cfg (final (checkForScroll cfg s)).
Proof.
  intros Hs. unfold checkForScroll.
  destruct (strict_eq _ _); [|exact Hs].
  assert (H0 : truthful cfg (set_animating false s))
    by (apply (same_marks_truthful cfg s); [split; reflexivity|exact Hs]).
  destruct (upgradeHighRes cfg); [|apply preload_truthful; exact H0].
  pose proof (upgradeFrame_same_marks cfg
                (currentImg (set_animating false s))
                (set_animating false s)) as H.
  destruct (upgradeFrame cfg _ _) as [u s2|m s2]; cbn [final] in *.
  - apply preload_truthful. eapply same_marks_truthful; [exact H|exact H0].
  - eapply same_marks_truthful; [exact H|exact H0].
Qed.

Lemma exec_truthful (cfg : settings) (c : call) (s : state) :
  1 <= numImages cfg -> in_clip cfg c ->
  truthful cfg s -> truthful cfg (exec cfg c s).
Proof.
  intros Hn Hc Hs. destruct c; cbn [exec in_clip call_ok] in *.
  - apply preload_truthful; exact Hs.
  - apply preloadNext_truthful; exact Hs.
  - apply onImagePreloaded_truthful; assumption.
  - apply scroll_truthful; assumption.
  - apply animate_truthful; assumption.
  - apply checkForScroll_truthful; exact Hs.
  - apply showFrameWhenReady_truthful; assumption.
  - apply showFrame_truthful; assumption.
  - apply bufferFromFrame_truthful; exact Hs.
  - exact (same_marks_truthful cfg _ _ (upgradeFrame_same_marks cfg f s) Hs).
  - exact (same_marks_truthful cfg _ _ (upgradeLoaded_same_marks f s) Hs).
Qed.

Lemma run_truthful (cfg : settings) (calls : list call) :
  1 <= numImages cfg -> Forall (in_clip cfg) calls ->
  forall s, truthful cfg s -> truthful cfg (run cfg calls s).
Proof.
  intros Hn Hcalls. induction Hcalls as [|c r Hc _ IH]; intros s Hs;
    [exact Hs|].
  apply IH, exec_truthful; assumption.
Qed.

Lemma init_truthful (this : nat) (opts : option options) (il : bool)
    (vp : viewport) (d : defaults_t) (s0 : state) (cfg : settings)
    (s : state) :
  init this opts il vp d s0 = Returns cfg s ->
  1 <= numImages cfg -> scrollable vp ->
  truthful cfg s0 -> truthful cfg s.
Proof.
  intros Hinit Hn Hvp H0.
  destruct (init_returns _ _ _ _ _ _ _ _ Hinit) as [[o [-> Hcfg]] _].
  revert Hinit. unfold init.
  destruct (falsyZ _); [discriminate|].
  destruct (falsyS (o_imgDir o)); [discriminate|].
  destruct (falsyS (o_imgName o)); [discriminate|].
  destruct (_ && _); [discriminate|].
  destruct (negb il); [discriminate|].
  rewrite <- Hcfg.
  set (s1 := set_currentImg _ _).
  assert (H1 : truthful cfg s1).
  { apply (same_marks_truthful cfg s0); [|exact H0].
    unfold s1. destruct (requestAnimationFramePolyfill cfg);
      split; reflexivity. }
  set (s2 := showFrameWhenReady cfg (currentImg s1) s1).
  assert (H2 : truthful cfg s2).
  { apply showFrameWhenReady_truthful; [|exact H1].
    apply calculateCurrent_bounds; assumption. }
  assert (Hfin : forall s', truthful cfg s' ->
            truthful cfg (emit OnScroll
                            (if preload_flag cfg then preload cfg s'
                             else s'))).
  { intros s' Hs'.
    match goal with
    | |- truthful cfg (emit _ ?x) =>
        apply (same_marks_truthful cfg x); [split; reflexivity|]
    end.
    destruct (preload_flag cfg); [apply preload_truthful|]; exact Hs'. }
  destruct (negb (falsyB (o_upgradeHighRes o))).
  - pose proof (upgradeFrame_same_marks cfg (currentImg s2)
                  (addUpgradeWrapper s2)) as H3.
    assert (H4 : truthful cfg (addUpgradeWrapper s2))
      by (apply (same_marks_truthful cfg s2); [split; reflexivity|exact H2]).
    destruct (upgradeFrame cfg _ _) as [u s4|m s4]; [|discriminate].
    cbn [final] in H3. intros H. injection H as <-.
    apply Hfin. eapply same_marks_truthful; [exact H3|exact H4].
  - intros H. injection H as <-. apply Hfin. exact H2.
Qed.

Lemma marks_cover_the_clip (cfg : settings) (l : list num) :
  NoDup l -> Forall (in_range cfg) l ->
  numImages cfg <= Z.of_nat (List.length l) ->
  forall i, 1 <= i <= numImages cfg -> In (Int i) l.
Proof.
  intros Hnd Hin Hlen i Hi.
  set (clip := map Int (zrange 1 (Z.to_nat (numImages cfg)))).
  assert (Hclip : List.length clip = Z.to_nat (numImages cfg)).
  { unfold clip. rewrite length_map. generalize 1.
    induction (Z.to_nat (numImages cfg)) as [|k IH]; intros lo; simpl;
      [reflexivity|]. rewrite IH. reflexivity. }
  assert (Hincl : incl l clip).
  { intros x Hx. rewrite Forall_forall in Hin.
    destruct (Hin x Hx) as [z [-> Hz]].
    apply in_map, in_zrange. lia. }
  apply (@NoDup_length_incl _ l clip Hnd); [lia|exact Hincl|].
  apply in_map, in_zrange. lia.
Qed.

(** X25: [allPreloaded], and a call of [onPreloaded], mean what they say as
    long as the plugin is handed frames of the clip: after an [init] on a
    document taller than the window, and calls that bring only such
    documents and frames of the clip, [allPreloaded] is set, or [onPreloaded]
    has been called, only when every frame of the clip is marked as
    preloaded. *)
Theorem X25_allPreloaded_is_truthful (this : nat) (opts : option options)
    (il : bool) (vp : viewport) (d : defaults_t) (cfg : settings)
    (s : state) (calls : list call) :
  init this opts il vp d initial = Returns cfg s ->
  1 <= numImages cfg ->
  scrollable vp ->
  Forall (in_clip cfg) calls ->
  let s' := run cfg calls s in
  allPreloaded s' = true \/ (0 < onPreloaded_calls s')%nat ->
  forall i, 1 <= i <= numImages cfg ->
            includes (preloaded s') (Int i) = true.
Proof.
  intros Hinit Hn Hvp Hcalls s' Hall i Hi.
  assert (Ht : truthful cfg s').
  { apply run_truthful; [exact Hn|exact Hcalls|].
    apply (init_truthful this opts il vp d initial cfg s Hinit Hn Hvp).
    repeat split; [constructor|constructor|discriminate]. }
  assert (Ho : once s').
  { apply run_once.
    replace s with (final (init this opts il vp d initial))
      by (rewrite Hinit; reflexivity).
    apply init_once. unfold once. cbn. lia. }
  assert (Ha : allPreloaded s' = true).
  { destruct Hall as [H|H]; [exact H|].
    unfold once in Ho. destruct (allPreloaded s'); [reflexivity|lia]. }
  destruct Ht as (Hnd & Hin & Hlen).
  apply includes_Int.
  apply (marks_cover_the_clip cfg _ Hnd Hin (Hlen Ha) i Hi).
Qed.

Lemma X25_allPreloaded_is_truthful_witness :
  let o := preloading_options 3 in
  let cfg := extend defaults o in
  let s := final (init 1 (Some o) true (at_offset 500 1600 600) defaults
                    initial) in
  includes (preloaded (run cfg [CShowFrame (Int 2)] s)) (Int 3) = true.
Proof.
  intros o cfg s.
  apply (X25_allPreloaded_is_truthful 1 (Some o) true
           (at_offset 500 1600 600) defaults cfg s [CShowFrame (Int 2)]).
  - vm_compute. reflexivity.
  - simpl. lia.
  - unfold scrollable. simpl. lia.
  - constructor; [|constructor]. exists 2. simpl. split; [reflexivity|lia].
  - left. vm_compute. reflexivity.
  - simpl. lia.
Defined.

(** ** Preloading runs to completion *)

Lemma NoDup_clip (count : nat) :
  forall lo, NoDup (map Int (zrange lo count)).
Proof.
  induction count as [|k IH]; intros lo; simpl; constructor; [|apply IH].
  intros H. apply in_map_iff in H. destruct H as [z [Hz Hin]].
  injection Hz as ->. apply in_zrange in Hin. lia.
Qed.

Lemma length_zrange (count : nat) :
  forall lo, List.length (zrange lo count) = count.
Proof.
  induction count as [|k IH]; intros lo; simpl; [reflexivity|].
  rewrite IH. reflexivity.
Qed.

(** An array with fewer than [numImages] entries misses a frame of the
    clip, which the loop of [preloadNext] finds. *)
Lemma scan_finds (cfg : settings) (l : list num) :
  Z.of_nat (List.length l) < numImages cfg ->
  exists i, scan (Z.to_nat (numImages cfg)) 1 l = Some i /\
            includes l (Int i) = false.
Proof.
  intros Hlen.
  pose proof (scan_least l (Z.to_nat (numImages cfg)) 1) as H.
  destruct (scan (Z.to_nat (numImages cfg)) 1 l) as [i|].
  - exists i. split; [reflexivity|apply H].
  - exfalso.
    assert (Hincl : incl (map Int (zrange 1 (Z.to_nat (numImages cfg)))) l).
    { intros x Hx. apply in_map_iff in Hx. destruct Hx as [z [<- Hz]].
      apply in_zrange in Hz. apply includes_Int, H. lia. }
    apply NoDup_incl_length in Hincl; [|apply NoDup_clip].
    rewrite length_map, length_zrange in Hincl. lia.
Qed.

(** One round of an idle [preload] with marks to make: one more mark. *)
Lemma preload_round (cfg : settings) (s : state) :
  preload_flag cfg = true ->
  animating s = false -> buffering s = false ->
  Z.of_nat (List.length (preloaded s)) < numImages cfg ->
  exists i,
    includes (preloaded s) (Int i) = false /\
    preloaded (preload cfg s) = preloaded s ++ [Int i] /\
    animating (preload cfg s) = false /\ buffering (preload cfg s) = false /\
    allPreloaded (preload cfg s) = allPreloaded s.
Proof.
  intros Hp Ha Hb Hlen. rewrite preload_unfold. unfold preload_body.
  rewrite Hp. apply Z.ltb_lt in Hlen. rewrite Hlen. apply Z.ltb_lt in Hlen.
  destruct (scan_finds cfg (preloaded s) Hlen) as [i [Hscan Hi]].
  exists i. split; [exact Hi|].
  unfold preloadNext. rewrite Ha, Hb. cbn [negb andb marked].
  rewrite Hscan. unfold onImagePreloaded, markAsPreloaded. rewrite Hi.
  cbn. rewrite Ha, Hb. repeat split.
Qed.

Lemma preload_keeps_allPreloaded (cfg : settings) (s : state) :
  allPreloaded s = true ->
  allPreloaded (preload cfg s) = true /\ preloaded (preload cfg s) = preloaded s
  \/ Z.of_nat (List.length (preloaded s)) < numImages cfg.
Proof.
  intros Hall.
  destruct (Z.of_nat (List.length (preloaded s)) <? numImages cfg) eqn:E;
    [right; apply Z.ltb_lt; exact E|left].
  rewrite preload_unfold. unfold preload_body.
  destruct (preload_flag cfg); [|split; [exact Hall|reflexivity]].
  rewrite E, Hall. cbn [negb]. rewrite andb_false_r. cbn [andb].
  destruct (Z.of_nat (List.length (preloadedBig s)) <? numImages cfg);
    [|split; [exact Hall|reflexivity]].
  destruct (preloadNext_unheard cfg High s) as [H _].
  rewrite H. split; [exact Hall|].
  unfold preloadNext. destruct (_ && _); [|reflexivity].
  destruct (scan _ _ _); [|reflexivity].
  unfold onImagePreloaded, markBigAsPreloaded.
  destruct (includes _ _); reflexivity.
Qed.

(** The round that finds enough marks sets [allPreloaded]. *)
Lemma preload_last_round (cfg : settings) (s : state) :
  preload_flag cfg = true ->
  numImages cfg <= Z.of_nat (List.length (preloaded s)) ->
  allPreloaded (preload cfg s) = true /\
  preloaded (preload cfg s) = preloaded s.
Proof.
  intros Hp Hlen.
  destruct (allPreloaded s) eqn:Hall.
  - destruct (preload_keeps_allPreloaded cfg s Hall) as [H|H];
      [exact H|lia].
  - rewrite preload_unfold. unfold preload_body. rewrite Hp, Hall.
    assert (E : (Z.of_nat (List.length (preloaded s)) <? numImages cfg)
                = false) by (apply Z.ltb_ge; exact Hlen).
    rewrite E. apply Z.leb_le in Hlen. rewrite Hlen. cbn [negb andb].
    set (s1 := if onPreloaded cfg then _ else _).
    assert (H1 : allPreloaded s1 = true /\ preloaded s1 = preloaded s)
      by (unfold s1; destruct (onPreloaded cfg); split; reflexivity).
    destruct H1 as [Ha1 Hp1].
    destruct (preload_keeps_allPreloaded cfg s1 Ha1) as [[H2 H3]|H];
      [split; congruence|].
    rewrite Hp1 in H. apply Z.leb_le in Hlen. lia.
Qed.

Lemma preload_completes (cfg : settings) (todo : nat) :
  preload_flag cfg = true ->
  forall s,
    animating s = false -> buffering s = false ->
    numImages cfg - Z.of_nat (List.length (preloaded s)) <= Z.of_nat todo ->
    let s' := run cfg (repeat CPreload (S todo)) s in
    allPreloaded s' = true /\
    numImages cfg <= Z.of_nat (List.length (preloaded s')) /\
    (forall x, In x (preloaded s) -> In x (preloaded s')).
Proof.
  intros Hp. induction todo as [|k IH]; intros s Ha Hb Hlen.
  - cbn [repeat run fold_left exec].
    destruct (preload_last_round cfg s Hp ltac:(lia)) as [H1 H2].
    rewrite H1, H2. repeat split; [lia|auto].
  - change (repeat CPreload (S (S k)))
      with (CPreload :: repeat CPreload (S k)).
    cbn [run fold_left exec].
    change (fold_left (fun st c => exec cfg c st) (repeat CPreload (S k))
              (preload cfg s))
      with (run cfg (repeat CPreload (S k)) (preload cfg s)).
    destruct (Z_lt_le_dec (Z.of_nat (List.length (preloaded s)))
                (numImages cfg)) as [Hlt|Hge].
    + destruct (preload_round cfg s Hp Ha Hb Hlt)
        as (i & Hi & Hpre & Ha1 & Hb1 & _).
      destruct (IH (preload cfg s) Ha1 Hb1) as (H1 & H2 & H3).
      { rewrite Hpre, length_app. cbn [List.length]. lia. }
      split; [exact H1|]. split; [exact H2|].
      intros x Hx. apply H3. rewrite Hpre. apply in_app_iff. left. exact Hx.
    + destruct (preload_last_round cfg s Hp Hge) as [Hall Hpre].
      destruct (preload_quiet cfg s) as (_ & _ & _ & Ha1 & Hb1 & _).
      destruct (IH (preload cfg s)) as (H1 & H2 & H3);
        [congruence|congruence|rewrite Hpre; lia|].
      split; [exact H1|]. split; [exact H2|].
      intros x Hx. apply H3. rewrite Hpre. exact Hx.
Qed.

(** X26: left alone, preloading runs to completion.  On a plugin that is
    neither animating nor buffering and has [preload] set, every round of the
    preload timer marks one more frame until [numImages] marks are there; so
    after [numImages - preloaded.length] rounds (none if that is negative)
    and one more, [allPreloaded] is set, [numImages] or more frames are
    marked, and no mark was lost. *)
Theorem X26_preloading_completes (cfg : settings) (s : state) :
  preload_flag cfg = true ->
  animating s = false -> buffering s = false ->
  let rounds :=
    S (Z.to_nat (numImages cfg - Z.of_nat (List.length (preloaded s)))) in
  let s' := run cfg (repeat CPreload rounds) s in
  allPreloaded s' = true /\
  numImages cfg <= Z.of_nat (List.length (preloaded s')) /\
  (forall x, In x (preloaded s) -> In x (preloaded s')).
Proof.
  intros Hp Ha Hb rounds s'.
  apply (preload_completes cfg _ Hp s Ha Hb). lia.
Qed.

Lemma X26_preloading_completes_witness :
  let cfg := sample 5 2 false in
  let rounds :=
    S (Z.to_nat (numImages cfg - Z.of_nat (List.length (preloaded initial))))
  in
  rounds = 6%nat /\
  allPreloaded (run cfg (repeat CPreload rounds) initial) = true.
Proof.
  intros cfg rounds. split; [reflexivity|].
  exact (proj1 (X26_preloading_completes cfg initial eq_refl eq_refl
                  eq_refl)).
Defined.

(** ** An upgrade whose image is gone *)

(** X27: when the load callback of [upgradeFrame(f)] runs and none of the
    elements bound to [$frame] is attached any more (the image was pruned, or
    the frame had no image to begin with), the callback changes no child; it
    empties the staging [span] and marks [f] as preloaded in high resolution,
    so that the next image generated for [f] is the high-resolution one. *)
Theorem X27_upgrade_without_target (cfg : settings) (f : Z) (s : state) :
  upgradeWrapper s <> None ->
  (forall c, In c (children s) -> among (frame_ s) c = false) ->
  let s' := upgradeLoaded (Int f) s in
  children s' = children s /\
  upgradeWrapper s' = Some [] /\
  includes (preloadedBig s') (Int f) = true /\
  upgraded (generateImg cfg (Int f) false s') = true /\
  src (generateImg cfg (Int f) false s')
  = (imgDirBig cfg ++ imgName cfg ++ zerofill (imgStrLen s) (Int f) None
     ++ imgFormat cfg)%string.
Proof.
  intros Hw Hgone s'.
  assert (Hs' : s' = markBigAsPreloaded (Int f)
                       (set_upgradeWrapper (Some [])
                          (set_nextId (nextId s)
                             (set_children (children s) s)))).
  { unfold s', upgradeLoaded.
    destruct (upgradeWrapper s) as [html|]; [|contradiction].
    rewrite (after_none _ _ _ Hgone), (show_next_none _ _ Hgone).
    rewrite filter_all; [reflexivity|].
    intros c Hc. rewrite (Hgone c Hc). reflexivity. }
  assert (Hrest : children s' = children s /\ upgradeWrapper s' = Some [] /\
                  imgStrLen s' = imgStrLen s).
  { rewrite Hs'. unfold markBigAsPreloaded.
    destruct (includes (preloadedBig _) (Int f)); repeat split. }
  assert (Hbig : includes (preloadedBig s') (Int f) = true).
  { rewrite Hs'.
    generalize (onImagePreloaded_marks High f
                  (set_upgradeWrapper (Some [])
                     (set_nextId (nextId s) (set_children (children s) s)))).
    unfold onImagePreloaded. cbn [marked preloadedBig emit]. tauto. }
  destruct Hrest as (Hc & Hu & Hk).
  split; [exact Hc|]. split; [exact Hu|]. split; [exact Hbig|].
  unfold generateImg. rewrite Hbig, Hk. cbn [orb upgraded src].
  split; reflexivity.
Qed.

Lemma X27_upgrade_without_target_witness :
  let cfg := extend defaults upgrade_options in
  let s0 := final (init 1 (Some upgrade_options) true at_frame_5 defaults
                     initial) in
  let s := final (upgradeFrame cfg (Int 9) s0) in
  upgraded (generateImg cfg (Int 9) false (upgradeLoaded (Int 9) s)) = true.
Proof.
  intros cfg s0 s.
  apply (X27_upgrade_without_target cfg 9 s).
  - vm_compute. discriminate.
  - apply Forall_forall. vm_compute. repeat constructor.
Defined.

(** ** A buffer of zero, or less *)



(** ** An upgrade that completes *)

Lemma upgrade_completes_witness :
  let cfg := extend defaults upgrade_options in
  let s := final (init 1 (Some upgrade_options) true at_frame_5 defaults
                    initial) in
  includes
    (preloadedBig
       (upgradeLoaded (Int 5) (final (upgradeFrame cfg (Int 5) s))))
    (Int 5) = true.
Proof.
  intros cfg s.
  destruct (upgrade_completes cfg 5 s
              {| id := 1; src := "img/clip-005.jpg"; frame := Int 5;
                 upgraded := false; visible := false |})
    as (_ & H & _).
  - split; vm_compute; repeat constructor. intros [].
  - vm_compute. discriminate.
  - vm_compute. reflexivity.
  - reflexivity.
  - exact H.
Defined.
